(** * Collapsed Gibbs sampler for Latent Dirichlet Allocation

    A shallow embedding of [src/sampler_class.py] (class
    [LatentDirichletAllocation]) and the properties of the sampler that the
    specification states.

    Conventions of the embedding.
    - Python [int] is [Z].
    - Python [float] comes twice.  The class is first embedded with exact
      rationals [Q] in place of floats: that embedding is the code with the
      real-number arithmetic its formulas denote, and it says nothing of
      rounding, overflow or underflow.  The sampling loop of [fit] is then
      embedded again with IEEE 754 binary64 numbers (the primitive [float],
      round to nearest even), as CPython and numpy compute it: [fit_f] and
      the definitions it is built from.  Which exception a run ends with
      can depend on rounding (a weight that underflows to 0.0), so a
      property of every run of [fit] is stated of [fit_f].
    - [np.zeros] refuses a shape it cannot describe ([ValueError]); that
      the machine may lack the memory for an admissible shape
      ([MemoryError]) is not modelled.
    - A Python exception is a value of [exn]; code that can raise returns
      [result].
    - [dict] objects that are only looked up and updated by key are [gmap];
      the corpus, whose iteration order fixes the sweep order, is an
      association list in insertion order.
    - [collections.Counter] is a [gmap Z Z] read with default [0].
    - The two random generators (numpy's for the initial topics, the
      [random] module's for [choices]) are streams of raw draws indexed by
      the number of draws made so far.
    - Progress output ([trange], [print]) is left out. *)

From Stdlib Require Import ZArith QArith Lqa Lia.
From Stdlib Require Import Floats.
From stdpp Require Import base option list gmap strings sorting.

Local Open Scope Z_scope.

(** ** Exceptions and the result monad *)

Inductive exn : Type :=
  | NameError (name : string)
  | ValueError
  | ZeroDivisionError
  | OverflowError
  | KeyError
  | IndexError
  | TypeError
  | InitializationError.

Inductive result (A : Type) : Type :=
  | Ok (a : A)
  | Raise (e : exn).
Arguments Ok {A} a.
Arguments Raise {A} e.

#[global] Instance result_ret : MRet result := λ A a, Ok a.
#[global] Instance result_bind : MBind result := λ A B f m,
  match m with
  | Ok a => f a
  | Raise e => Raise e
  end.

(** [for x in l: s = body(s, x)], stopping at the first exception. *)
Fixpoint for_each {A S : Type} (body : S → A → result S) (s : S) (l : list A)
    : result S :=
  match l with
  | [] => Ok s
  | x :: l' => s' ← body s x; for_each body s' l'
  end.

(** [for _ in range(n): s = body(s)]. *)
Fixpoint repeat_loop {S : Type} (n : nat) (body : S → result S) (s : S)
    : result S :=
  match n with
  | O => Ok s
  | S n' => s' ← body s; repeat_loop n' body s'
  end.

(** [enumerate(l)]. *)
Definition enumerate {A : Type} (l : list A) : list (nat * A) :=
  imap (λ i x, (i, x)) l.

(** ** Python containers *)

(** [d[k]] on a plain [dict]. *)
Definition dict_get {A : Type} (d : gmap string A) (k : string) : result A :=
  match d !! k with
  | Some a => Ok a
  | None => Raise KeyError
  end.

(** [l[i]] for a non-negative index. *)
Definition list_get {A : Type} (l : list A) (i : nat) : result A :=
  match l !! i with
  | Some a => Ok a
  | None => Raise IndexError
  end.

(** [l[-1]]. *)
Definition list_last {A : Type} (l : list A) : result A :=
  match last l with
  | Some a => Ok a
  | None => Raise IndexError
  end.

(** [l[:n]] for an integer [n] of either sign. *)
Definition slice_to {A : Type} (l : list A) (n : Z) : list A :=
  if decide (0 ≤ n) then take (Z.to_nat n) l
  else take (Z.to_nat (Z.of_nat (length l) + n)) l.

(** [range(1, K + 1)]. *)
Definition topic_range (K : Z) : list Z := seqZ 1 K.

(** *** [collections.Counter] *)

Abbreviation Counter := (gmap Z Z).

(** [c[k]]: a missing key reads as zero. *)
Definition counter_get (c : Counter) (k : Z) : Z := default 0 (c !! k).

(** [c[k] += d]. *)
Definition counter_add (c : Counter) (k : Z) (d : Z) : Counter :=
  <[k := counter_get c k + d]> c.

(** [c.update(elems)] for an iterable of keys. *)
Definition counter_update (c : Counter) (elems : list Z) : Counter :=
  foldl (λ c e, counter_add c e 1) c elems.

(** [sum(c.values())]. *)
Definition counter_total (c : Counter) : Z :=
  map_fold (λ _ v acc, v + acc) 0 c.

(** ** numpy arrays *)

Abbreviation matrix := (list (list Q)).

(** The largest value of numpy's index type [npy_intp] (64-bit builds). *)
Definition npy_intp_max : Z := 2 ^ 63 - 1.

(** [np.zeros(n)] in the exact embedding: a negative dimension is refused.
    The upper limits of numpy are in [np_zeros2], through which the [K] of
    every instance has passed, and in [np_zeros1_f]. *)
Definition np_zeros1 (n : Z) : result (list Q) :=
  if decide (n < 0) then Raise ValueError
  else Ok (replicate (Z.to_nat n) 0%Q).

(** [np.zeros((r, c))], an array of 8-byte floats.  numpy raises
    [ValueError] for a negative dimension, for a dimension that does not
    fit [npy_intp], and for a shape whose size in bytes, 8 times the
    product of the dimensions other than 0, does not fit [npy_intp]. *)
Definition np_zeros2 (r c : Z) : result matrix :=
  if decide (r < 0 ∨ c < 0) then Raise ValueError
  else if decide (npy_intp_max < r ∨ npy_intp_max < c) then Raise ValueError
  else if decide (npy_intp_max
                  < 8 * (if decide (r = 0) then 1 else r)
                      * (if decide (c = 0) then 1 else c))
  then Raise ValueError
  else Ok (replicate (Z.to_nat r) (replicate (Z.to_nat c) 0%Q)).

(** [v[i] = x] on a one-dimensional array, for a non-negative index. *)
Definition vec_set (v : list Q) (i : nat) (x : Q) : result (list Q) :=
  if decide (i < length v)%nat then Ok (<[i := x]> v) else Raise IndexError.

(** [m[r, c] = x], for non-negative indices. *)
Definition mat_set (m : matrix) (r c : nat) (x : Q) : result matrix :=
  row ← list_get m r;
  row' ← vec_set row c x;
  Ok (<[r := row']> m).

(** ** Arithmetic on Python numbers *)

(** [x / y] on floats: division by zero raises. *)
Definition py_div (x y : Q) : result Q :=
  if Qeq_bool y 0 then Raise ZeroDivisionError else Ok (x / y)%Q.

(** ** Library routines the class calls *)

(** *** [numpy.random.randint]

    [randint(low, high, size)] from the raw draws [raws] that the generator
    makes for this call ([size] of them).  A request for no values returns
    the empty array; otherwise an empty interval is refused; every value
    lies in [[low, high)].  The int64 bounds of numpy are not modelled. *)
Definition randint (low high : Z) (raws : list N) : result (list Z) :=
  match raws with
  | [] => Ok []
  | _ =>
    if decide (high ≤ low) then Raise ValueError
    else Ok ((λ r, low + Z.of_N r mod (high - low)) <$> raws)
  end.

(** *** [random.random] and [random.choices]

    [random()] is a multiple of [2^-53] in [[0, 1)], here from a raw draw. *)
Definition random (raw : N) : Q :=
  Qmake (Z.of_N raw mod 2 ^ 53) (2 ^ 53)%positive.

(** [itertools.accumulate(l)]: running sums, the first one being [l[0]]. *)
Fixpoint accumulate_from (acc : Q) (l : list Q) : list Q :=
  match l with
  | [] => []
  | x :: l' => (acc + x)%Q :: accumulate_from (acc + x)%Q l'
  end.

Definition accumulate (l : list Q) : list Q :=
  match l with
  | [] => []
  | x :: l' => x :: accumulate_from x l'
  end.

(** [bisect.bisect_right(a, x, lo, hi)]:
    [while lo < hi: mid = (lo + hi) // 2;
       if x < a[mid]: hi = mid  else: lo = mid + 1].
    The loop is run on [fuel]; [hi - lo] iterations always suffice
    (lemma [bisect_loop_fuel]). *)
Fixpoint bisect_loop (fuel : nat) (a : list Q) (x : Q) (lo hi : nat) : nat :=
  match fuel with
  | O => lo
  | S fuel' =>
    if decide (lo < hi)%nat then
      let mid := ((lo + hi) / 2)%nat in
      if Qle_bool (nth mid a 0%Q) x
      then bisect_loop fuel' a x (mid + 1)%nat hi
      else bisect_loop fuel' a x lo mid
    else lo
  end.

Definition bisect (a : list Q) (x : Q) (lo hi : nat) : nat :=
  bisect_loop (hi - lo) a x lo hi.

(** [choices(population, weights=weights)[0]] of CPython 3.9 and later,
    where [u] is the value [random()] returns for this draw. *)
Definition choices (population : list Z) (weights : list Q) (u : Q)
    : result Z :=
  let n := length population in
  let cum_weights := accumulate weights in
  if decide (length cum_weights ≠ n) then Raise ValueError
  else
    total ← list_last cum_weights;
    if Qle_bool total 0 then Raise ValueError
    else
      let hi := (n - 1)%nat in
      list_get population (bisect cum_weights (u * total)%Q 0 hi).

(** *** [scipy.stats.mode]

    [np.unique(a)]: the distinct values in ascending order. *)
Definition np_unique (a : list Z) : list Z :=
  merge_sort Z.le (remove_dups a).

(** [sum(a == score)]. *)
Definition count_score (a : list Z) (score : Z) : nat :=
  length (filter (λ x, x = score) a).

(** [mode(a, axis=None)] of the scipy releases that return arrays (before
    1.11): the pair of the mode array and the count array, each of one
    entry, and empty arrays for an empty input.  The scores are visited in
    ascending order and a score replaces the current one only when its
    count is strictly larger. *)
Definition mode (a : list Z) : list Z * list nat :=
  match a with
  | [] => ([], [])
  | _ =>
    let best :=
      foldl (λ (old : Z * nat) score,
               let counts := count_score a score in
               if decide (old.2 < counts)%nat then (score, counts) else old)
            (0, 0%nat) (np_unique a) in
    ([best.1], [best.2])
  end.

(** *** [get_unique_words] *)

(** Modelled from the spec: [get_unique_words] lives in [src/utility.py],
    which is not among the sources.  The specification's vocabulary indexer
    takes the token sequences of the corpus, returns the unique tokens in a
    stable enumeration (here: order of first occurrence), and fails with an
    initialization error only when the corpus holds no token at all. *)
Definition get_unique_words (docs : list (list string))
    : result (list string) :=
  match mjoin docs with
  | [] => Raise InitializationError
  | tokens => Ok (remove_dups tokens)
  end.

(** *** [numpy.around] *)

(** [floor(x)] and [rint(x)] (round half to even) on rationals. *)
Definition Qfloor_Z (x : Q) : Z := Qnum x / Zpos (Qden x).

Definition rint (x : Q) : Z :=
  let f := Qfloor_Z x in
  let r := (x - inject_Z f)%Q in
  match (r ?= 1 # 2)%Q with
  | Lt => f
  | Gt => f + 1
  | Eq => if Z.even f then f else f + 1
  end.

(** [np.around(x, 4)]. *)
Definition around4 (x : Q) : Q :=
  (inject_Z (rint (x * inject_Z 10000)) / inject_Z 10000)%Q.

(** ** The module namespace

    The names bound at the top level of [sampler_class.py]: its imports and
    the class.  A free name inside a method is looked up here (and then
    among the builtins, which hold none of the names looked up below). *)
Definition module_globals : list string :=
  ["Counter"; "choices"; "get_unique_words"; "np"; "trange"; "mode";
   "LatentDirichletAllocation"]%string.

(** A call [name(...)] through a free name, for a call whose value would be
    a matrix.  An unbound name raises [NameError].  None of the bound names
    accepts the argument lists of the two calls in [fit]. *)
Definition call_global (name : string) : result matrix :=
  if decide (name ∈ module_globals) then Raise TypeError
  else Raise (NameError name).

(** ** The class *)

Record LatentDirichletAllocation : Type := {
  iden_to_tokens : list (string * list string);
  K : Z;
  alpha : Q;
  beta : Q;
  vocabulary : list string;
  W : Z;
  theta_matrix : matrix;
  phi_matrix : matrix
}.

(** [LatentDirichletAllocation(iden_to_tokens, K, alpha, beta)]. *)
Definition __init__ (iden_to_tokens : list (string * list string)) (K : Z)
    (alpha beta : Q) : result LatentDirichletAllocation :=
  vocabulary ← get_unique_words (iden_to_tokens.*2);
  theta_matrix ← np_zeros2 K (Z.of_nat (length iden_to_tokens));
  phi_matrix ← np_zeros2 K (Z.of_nat (length vocabulary));
  Ok {| iden_to_tokens := iden_to_tokens; K := K; alpha := alpha;
        beta := beta; vocabulary := vocabulary;
        W := Z.of_nat (length vocabulary);
        theta_matrix := theta_matrix; phi_matrix := phi_matrix |}.

(** The four dictionaries that [_initialize_topics] builds and [fit]
    mutates. *)
Record tables : Type := {
  document_word_topics_MC : gmap string (list (list Z));
  document_topic_counts : gmap string Counter;
  word_topic_counts : gmap string Counter;
  total_topic_counts : Counter
}.

(** [[topic for idx, topic in enumerate(topics) if words[idx] == unique_word]];
    [topics] is as long as [words], so [words[idx]] is always in range. *)
Definition word_topics (words : list string) (topics : list Z)
    (unique_word : string) : list Z :=
  omap (λ it : nat * Z,
          if decide (words !! it.1 = Some unique_word) then Some it.2
          else None)
       (enumerate topics).

(** [{key: Counter() for key in keys}]. *)
Definition empty_counters (keys : list string) : gmap string Counter :=
  list_to_map ((λ key, (key, ∅)) <$> keys).

(** [_compute_phi_estimates(self, word_topic_counts, total_topic_counts)]:
    the instance after the call, whose [phi_matrix] has been written. *)
Definition set_phi_matrix (self : LatentDirichletAllocation) (phi : matrix)
    : LatentDirichletAllocation :=
  {| iden_to_tokens := self.(iden_to_tokens); K := self.(K);
     alpha := self.(alpha); beta := self.(beta);
     vocabulary := self.(vocabulary); W := self.(W);
     theta_matrix := self.(theta_matrix); phi_matrix := phi |}.

Definition _compute_phi_estimates (self : LatentDirichletAllocation)
    (word_topic_counts : gmap string Counter) (total_topic_counts : Counter)
    : result LatentDirichletAllocation :=
  for_each (λ self (it : nat * string),
    let '(w, word) := it in
    for_each (λ self k,
      cnt ← dict_get word_topic_counts word;
      let N_wk := counter_get cnt k in
      let N_k := counter_get total_topic_counts k in
      x ← py_div (inject_Z N_wk + self.(beta))
                 (inject_Z N_k + inject_Z self.(W) * self.(beta));
      phi ← mat_set self.(phi_matrix) (Z.to_nat (k - 1)) w x;
      Ok (set_phi_matrix self phi))
    self (topic_range self.(K)))
  self (enumerate self.(vocabulary)).

(** [_compute_MC_topic_approx(self, document_word_topics_MC)]. *)
Definition _compute_MC_topic_approx (self : LatentDirichletAllocation)
    (document_word_topics_MC : gmap string (list (list Z)))
    : result (gmap string (list Z)) :=
  let document_word_topics : gmap string (list Z) :=
    (λ _, []) <$> document_word_topics_MC in
  for_each (λ dwt (item : string * list (list Z)),
    let '(doc, words) := item in
    for_each (λ (dwt : gmap string (list Z)) (it : nat * list Z),
      let '(i, word) := it in
      chains ← dict_get document_word_topics_MC doc;
      chain ← list_get chains i;
      most_frequent_topic ← list_get (mode chain).1 0;
      labels ← dict_get dwt doc;
      Ok (<[doc := labels ++ [most_frequent_topic]]> dwt))
    dwt (enumerate words))
  document_word_topics (map_to_list document_word_topics_MC).

Section Sampler.

(** The raw draws of numpy's generator and of the [random] module. *)
Variable np_random : nat → N.
Variable py_random : nat → N.

(** One iteration of the loop over documents in [_initialize_topics]; the
    second component counts the numpy draws made so far. *)
Definition initialize_document (self : LatentDirichletAllocation)
    (s : tables * nat) (item : string * list string) : result (tables * nat) :=
  let '(st, drawn) := s in
  let '(doc, words) := item in
  topics ← randint 1 (self.(K) + 1) (np_random <$> seq drawn (length words));
  let MC := <[doc := (λ topic, [topic]) <$> topics]>
              st.(document_word_topics_MC) in
  cnt ← dict_get st.(document_topic_counts) doc;
  let dtc := <[doc := counter_update cnt topics]>
               st.(document_topic_counts) in
  let ttc := counter_update st.(total_topic_counts) topics in
  wtc ← for_each (λ wtc unique_word,
           cnt ← dict_get wtc unique_word;
           Ok (<[unique_word :=
                   counter_update cnt (word_topics words topics unique_word)]>
                 wtc))
         st.(word_topic_counts) (remove_dups words);
  Ok ({| document_word_topics_MC := MC; document_topic_counts := dtc;
         word_topic_counts := wtc; total_topic_counts := ttc |},
      (drawn + length words)%nat).

(** [_initialize_topics(self)]. *)
Definition _initialize_topics (self : LatentDirichletAllocation)
    : result tables :=
  let st0 :=
    {| document_word_topics_MC := ∅;
       document_topic_counts := empty_counters (self.(iden_to_tokens).*1);
       word_topic_counts := empty_counters self.(vocabulary);
       total_topic_counts := ∅ |} in
  s ← for_each (initialize_document self) (st0, 0%nat) self.(iden_to_tokens);
  Ok s.1.

(** The body of [for k in range(1, self.K + 1)] in [fit]: the density of
    candidate topic [k], stored at [densities[k - 1]].  The value is the
    exact rational that the formula denotes; [density_step_f] is the same
    body with the rounding, underflow and overflow of doubles. *)
Definition density_step (self : LatentDirichletAllocation) (alpha beta : Q)
    (st : tables) (doc word : string) (curr_topic : Z)
    (densities : list Q) (k : Z) : result (list Q) :=
  cnt_doc ← dict_get st.(document_topic_counts) doc;
  let N_kj := counter_get cnt_doc k in
  cnt_word ← dict_get st.(word_topic_counts) word;
  let N_wk := counter_get cnt_word k in
  let N_k := counter_get st.(total_topic_counts) k in
  let '(N_kj, N_wk, N_k) :=
    if decide (curr_topic = k) then (N_kj - 1, N_wk - 1, N_k - 1)
    else (N_kj, N_wk, N_k) in
  let a_kj := (inject_Z N_kj + alpha)%Q in
  b_wk ← py_div (inject_Z N_wk + beta)
                (inject_Z N_k + inject_Z self.(W) * beta);
  vec_set densities (Z.to_nat (k - 1)) (a_kj * b_wk)%Q.

(** The loop [for k in range(1, self.K + 1)] of [fit], started on the
    vector [densities] that [np.zeros(self.K)] made. *)
Definition compute_densities (self : LatentDirichletAllocation)
    (alpha beta : Q) (st : tables) (doc word : string) (curr_topic : Z)
    (densities : list Q) : result (list Q) :=
  for_each (density_step self alpha beta st doc word curr_topic)
           densities (topic_range self.(K)).

(** [document_word_topics_MC[doc][i][-1]]. *)
Definition current_topic (st : tables) (doc : string) (i : nat) : result Z :=
  chains ← dict_get st.(document_word_topics_MC) doc;
  chain ← list_get chains i;
  list_last chain.

(** [document_word_topics_MC[doc][i].append(new_topic)]. *)
Definition append_topic (st : tables) (doc : string) (i : nat)
    (new_topic : Z) : result tables :=
  chains ← dict_get st.(document_word_topics_MC) doc;
  chain ← list_get chains i;
  Ok {| document_word_topics_MC :=
          <[doc := <[i := chain ++ [new_topic]]> chains]>
            st.(document_word_topics_MC);
        document_topic_counts := st.(document_topic_counts);
        word_topic_counts := st.(word_topic_counts);
        total_topic_counts := st.(total_topic_counts) |}.

(** Lines 68 to 75: move one occurrence from [curr_topic] to [new_topic] in
    the three count tables. *)
Definition update_counts (st : tables) (doc word : string)
    (curr_topic new_topic : Z) : result tables :=
  cnt ← dict_get st.(document_topic_counts) doc;
  let dtc := <[doc := counter_add cnt curr_topic (-1)]>
               st.(document_topic_counts) in
  cnt ← dict_get dtc doc;
  let dtc := <[doc := counter_add cnt new_topic 1]> dtc in
  cnt ← dict_get st.(word_topic_counts) word;
  let wtc := <[word := counter_add cnt curr_topic (-1)]>
               st.(word_topic_counts) in
  cnt ← dict_get wtc word;
  let wtc := <[word := counter_add cnt new_topic 1]> wtc in
  let ttc := counter_add st.(total_topic_counts) curr_topic (-1) in
  let ttc := counter_add ttc new_topic 1 in
  Ok {| document_word_topics_MC := st.(document_word_topics_MC);
        document_topic_counts := dtc;
        word_topic_counts := wtc;
        total_topic_counts := ttc |}.

(** The body of the loop over the tokens of a document: lines 37 to 75.
    [drawn] is the number of [random()] calls made so far. *)
Definition resample (self : LatentDirichletAllocation) (alpha beta : Q)
    (doc : string) (s : tables * nat) (it : nat * string)
    : result (tables * nat) :=
  let '(st, drawn) := s in
  let '(i, word) := it in
  densities ← np_zeros1 self.(K);
  curr_topic ← current_topic st doc i;
  densities ←
    compute_densities self alpha beta st doc word curr_topic densities;
  new_topic ← choices (topic_range self.(K)) densities
                      (random (py_random drawn));
  st ← append_topic st doc i new_topic;
  if decide (new_topic = curr_topic) then Ok (st, S drawn)
  else
    st ← update_counts st doc word curr_topic new_topic;
    Ok (st, S drawn).

(** One iteration of the sampler: the loop over documents and tokens. *)
Definition sweep (self : LatentDirichletAllocation) (alpha beta : Q)
    (s : tables * nat) : result (tables * nat) :=
  for_each (λ s (item : string * list string),
              let '(doc, words) := item in
              for_each (resample self alpha beta doc) s (enumerate words))
           s self.(iden_to_tokens).

(** [fit(self, alpha, beta, niter)] in exact arithmetic: the instance
    after the call, and what the call returns or raises.  No statement of
    [fit] assigns an attribute of [self], and neither do the two methods
    it calls. *)
Definition fit (self : LatentDirichletAllocation) (alpha beta : Q)
    (niter : Z)
    : LatentDirichletAllocation
      * result (gmap string (list Z) * matrix * matrix) :=
  (self,
   st ← _initialize_topics self;
   s ← repeat_loop (Z.to_nat niter) (sweep self alpha beta) (st, 0%nat);
   document_word_topics ←
     _compute_MC_topic_approx self s.1.(document_word_topics_MC);
   phi_matrix ← call_global "_compute_phi_estimates";
   theta_matrix ← call_global "compute_theta_estimates";
   Ok (document_word_topics, phi_matrix, theta_matrix)).

(** *** The sampler as one sequence of token steps

    The occurrences [(doc, (i, word))] in the order one sweep visits them,
    and the order [fit] visits them over [niter] sweeps. *)
Definition occurrences (corpus : list (string * list string))
    : list (string * (nat * string)) :=
  item ← corpus; (λ it, (item.1, it)) <$> enumerate item.2.

Definition schedule (self : LatentDirichletAllocation) (niter : Z)
    : list (string * (nat * string)) :=
  mjoin (replicate (Z.to_nat niter) (occurrences self.(iden_to_tokens))).

Definition resample_at (self : LatentDirichletAllocation) (alpha beta : Q)
    (s : tables * nat) (occ : string * (nat * string))
    : result (tables * nat) :=
  resample self alpha beta occ.1 s occ.2.

(** The tables of [fit] after [_initialize_topics] and the first [n] token
    steps of the run. *)
Definition fit_prefix (self : LatentDirichletAllocation) (alpha beta : Q)
    (niter : Z) (n : nat) : result (tables * nat) :=
  st ← _initialize_topics self;
  for_each (resample_at self alpha beta) (st, 0%nat)
           (take n (schedule self niter)).

End Sampler.

(** ** The sampling loop in binary64 arithmetic

    The code of [fit] once more, with Python's [float] as it is: an IEEE
    754 binary64 number, every operation rounded to nearest, ties to even.
    [alpha] and [beta] are floats, the counts and [W] are integers, and a
    mixed operation converts its integer operand first.  The weights are
    stored in a float64 array and summed, compared and scaled by
    [choices] as floats.  The tables, the histories and the draws of the
    initial topics are integers and are shared with the exact embedding. *)

(** [float(z)], the conversion applied to the [int] operand of a mixed
    operation: the nearest double, ties to even, and [OverflowError] for
    an integer beyond the range of doubles. *)
Definition float_of_int (z : Z) : result float :=
  let f := SF2Prim (binary_normalize prec emax z 0 false) in
  if PrimFloat.is_infinity f then Raise OverflowError else Ok f.

(** [x / y] on floats: division by zero (of either sign) raises. *)
Definition py_div_f (x y : float) : result float :=
  if PrimFloat.eqb y 0 then Raise ZeroDivisionError else Ok (x / y)%float.

(** [np.zeros(n)], an array of 8-byte floats, with the checks of
    [np_zeros2]. *)
Definition np_zeros1_f (n : Z) : result (list float) :=
  if decide (n < 0) then Raise ValueError
  else if decide (npy_intp_max < n) then Raise ValueError
  else if decide (npy_intp_max < 8 * (if decide (n = 0) then 1 else n))
  then Raise ValueError
  else Ok (replicate (Z.to_nat n) 0%float).

(** [v[i] = x] on a one-dimensional float64 array, for a non-negative
    index. *)
Definition vec_set_f (v : list float) (i : nat) (x : float)
    : result (list float) :=
  if decide (i < length v)%nat then Ok (<[i := x]> v) else Raise IndexError.

(** [random()]: the multiple of [2^-53] in [[0, 1)] that the raw draw
    gives; both the numerator and [2^53] are doubles and the quotient is
    exact. *)
Definition random_f (raw : N) : float :=
  (PrimFloat.of_uint63 (Uint63.of_Z (Z.of_N raw mod 2 ^ 53))
   / PrimFloat.of_uint63 (Uint63.of_Z (2 ^ 53)))%float.

(** [itertools.accumulate(l)] on floats. *)
Fixpoint accumulate_from_f (acc : float) (l : list float) : list float :=
  match l with
  | [] => []
  | x :: l' => (acc + x)%float :: accumulate_from_f (acc + x)%float l'
  end.

Definition accumulate_f (l : list float) : list float :=
  match l with
  | [] => []
  | x :: l' => x :: accumulate_from_f x l'
  end.

(** [bisect.bisect_right(a, x, lo, hi)] on floats:
    [while lo < hi: mid = (lo + hi) // 2;
       if x < a[mid]: hi = mid  else: lo = mid + 1],
    run on [fuel]; [hi - lo] iterations suffice. *)
Fixpoint bisect_loop_f (fuel : nat) (a : list float) (x : float)
    (lo hi : nat) : nat :=
  match fuel with
  | O => lo
  | S fuel' =>
    if decide (lo < hi)%nat then
      let mid := ((lo + hi) / 2)%nat in
      if (x <? nth mid a 0)%float
      then bisect_loop_f fuel' a x lo mid
      else bisect_loop_f fuel' a x (mid + 1)%nat hi
    else lo
  end.

Definition bisect_f (a : list float) (x : float) (lo hi : nat) : nat :=
  bisect_loop_f (hi - lo) a x lo hi.

(** [choices(population, weights=weights)[0]] of CPython 3.9 and later on
    float weights, where [u] is the value [random()] returns for this
    draw:
    [cum_weights = list(accumulate(weights))];
    [if len(cum_weights) != n: raise ValueError];
    [total = cum_weights[-1] + 0.0];
    [if total <= 0.0: raise ValueError];
    [if not isfinite(total): raise ValueError];
    [population[bisect(cum_weights, random() * total, 0, n - 1)]]. *)
Definition choices_f (population : list Z) (weights : list float)
    (u : float) : result Z :=
  let n := length population in
  let cum_weights := accumulate_f weights in
  if decide (length cum_weights ≠ n) then Raise ValueError
  else
    last ← list_last cum_weights;
    let total := (last + 0)%float in
    if (total <=? 0)%float then Raise ValueError
    else if negb (PrimFloat.is_finite total) then Raise ValueError
    else
      let hi := (n - 1)%nat in
      list_get population (bisect_f cum_weights (u * total)%float 0 hi).

Section SamplerFloat.

Variable np_random : nat → N.
Variable py_random : nat → N.

(** The body of [for k in range(1, self.K + 1)] in [fit]:
    [a_kj = N_kj + alpha], [b_wk = (N_wk + beta) / (N_k + self.W * beta)]
    and [densities[k - 1] = a_kj * b_wk], each integer operand converted
    where the operation that uses it is evaluated. *)
Definition density_step_f (self : LatentDirichletAllocation)
    (alpha beta : float) (st : tables) (doc word : string) (curr_topic : Z)
    (densities : list float) (k : Z) : result (list float) :=
  cnt_doc ← dict_get st.(document_topic_counts) doc;
  let N_kj := counter_get cnt_doc k in
  cnt_word ← dict_get st.(word_topic_counts) word;
  let N_wk := counter_get cnt_word k in
  let N_k := counter_get st.(total_topic_counts) k in
  let '(N_kj, N_wk, N_k) :=
    if decide (curr_topic = k) then (N_kj - 1, N_wk - 1, N_k - 1)
    else (N_kj, N_wk, N_k) in
  x_kj ← float_of_int N_kj;
  let a_kj := (x_kj + alpha)%float in
  x_wk ← float_of_int N_wk;
  x_W ← float_of_int self.(W);
  x_k ← float_of_int N_k;
  b_wk ← py_div_f (x_wk + beta)%float (x_k + x_W * beta)%float;
  vec_set_f densities (Z.to_nat (k - 1)) (a_kj * b_wk)%float.

(** The loop [for k in range(1, self.K + 1)] of [fit]. *)
Definition compute_densities_f (self : LatentDirichletAllocation)
    (alpha beta : float) (st : tables) (doc word : string) (curr_topic : Z)
    (densities : list float) : result (list float) :=
  for_each (density_step_f self alpha beta st doc word curr_topic)
           densities (topic_range self.(K)).

(** The body of the loop over the tokens of a document: lines 37 to 75. *)
Definition resample_f (self : LatentDirichletAllocation)
    (alpha beta : float) (doc : string) (s : tables * nat)
    (it : nat * string) : result (tables * nat) :=
  let '(st, drawn) := s in
  let '(i, word) := it in
  densities ← np_zeros1_f self.(K);
  curr_topic ← current_topic st doc i;
  densities ←
    compute_densities_f self alpha beta st doc word curr_topic densities;
  new_topic ← choices_f (topic_range self.(K)) densities
                        (random_f (py_random drawn));
  st ← append_topic st doc i new_topic;
  if decide (new_topic = curr_topic) then Ok (st, S drawn)
  else
    st ← update_counts st doc word curr_topic new_topic;
    Ok (st, S drawn).

(** One iteration of the sampler: the loop over documents and tokens. *)
Definition sweep_f (self : LatentDirichletAllocation) (alpha beta : float)
    (s : tables * nat) : result (tables * nat) :=
  for_each (λ s (item : string * list string),
              let '(doc, words) := item in
              for_each (resample_f self alpha beta doc) s (enumerate words))
           s self.(iden_to_tokens).

(** Lines 31 to 75 of [fit]: [_initialize_topics] and the [niter] sweeps. *)
Definition sampling_f (self : LatentDirichletAllocation)
    (alpha beta : float) (niter : Z) : result (tables * nat) :=
  st ← _initialize_topics np_random self;
  repeat_loop (Z.to_nat niter) (sweep_f self alpha beta) (st, 0%nat).

(** [fit(self, alpha, beta, niter)]: the instance after the call, and what
    the call returns or raises.  No statement of [fit] assigns an attribute
    of [self], and neither do the two methods it calls. *)
Definition fit_f (self : LatentDirichletAllocation) (alpha beta : float)
    (niter : Z)
    : LatentDirichletAllocation
      * result (gmap string (list Z) * matrix * matrix) :=
  (self,
   s ← sampling_f self alpha beta niter;
   document_word_topics ←
     _compute_MC_topic_approx self s.1.(document_word_topics_MC);
   phi_matrix ← call_global "_compute_phi_estimates";
   theta_matrix ← call_global "compute_theta_estimates";
   Ok (document_word_topics, phi_matrix, theta_matrix)).

End SamplerFloat.

(** *** [get_top_n_words] *)

(** What a topic is mapped to: words, or words paired with probabilities. *)
Inductive top_words : Type :=
  | Words (l : list string)
  | WordProbs (l : list (string * Q)).

Section TopWords.

(** [np.argsort] of a one-dimensional array.  numpy's default sort is not
    stable and the order it gives equal entries is not specified, so the
    routine is a parameter here. *)
Variable argsort : list Q → list nat.

Definition get_top_n_words (self : LatentDirichletAllocation) (n : Z)
    (return_probs : bool) : result (gmap Z top_words) :=
  for_each (λ (topic_top_words : gmap Z top_words) (k : nat),
    row ← list_get self.(phi_matrix) k;
    let top_n_idx := slice_to (reverse (argsort row)) n in
    top_n_words ← mapM (list_get self.(vocabulary)) top_n_idx;
    if return_probs then
      top_n_probs ← mapM (list_get row) top_n_idx;
      let top_n_probs := around4 <$> top_n_probs in
      Ok (<[Z.of_nat k + 1 := WordProbs (zip top_n_words top_n_probs)]>
            topic_top_words)
    else Ok (<[Z.of_nat k + 1 := Words top_n_words]> topic_top_words))
  ∅ (seq 0 (length self.(phi_matrix))).

End TopWords.

(** One [argsort]: insertion sort by value, in which an entry is placed
    behind the entries placed before it that are not larger.  Equal entries
    therefore stay in index order ([np.argsort(row, kind="stable")]). *)
Fixpoint insert_by_value (x : nat * Q) (l : list (nat * Q))
    : list (nat * Q) :=
  match l with
  | [] => [x]
  | y :: l' =>
    if Qle_bool y.2 x.2 then y :: insert_by_value x l' else x :: l
  end.

Definition argsort_stable (row : list Q) : list nat :=
  (foldl (λ sorted x, insert_by_value x sorted) [] (enumerate row)).*1.

(** ** Quantities the properties speak about *)

(** The number of elements of [l] that satisfy [P]. *)
Definition tally {A : Type} (P : A → Prop) `{!∀ x, Decision (P x)}
    (l : list A) : Z :=
  Z.of_nat (length (filter P l)).

(** [sum(f(x) for x in l)]. *)
Definition sumZ {A : Type} (f : A → Z) (l : list A) : Z :=
  foldr (λ x acc, f x + acc) 0 l.

(** The topic each occurrence of a document currently has: the last entry
    of each chain. *)
Definition current_topics (chains : list (list Z)) : list Z :=
  (λ chain, default 0 (last chain)) <$> chains.

Definition assignment (MC : gmap string (list (list Z))) (doc : string)
    : list Z :=
  current_topics (default [] (MC !! doc)).

(** Summing [word_topic_counts[word][k]] over all words. *)
Definition words_total (wtc : gmap string Counter) (k : Z) : Z :=
  map_fold (λ _ cnt acc, counter_get cnt k + acc) 0 wtc.

(** The number of tokens of the corpus, and of occurrences of a word. *)
Definition token_count (corpus : list (string * list string)) : Z :=
  sumZ (λ item, Z.of_nat (length item.2)) corpus.

Definition word_count (corpus : list (string * list string)) (word : string)
    : Z :=
  sumZ (λ item, tally (λ w, w = word) item.2) corpus.

(** The count invariants of the specification. *)
Record count_invariants (self : LatentDirichletAllocation) (st : tables)
    : Prop := {
  ci_document : ∀ doc words, (doc, words) ∈ self.(iden_to_tokens) →
    ∃ cnt, st.(document_topic_counts) !! doc = Some cnt
           ∧ counter_total cnt = Z.of_nat (length words);
  ci_word : ∀ word, word ∈ self.(vocabulary) →
    ∃ cnt, st.(word_topic_counts) !! word = Some cnt
           ∧ counter_total cnt = word_count self.(iden_to_tokens) word;
  ci_topic : ∀ k,
    words_total st.(word_topic_counts) k
    = counter_get st.(total_topic_counts) k;
  ci_total :
    counter_total st.(total_topic_counts)
    = token_count self.(iden_to_tokens)
}.

(** The tables agree with the current assignment of a corpus: every count
    is the number of occurrences that currently carry the topic. *)
Record consistent (corpus : list (string * list string))
    (vocabulary : list string) (st : tables) : Prop := {
  cs_chains : ∀ doc words, (doc, words) ∈ corpus →
    ∃ chains, st.(document_word_topics_MC) !! doc = Some chains
              ∧ length chains = length words
              ∧ Forall (λ chain, chain ≠ []) chains;
  cs_document : ∀ doc words, (doc, words) ∈ corpus →
    ∃ cnt, st.(document_topic_counts) !! doc = Some cnt
           ∧ ∀ k, counter_get cnt k
                  = tally (λ t, t = k)
                          (assignment st.(document_word_topics_MC) doc);
  cs_word : ∀ word, word ∈ vocabulary →
    ∃ cnt, st.(word_topic_counts) !! word = Some cnt
           ∧ ∀ k, counter_get cnt k
                  = sumZ (λ item : string * list string,
                            tally (λ t, t = k)
                              (word_topics item.2
                                 (assignment st.(document_word_topics_MC)
                                             item.1) word))
                         corpus;
  cs_word_dom : ∀ word, is_Some (st.(word_topic_counts) !! word) →
    word ∈ vocabulary;
  cs_total : ∀ k,
    counter_get st.(total_topic_counts) k
    = sumZ (λ item : string * list string,
              tally (λ t, t = k)
                    (assignment st.(document_word_topics_MC) item.1))
           corpus
}.

(** A model as the constructor builds it from a dictionary: the keys of the
    corpus are distinct. *)
Definition constructed (self : LatentDirichletAllocation) : Prop :=
  NoDup (self.(iden_to_tokens).*1)
  ∧ __init__ self.(iden_to_tokens) self.(K) self.(alpha) self.(beta)
    = Ok self.

(** ** Notions the properties are stated with *)

(** The change of the count of topic [k] when an occurrence moves from
    topic [c] to topic [n]. *)
Definition shift (c n k : Z) : Z :=
  (if decide (n = k) then 1 else 0) - (if decide (c = k) then 1 else 0).



(** The statistical mode of a history, the lowest label among ties. *)
Definition lowest_mode (chain : list Z) (m : Z) : Prop :=
  m ∈ chain
  ∧ (∀ x, (count_score chain x ≤ count_score chain m)%nat)
  ∧ (∀ x, count_score chain x = count_score chain m → m ≤ x).

(** [mode(chain, axis=None)[0][0]] as a total function. *)
Definition mode00 (chain : list Z) : Z := default 0 (head (mode chain).1).

(** Every chain of every document holds at least one topic. *)
Definition chains_nonempty (MC : gmap string (list (list Z))) : Prop :=
  map_Forall (λ _ chains, Forall (λ chain : list Z, chain ≠ []) chains) MC.

(** The entry [m[r, c]] of a matrix, when the indices are in range. *)
Definition entry (m : matrix) (r c : nat) : option Q :=
  row ← m !! r; row !! c.

(** [m.shape == (nr, nc)]. *)
Definition shape (m : matrix) (nr nc : nat) : Prop :=
  length m = nr ∧ Forall (λ row, length row = nc) m.

(** Equation (2) of the specification: the estimate
    [(N_wk + beta) / (N_k + W * beta)] from the value stored for [k] in
    the counter of one word and in the totals (0 for a topic a counter
    holds no value for), with the [beta] and [W] of the instance. *)
Definition phi_estimate (self : LatentDirichletAllocation)
    (cnt_word total_topic_counts : gmap Z Z) (k : Z) : Q :=
  ((inject_Z (default 0%Z (cnt_word !! k)) + self.(beta))
   / (inject_Z (default 0%Z (total_topic_counts !! k))
      + inject_Z self.(W) * self.(beta)))%Q.

(** The entry of topic [k] in the answer of [get_top_n_words], from the
    words it lists and the probability [p] it attaches to each. *)
Definition constant_top_words (return_probs : bool) (words : list string)
    (p : Q) : top_words :=
  if return_probs then WordProbs ((λ w, (w, p)) <$> words) else Words words.

(** ** A small corpus to run the class on *)

Definition example_corpus : list (string * list string) :=
  [("d1", ["a"; "b"; "a"]); ("d2", ["b"; "b"])]%string.

(** [LatentDirichletAllocation(example_corpus, 2, 0.1, 0.1)]. *)
Definition example_model : LatentDirichletAllocation :=
  {| iden_to_tokens := example_corpus; K := 2; alpha := 1 # 10; beta := 1 # 10;
     vocabulary := ["a"; "b"]%string; W := 2;
     theta_matrix := [[0; 0]; [0; 0]]%Q; phi_matrix := [[0; 0]; [0; 0]]%Q |}.

(** Raw draws of the two generators. *)
Definition example_np (n : nat) : N := N.of_nat n.
Definition example_py (n : nat) : N := (N.of_nat n * 3000000000000000)%N.

(** What [_initialize_topics] builds from these draws: the topics
    1, 2, 1 for [d1] and 2, 1 for [d2]. *)
Definition example_tables : tables :=
  {| document_word_topics_MC :=
       {[ "d1"%string := [[1]; [2]; [1]]; "d2"%string := [[2]; [1]] ]};
     document_topic_counts :=
       {[ "d1"%string := {[ 1 := 2; 2 := 1 ]};
          "d2"%string := {[ 1 := 1; 2 := 1 ]} ]};
     word_topic_counts :=
       {[ "a"%string := {[ 1 := 2 ]}; "b"%string := {[ 1 := 1; 2 := 2 ]} ]};
     total_topic_counts := {[ 1 := 3; 2 := 2 ]} |}.

(** The tables after the first three token steps of a run: the draws keep
    the first occurrence of [d1] at topic 1, move the second one from
    topic 2 to topic 1 and keep the third one at topic 1. *)
Definition example_state : tables * nat :=
  ({| document_word_topics_MC :=
        {[ "d1"%string := [[1; 1]; [2; 1]; [1; 1]];
           "d2"%string := [[2]; [1]] ]};
      document_topic_counts :=
        {[ "d1"%string := {[ 1 := 3; 2 := 0 ]};
           "d2"%string := {[ 1 := 1; 2 := 1 ]} ]};
      word_topic_counts :=
        {[ "a"%string := {[ 1 := 2 ]}; "b"%string := {[ 1 := 2; 2 := 1 ]} ]};
      total_topic_counts := {[ 1 := 4; 2 := 1 ]} |},
   3%nat).

(** A corpus of one token with one topic, for a run with [alpha = 0]. *)
Definition single_corpus : list (string * list string) :=
  [("d1", ["a"])]%string.

Definition single_model : LatentDirichletAllocation :=
  {| iden_to_tokens := single_corpus; K := 1; alpha := 1; beta := 1;
     vocabulary := ["a"]%string; W := 1;
     theta_matrix := [[0]]%Q; phi_matrix := [[0]]%Q |}.

Definition single_tables : tables :=
  {| document_word_topics_MC := {[ "d1"%string := [[1]] ]};
     document_topic_counts := {[ "d1"%string := {[ 1 := 1 ]} ]};
     word_topic_counts := {[ "a"%string := {[ 1 := 1 ]} ]};
     total_topic_counts := {[ 1 := 1 ]} |}.

(** The doubles of Python's literals [0.1] and [1e-200]. *)
Definition tenth : float := 0x1.999999999999ap-4%float.




(** Every topic recorded in the histories is one of [1 .. K]. *)
Definition topics_in_range (K : Z) (MC : gmap string (list (list Z)))
    : Prop :=
  map_Forall (λ _ chains,
                Forall (Forall (λ topic : Z, 1 ≤ topic ≤ K)) chains) MC.

(** How often the occurrence at position [i] of document [doc] is visited
    by a sequence of token steps. *)
Definition visits (doc : string) (i : nat)
    (l : list (string * (nat * string))) : Z :=
  tally (λ occ, occ.1 = doc ∧ occ.2.1 = i) l.

(** [MC'] keeps every history of [MC] as a prefix. *)
Definition extends (MC MC' : gmap string (list (list Z))) : Prop :=
  ∀ doc chains, MC !! doc = Some chains →
    ∃ chains', MC' !! doc = Some chains' ∧ Forall2 prefix chains chains'.

(** [sum(row)] of a row of rationals. *)
Definition Qsum (row : list Q) : Q := foldr Qplus 0%Q row.

(** The matrix that [_compute_phi_estimates] leaves in [phi_matrix]: row
    [k - 1] holds the estimate of every vocabulary word for topic [k]. *)
Definition phi_estimates (self : LatentDirichletAllocation)
    (word_topic_counts : gmap string Counter) (total_topic_counts : Counter)
    : matrix :=
  (λ k, (λ word, phi_estimate self (default ∅ (word_topic_counts !! word))
                   total_topic_counts k) <$> self.(vocabulary))
  <$> topic_range self.(K).

(** The indices [np.argsort(row)[::-1][:n]] that [get_top_n_words] keeps
    for a row of [phi_matrix]. *)
Definition top_n_idx (argsort : list Q → list nat) (row : list Q) (n : Z)
    : list nat :=
  slice_to (reverse (argsort row)) n.

(** What [get_top_n_words] stores for a topic whose row is [row]: the
    vocabulary words at the kept indices, each with the rounded entry of
    its own index when probabilities are asked for. *)
Definition topic_entry (argsort : list Q → list nat)
    (self : LatentDirichletAllocation) (n : Z) (return_probs : bool)
    (row : list Q) : top_words :=
  let idx := top_n_idx argsort row n in
  if return_probs then
    WordProbs ((λ i, (nth i self.(vocabulary) EmptyString,
                      around4 (nth i row 0%Q))) <$> idx)
  else Words ((λ i, nth i self.(vocabulary) EmptyString) <$> idx).

(** An [argsort] that sorts: it returns the indices of the row, each once,
    in an order in which the entries ascend. *)
Definition sorts (argsort : list Q → list nat) : Prop :=
  ∀ row,
    argsort row ≡ₚ seq 0 (length row)
    ∧ ∀ a b i j, (a ≤ b)%nat →
        argsort row !! a = Some i → argsort row !! b = Some j →
        (nth i row 0 <= nth j row 0)%Q.

(** The tables after the first token step of a run on the example: the
    draw keeps the first occurrence of [d1] at topic 1. *)
Definition example_state_1 : tables * nat :=
  ({| document_word_topics_MC :=
        {[ "d1"%string := [[1; 1]; [2]; [1]]; "d2"%string := [[2]; [1]] ]};
      document_topic_counts :=
        {[ "d1"%string := {[ 1 := 2; 2 := 1 ]};
           "d2"%string := {[ 1 := 1; 2 := 1 ]} ]};
      word_topic_counts :=
        {[ "a"%string := {[ 1 := 2 ]}; "b"%string := {[ 1 := 1; 2 := 2 ]} ]};
      total_topic_counts := {[ 1 := 3; 2 := 2 ]} |},
   1%nat).

(** The tables after one complete sweep of the example. *)
Definition example_sweep : tables * nat :=
  ({| document_word_topics_MC :=
        {[ "d1"%string := [[1; 1]; [2; 1]; [1; 1]];
           "d2"%string := [[2; 2]; [1; 2]] ]};
      document_topic_counts :=
        {[ "d1"%string := {[ 1 := 3; 2 := 0 ]};
           "d2"%string := {[ 1 := 0; 2 := 2 ]} ]};
      word_topic_counts :=
        {[ "a"%string := {[ 1 := 2 ]}; "b"%string := {[ 1 := 1; 2 := 2 ]} ]};
      total_topic_counts := {[ 1 := 3; 2 := 2 ]} |},
   5%nat).

(** The example with no topic, as the constructor accepts it. *)
Definition no_topic_model : LatentDirichletAllocation :=
  {| iden_to_tokens := example_corpus; K := 0; alpha := 1 # 10; beta := 1 # 10;
     vocabulary := ["a"; "b"]%string; W := 2;
     theta_matrix := []; phi_matrix := [] |}.

(** The example with three topics and [beta = 0]. *)
Definition zero_beta_model : LatentDirichletAllocation :=
  {| iden_to_tokens := example_corpus; K := 3; alpha := 1 # 10; beta := 0;
     vocabulary := ["a"; "b"]%string; W := 2;
     theta_matrix := [[0; 0]; [0; 0]; [0; 0]]%Q;
     phi_matrix := [[0; 0]; [0; 0]; [0; 0]]%Q |}.

(** The example with a [phi_matrix] as [_compute_phi_estimates] fills it. *)
Definition fitted_model : LatentDirichletAllocation :=
  {| iden_to_tokens := example_corpus; K := 2; alpha := 1 # 10; beta := 1 # 10;
     vocabulary := ["a"; "b"]%string; W := 2;
     theta_matrix := [[0; 0]; [0; 0]]%Q;
     phi_matrix := [[21 # 32; 11 # 32]; [1 # 22; 21 # 22]]%Q |}.

(** * Lemmas *)

(** ** Loops *)

Lemma bind_Ok {A B} (m : result A) (f : A → result B) b :
  (m ≫= f) = Ok b ↔ ∃ a, m = Ok a ∧ f a = Ok b.
Proof.
  destruct m as [a|e]; simpl; split.
  - eauto.
  - by intros (a' & [= ->] & ?).
  - done.
  - by intros (? & ? & ?).
Qed.

Lemma bind_Ok_l {A B} (a : A) (f : A → result B) : (Ok a ≫= f) = f a.
Proof. done. Qed.

Lemma for_each_app {A S} (body : S → A → result S) s l1 l2 :
  for_each body s (l1 ++ l2) = (s' ← for_each body s l1; for_each body s' l2).
Proof.
  revert s. induction l1 as [|x l1 IH]; intros s; simpl; [done|].
  destruct (body s x) as [s'|e]; simpl; [apply IH|done].
Qed.

Lemma for_each_snoc {A S} (body : S → A → result S) s l x :
  for_each body s (l ++ [x]) = (s' ← for_each body s l; body s' x).
Proof.
  rewrite for_each_app. destruct (for_each body s l) as [s'|e]; simpl; [|done].
  by destruct (body s' x).
Qed.

(** A loop whose body keeps an invariant of the processed prefix and never
    raises runs to completion. *)
Lemma for_each_total {A S} (body : S → A → result S)
    (Inv : list A → S → Prop) l s :
  Inv [] s →
  (∀ pre x suf s, l = pre ++ x :: suf → Inv pre s →
     ∃ s', body s x = Ok s' ∧ Inv (pre ++ [x]) s') →
  ∃ s', for_each body s l = Ok s' ∧ Inv l s'.
Proof.
  induction l as [|x l IH] using rev_ind; intros H0 Hstep.
  - by exists s.
  - destruct IH as (s1 & Hs1 & Hinv); [done| |].
    { intros pre y suf s0 -> Hpre. apply (Hstep pre y (suf ++ [x])); [|done].
      by rewrite <-app_assoc. }
    destruct (Hstep l x [] s1) as (s2 & Hs2 & Hinv2); [done..|].
    exists s2. by rewrite for_each_snoc, Hs1.
Qed.

(** The same for a body that may raise: the invariant holds whenever the
    loop completes. *)
Lemma for_each_partial {A S} (body : S → A → result S)
    (Inv : list A → S → Prop) l s s' :
  Inv [] s →
  (∀ pre x suf s s', l = pre ++ x :: suf → Inv pre s →
     body s x = Ok s' → Inv (pre ++ [x]) s') →
  for_each body s l = Ok s' → Inv l s'.
Proof.
  revert s'. induction l as [|x l IH] using rev_ind; intros s' H0 Hstep.
  - by intros [= <-].
  - rewrite for_each_snoc. intros (s1 & Hs1 & Hs2)%bind_Ok.
    apply (Hstep l x [] s1); [done| |done].
    apply IH; [done| |done].
    intros pre y suf s0 s0' -> Hpre. apply (Hstep pre y (suf ++ [x])); [|done].
    by rewrite <-app_assoc.
Qed.

Lemma for_each_raise {A S} (body : S → A → result S) s l1 x l2 s1 e :
  for_each body s l1 = Ok s1 → body s1 x = Raise e →
  for_each body s (l1 ++ x :: l2) = Raise e.
Proof. intros H1 H2. rewrite for_each_app, H1. simpl. by rewrite H2. Qed.

Lemma for_each_nested {A B S} (body : S → B → result S) (g : A → list B) s l :
  for_each (λ s x, for_each body s (g x)) s l = for_each body s (x ← l; g x).
Proof.
  revert s. induction l as [|x l IH]; intros s; simpl; [done|].
  rewrite for_each_app. destruct (for_each body s (g x)); simpl; [apply IH|done].
Qed.

Lemma repeat_loop_for_each {A S} (body : S → A → result S) n l s :
  repeat_loop n (λ s, for_each body s l) s
  = for_each body s (mjoin (replicate n l)).
Proof.
  revert s. induction n as [|n IH]; intros s; simpl; [done|].
  rewrite for_each_app. destruct (for_each body s l); simpl; [apply IH|done].
Qed.

(** ** [enumerate] *)

Lemma enumerate_cons {A} (x : A) l :
  enumerate (x :: l) = (0%nat, x) :: (prod_map S id <$> enumerate l).
Proof.
  unfold enumerate. simpl. f_equal. rewrite fmap_imap. by apply imap_ext.
Qed.

Lemma enumerate_lookup {A} (l : list A) i :
  enumerate l !! i = (λ x, (i, x)) <$> l !! i.
Proof. unfold enumerate. by rewrite list_lookup_imap. Qed.

Lemma length_enumerate {A} (l : list A) : length (enumerate l) = length l.
Proof. unfold enumerate. by rewrite length_imap. Qed.

Lemma enumerate_split {A} (l : list A) pre i x suf :
  enumerate l = pre ++ (i, x) :: suf →
  i = length pre ∧ l !! i = Some x ∧ pre = enumerate (take i l).
Proof.
  intros Heq.
  assert (enumerate l !! length pre = Some (i, x)) as Hi.
  { rewrite Heq. by apply list_lookup_middle. }
  rewrite enumerate_lookup in Hi.
  destruct (l !! length pre) as [y|] eqn:Hy; simplify_eq/=.
  split_and!; [done..|].
  apply list_eq. intros j. rewrite enumerate_lookup.
  destruct (decide (j < length pre)%nat).
  - rewrite lookup_take_lt by done. rewrite <-enumerate_lookup, Heq.
    by rewrite lookup_app_l.
  - rewrite lookup_take_ge by lia. rewrite lookup_ge_None_2; [done|lia].
Qed.

(** ** Sums and tallies *)

Lemma sumZ_app {A} (f : A → Z) l1 l2 :
  sumZ f (l1 ++ l2) = sumZ f l1 + sumZ f l2.
Proof. unfold sumZ. induction l1; simpl; lia. Qed.

Lemma sumZ_ext {A} (f g : A → Z) l :
  (∀ x, x ∈ l → f x = g x) → sumZ f l = sumZ g l.
Proof.
  unfold sumZ. induction l as [|x l IH]; intros H; simpl; [done|].
  rewrite (H x), IH; [done| |left]. intros y Hy. apply H. by right.
Qed.

Lemma sumZ_plus {A} (f g : A → Z) l :
  sumZ (λ x, f x + g x) l = sumZ f l + sumZ g l.
Proof. unfold sumZ. induction l; simpl; lia. Qed.

Lemma sumZ_zero {A} (l : list A) : sumZ (λ _, 0) l = 0.
Proof. unfold sumZ. induction l; simpl; lia. Qed.

Lemma sumZ_nonneg {A} (f : A → Z) l :
  (∀ x, x ∈ l → 0 ≤ f x) → 0 ≤ sumZ f l.
Proof.
  unfold sumZ. induction l as [|x l IH]; intros H; simpl; [done|].
  specialize (H x (list_elem_of_here _ _)) as Hx.
  assert (0 ≤ foldr (λ x acc, f x + acc) 0 l); [|lia].
  apply IH. intros y Hy. apply H. by right.
Qed.

Lemma sumZ_elem_le {A} (f : A → Z) l x :
  (∀ y, y ∈ l → 0 ≤ f y) → x ∈ l → f x ≤ sumZ f l.
Proof.
  intros Hnn Hx. apply list_elem_of_split in Hx as (l1 & l2 & ->).
  rewrite sumZ_app. change (sumZ f (x :: l2)) with (f x + sumZ f l2).
  assert (0 ≤ sumZ f l1) by (apply sumZ_nonneg; intros; apply Hnn; set_solver).
  assert (0 ≤ sumZ f l2) by (apply sumZ_nonneg; intros; apply Hnn; set_solver).
  lia.
Qed.

Lemma sumZ_swap {A B} (f : A → B → Z) l1 l2 :
  sumZ (λ x, sumZ (f x) l2) l1 = sumZ (λ y, sumZ (λ x, f x y) l1) l2.
Proof.
  induction l1 as [|x l1 IH]; simpl.
  - by rewrite sumZ_zero.
  - rewrite IH. by rewrite sumZ_plus.
Qed.

(** A sum in which exactly one term changes. *)
Lemma sumZ_update_one {A} (f g : string * A → Z) l doc a :
  NoDup (l.*1) → (doc, a) ∈ l →
  (∀ d b, (d, b) ∈ l → d ≠ doc → g (d, b) = f (d, b)) →
  sumZ g l = sumZ f l + (g (doc, a) - f (doc, a)).
Proof.
  induction l as [|[d b] l IH]; intros Hnd Hin Hoth; [by apply elem_of_nil in Hin|].
  apply NoDup_cons in Hnd as [Hd Hnd]. simpl in *.
  apply elem_of_cons in Hin as [[= <- <-]|Hin].
  - rewrite (sumZ_ext g f l); [lia|].
    intros [d' b'] Hin'. apply Hoth; [by right|].
    intros ->. apply Hd. apply list_elem_of_fmap. by exists (doc, b').
  - rewrite IH; [|done..|].
    + rewrite (Hoth d b); [lia|by left|].
      intros ->. apply Hd. apply list_elem_of_fmap. by exists (doc, a).
    + intros d' b' Hin'. apply Hoth. by right.
Qed.

Lemma sumZ_ind_one {A} `{EqDecision A} (x : A) (c : Z) l :
  NoDup l → x ∈ l → sumZ (λ y, if decide (x = y) then c else 0) l = c.
Proof.
  induction l as [|y l IH]; intros Hnd Hin; [by apply elem_of_nil in Hin|].
  apply NoDup_cons in Hnd as [Hy Hnd]. simpl.
  apply elem_of_cons in Hin as [<-|Hin].
  - rewrite decide_True by done. rewrite (sumZ_ext _ (λ _, 0)).
    + rewrite sumZ_zero. lia.
    + intros z Hz. rewrite decide_False; [done|]. by intros <-.
  - rewrite decide_False by (by intros <-). rewrite IH by done. lia.
Qed.

Section tally.
Context {A : Type} (P : A → Prop) `{!∀ x, Decision (P x)}.

Lemma tally_nil : tally P [] = 0.
Proof. done. Qed.

Lemma tally_cons x l :
  tally P (x :: l) = (if decide (P x) then 1 else 0) + tally P l.
Proof.
  unfold tally. rewrite filter_cons. destruct (decide (P x)); simpl; lia.
Qed.

Lemma tally_app l1 l2 : tally P (l1 ++ l2) = tally P l1 + tally P l2.
Proof. unfold tally. rewrite filter_app, length_app. lia. Qed.

Lemma tally_nonneg l : 0 ≤ tally P l.
Proof. unfold tally. lia. Qed.

Lemma tally_le_length l : tally P l ≤ Z.of_nat (length l).
Proof. unfold tally. pose proof (length_filter P l). lia. Qed.

Lemma tally_pos l x : x ∈ l → P x → 1 ≤ tally P l.
Proof.
  intros Hin HP. unfold tally.
  assert (x ∈ filter P l) as Hf by (by apply list_elem_of_filter).
  destruct (filter P l); [by apply elem_of_nil in Hf|simpl; lia].
Qed.

Lemma tally_insert l i x y :
  l !! i = Some x →
  tally P (<[i := y]> l)
  = tally P l - (if decide (P x) then 1 else 0)
    + (if decide (P y) then 1 else 0).
Proof.
  revert i. induction l as [|z l IH]; intros [|i] Hi; simplify_eq/=.
  - rewrite !tally_cons. lia.
  - rewrite !tally_cons. rewrite (IH i) by done. lia.
Qed.
End tally.

(** Counting by key: each element is counted under exactly one key. *)
Lemma tally_partition {A B} `{EqDecision B} (key : A → B) (D : list B)
    (l : list A) :
  NoDup D → (∀ x, x ∈ l → key x ∈ D) →
  sumZ (λ d, tally (λ x, key x = d) l) D = Z.of_nat (length l).
Proof.
  intros Hnd. induction l as [|x l IH]; intros Hin.
  - rewrite (sumZ_ext _ (λ _, 0)) by done. by rewrite sumZ_zero.
  - rewrite (sumZ_ext _ (λ d, (if decide (key x = d) then 1 else 0)
                               + tally (λ x, key x = d) l)).
    2:{ intros d _. by rewrite tally_cons. }
    rewrite sumZ_plus, IH by (intros; apply Hin; by right).
    rewrite sumZ_ind_one; [simpl; lia|done|]. apply Hin. by left.
Qed.

(** ** Counters *)

Lemma counter_get_add c k d j :
  counter_get (counter_add c k d) j
  = counter_get c j + (if decide (k = j) then d else 0).
Proof.
  unfold counter_add, counter_get. destruct (decide (k = j)) as [->|].
  - rewrite lookup_insert_eq. simpl. done.
  - rewrite lookup_insert_ne by done. lia.
Qed.

Lemma counter_get_update c l j :
  counter_get (counter_update c l) j = counter_get c j + tally (λ t, t = j) l.
Proof.
  unfold counter_update. revert c. induction l as [|x l IH]; intros c; simpl.
  - rewrite tally_nil. lia.
  - rewrite IH, counter_get_add, tally_cons. lia.
Qed.

Lemma counter_get_empty j : counter_get ∅ j = 0.
Proof. done. Qed.

Lemma counter_total_sum (c : Counter) :
  counter_total c = sumZ (counter_get c) (map_to_list c).*1.
Proof.
  unfold counter_total. rewrite map_fold_foldr.
  assert (∀ p, p ∈ map_to_list c → counter_get c p.1 = p.2) as Hel.
  { intros [k v] Hin. apply elem_of_map_to_list in Hin. unfold counter_get.
    simpl. by rewrite Hin. }
  revert Hel. generalize (map_to_list c). intros l.
  induction l as [|[k v] l IH]; intros Hel; simpl; [done|].
  rewrite IH by (intros; apply Hel; by right).
  pose proof (Hel (k, v) ltac:(left)) as Hkv. simpl in Hkv.
  unfold sumZ. simpl. by rewrite Hkv.
Qed.

(** A counter that tallies a list sums to the length of that list. *)
Lemma counter_total_tally (c : Counter) (l : list Z) :
  (∀ k, counter_get c k = tally (λ t, t = k) l) →
  counter_total c = Z.of_nat (length l).
Proof.
  intros Hc. rewrite counter_total_sum.
  rewrite (sumZ_ext _ (λ k, tally (λ t, t = k) l)) by done.
  apply (tally_partition (λ t, t)).
  - apply NoDup_fst_map_to_list.
  - intros x Hx. assert (1 ≤ counter_get c x) as Hge.
    { rewrite Hc. by apply (tally_pos _ _ x). }
    unfold counter_get in Hge. destruct (c !! x) as [v|] eqn:Hv; simpl in *; [|lia].
    apply list_elem_of_fmap. exists (x, v). split; [done|].
    by apply elem_of_map_to_list.
Qed.

(** ** [word_topics] *)

Lemma word_topics_nil_r words w : word_topics words [] w = [].
Proof. done. Qed.

Lemma word_topics_nil_l topics w : word_topics [] topics w = [].
Proof.
  unfold word_topics. generalize (enumerate topics). intros l.
  induction l as [|[i t] l IH]; [done|].
  cbn [omap list_omap]. rewrite IH. done.
Qed.

Lemma word_topics_cons w0 words t topics w :
  word_topics (w0 :: words) (t :: topics) w
  = (if decide (w0 = w) then [t] else []) ++ word_topics words topics w.
Proof.
  unfold word_topics. rewrite enumerate_cons. cbn [omap list_omap fst snd].
  assert (omap (λ it : nat * Z,
                  if decide ((w0 :: words) !! it.1 = Some w) then Some it.2
                  else None) (prod_map S id <$> enumerate topics)
          = omap (λ it : nat * Z,
                  if decide (words !! it.1 = Some w) then Some it.2
                  else None) (enumerate topics)) as ->.
  { generalize (enumerate topics). intros l.
    induction l as [|[i t'] l IH]; [done|].
    rewrite fmap_cons. cbn [omap list_omap]. by rewrite IH. }
  destruct (decide (w0 = w)) as [->|Hne].
  - by rewrite decide_True.
  - rewrite decide_False; [done|]. simpl. congruence.
Qed.

Lemma length_word_topics words topics w :
  length topics = length words →
  Z.of_nat (length (word_topics words topics w)) = tally (λ x, x = w) words.
Proof.
  revert topics. induction words as [|w0 words IH]; intros [|t topics] Hlen;
    simplify_eq/=.
  - done.
  - rewrite word_topics_cons, length_app, tally_cons.
    rewrite Nat2Z.inj_add, IH by done. by destruct (decide (w0 = w)).
Qed.

Lemma tally_word_topics_insert words topics i word c n w k :
  words !! i = Some word → topics !! i = Some c →
  tally (λ t, t = k) (word_topics words (<[i := n]> topics) w)
  = tally (λ t, t = k) (word_topics words topics w)
    + (if decide (word = w)
       then (if decide (n = k) then 1 else 0) - (if decide (c = k) then 1 else 0)
       else 0).
Proof.
  revert topics i. induction words as [|w0 words IH]; intros [|t topics] [|i] Hw Ht;
    simplify_eq/=.
  - rewrite !word_topics_cons, !tally_app.
    destruct (decide (word = w)); [|lia].
    rewrite !tally_cons, !tally_nil. lia.
  - rewrite !word_topics_cons, !tally_app. rewrite (IH topics i) by done. lia.
Qed.

(** Every occurrence with topic [k] is counted under exactly one word. *)
Lemma tally_word_topics_partition (D : list string) words topics k :
  NoDup D → (∀ w, w ∈ words → w ∈ D) → length topics = length words →
  sumZ (λ w, tally (λ t, t = k) (word_topics words topics w)) D
  = tally (λ t, t = k) topics.
Proof.
  intros Hnd. revert topics.
  induction words as [|w0 words IH]; intros [|t topics] Hin Hlen; simplify_eq/=.
  - rewrite (sumZ_ext _ (λ _, 0)) by done. by rewrite sumZ_zero.
  - rewrite (sumZ_ext _ (λ w, (if decide (w0 = w)
                               then (if decide (t = k) then 1 else 0) else 0)
                              + tally (λ t, t = k) (word_topics words topics w))).
    2:{ intros w _. rewrite word_topics_cons, tally_app.
        destruct (decide (w0 = w)); [|by rewrite tally_nil].
        by rewrite tally_cons, tally_nil, Z.add_0_r. }
    rewrite sumZ_plus, IH; [|intros; apply Hin; by right|done].
    rewrite sumZ_ind_one; [|done|apply Hin; by left].
    by rewrite tally_cons.
Qed.

(** ** Sums of tallies over the corpus *)

Lemma tally_concat {A} (P : A → Prop) `{!∀ x, Decision (P x)} (ls : list (list A)) :
  tally P (concat ls) = sumZ (tally P) ls.
Proof.
  induction ls as [|l ls IH]; simpl; [done|].
  rewrite tally_app, IH. done.
Qed.

Lemma sumZ_fmap {A B} (f : B → Z) (g : A → B) l :
  sumZ f (g <$> l) = sumZ (λ x, f (g x)) l.
Proof.
  unfold sumZ. induction l as [|x l IH]; [done|].
  rewrite fmap_cons. cbn [foldr]. by rewrite IH.
Qed.

Lemma length_concat_sumZ {A} (ls : list (list A)) :
  Z.of_nat (length (concat ls)) = sumZ (λ l, Z.of_nat (length l)) ls.
Proof.
  induction ls as [|l ls IH]; simpl; [done|].
  rewrite length_app, Nat2Z.inj_add, IH. done.
Qed.

(** A counter that tallies a family of lists sums to their total length. *)
Lemma counter_total_tally_family {A} (c : Counter) (g : A → list Z) (L : list A) :
  (∀ k, counter_get c k = sumZ (λ x, tally (λ t, t = k) (g x)) L) →
  counter_total c = sumZ (λ x, Z.of_nat (length (g x))) L.
Proof.
  intros Hc. rewrite (counter_total_tally c (concat (g <$> L))).
  - by rewrite length_concat_sumZ, sumZ_fmap.
  - intros k. by rewrite Hc, tally_concat, sumZ_fmap.
Qed.

Lemma words_total_sum (wtc : gmap string Counter) k :
  words_total wtc k = sumZ (λ p, counter_get p.2 k) (map_to_list wtc).
Proof.
  unfold words_total. rewrite map_fold_foldr. unfold sumZ.
  induction (map_to_list wtc) as [|[w c] l IH]; simpl; [done|]. by rewrite IH.
Qed.

Lemma length_current_topics chains :
  length (current_topics chains) = length chains.
Proof. unfold current_topics. by rewrite length_fmap. Qed.

(** ** The count invariants follow from consistency *)

Lemma consistent_count_invariants self st :
  NoDup (self.(iden_to_tokens).*1) →
  (∀ doc words w, (doc, words) ∈ self.(iden_to_tokens) → w ∈ words →
     w ∈ self.(vocabulary)) →
  consistent self.(iden_to_tokens) self.(vocabulary) st →
  count_invariants self st.
Proof.
  intros Hnd Hvoc [Hch Hdoc Hword Hdom Htot].
  assert (∀ item, item ∈ self.(iden_to_tokens) →
            length (assignment st.(document_word_topics_MC) item.1)
            = length item.2) as Hlen.
  { intros [doc words] Hin. destruct (Hch doc words Hin) as (chains & Hc & Hl & _).
    unfold assignment. simpl. by rewrite Hc, length_current_topics. }
  split.
  - intros doc words Hin. destruct (Hdoc doc words Hin) as (cnt & Hcnt & Hk).
    exists cnt. split; [done|].
    rewrite (counter_total_tally _ _ Hk). f_equal. apply (Hlen (doc, words) Hin).
  - intros word Hin. destruct (Hword word Hin) as (cnt & Hcnt & Hk).
    exists cnt. split; [done|].
    rewrite (counter_total_tally_family cnt
               (λ item : string * list string,
                  word_topics item.2
                    (assignment st.(document_word_topics_MC) item.1) word)
               self.(iden_to_tokens)) by done.
    unfold word_count. apply sumZ_ext. intros item Hitem.
    apply length_word_topics. by apply Hlen.
  - intros k. rewrite words_total_sum, Htot.
    rewrite (sumZ_ext _ (λ p : string * Counter,
               sumZ (λ item : string * list string,
                       tally (λ t, t = k)
                         (word_topics item.2
                            (assignment st.(document_word_topics_MC) item.1)
                            p.1))
                    self.(iden_to_tokens))).
    2:{ intros [w c] Hwc. apply elem_of_map_to_list in Hwc. simpl.
        destruct (Hword w) as (cnt & Hcnt & Hk); [apply Hdom; by rewrite Hwc|].
        rewrite Hwc in Hcnt. injection Hcnt as ->. apply Hk. }
    rewrite sumZ_swap. apply sumZ_ext. intros [doc words] Hin.
    rewrite <-(sumZ_fmap (λ w, tally (λ t, t = k)
                  (word_topics words
                     (assignment st.(document_word_topics_MC) doc) w)) fst).
    apply tally_word_topics_partition.
    + apply NoDup_fst_map_to_list.
    + intros w Hw. destruct (Hword w) as (cnt & Hcnt & _); [by eapply Hvoc|].
      apply list_elem_of_fmap. exists (w, cnt). split; [done|].
      by apply elem_of_map_to_list.
    + apply (Hlen (doc, words) Hin).
  - rewrite (counter_total_tally_family _
               (λ item : string * list string,
                  assignment st.(document_word_topics_MC) item.1)
               self.(iden_to_tokens)) by done.
    unfold token_count. apply sumZ_ext. intros item Hitem. f_equal.
    by apply Hlen.
Qed.

(** ** What the constructor establishes *)

Lemma get_unique_words_Ok docs v :
  get_unique_words docs = Ok v →
  mjoin docs ≠ [] ∧ v = remove_dups (mjoin docs).
Proof.
  unfold get_unique_words. destruct (mjoin docs) eqn:E; [done|].
  by intros [= <-].
Qed.

Lemma get_unique_words_tokens docs :
  mjoin docs ≠ [] → get_unique_words docs = Ok (remove_dups (mjoin docs)).
Proof. unfold get_unique_words. by destruct (mjoin docs). Qed.

Lemma get_unique_words_empty docs :
  mjoin docs = [] → get_unique_words docs = Raise InitializationError.
Proof. unfold get_unique_words. by intros ->. Qed.

Lemma np_zeros2_Ok r c m :
  np_zeros2 r c = Ok m →
  0 ≤ r ∧ 0 ≤ c ∧ m = replicate (Z.to_nat r) (replicate (Z.to_nat c) 0%Q).
Proof.
  unfold np_zeros2. repeat (destruct (decide _); [done|]). intros [= <-].
  split_and!; [lia|lia|done].
Qed.

Lemma np_zeros2_small r c :
  0 ≤ r → 0 ≤ c → 8 * Z.max 1 r * Z.max 1 c ≤ npy_intp_max →
  np_zeros2 r c = Ok (replicate (Z.to_nat r) (replicate (Z.to_nat c) 0%Q)).
Proof.
  intros Hr Hc Hsize. unfold np_zeros2.
  assert (1 ≤ Z.max 1 r ∧ r ≤ Z.max 1 r) as [Ha Hra] by lia.
  assert (1 ≤ Z.max 1 c ∧ c ≤ Z.max 1 c) as [Hb Hcb] by lia.
  assert (Z.max 1 r ≤ Z.max 1 r * Z.max 1 c) as Hab by nia.
  assert (Z.max 1 c ≤ Z.max 1 r * Z.max 1 c) as Hba by nia.
  rewrite <-Z.mul_assoc in Hsize.
  rewrite decide_False by lia.
  rewrite decide_False by lia.
  rewrite decide_False; [done|].
  rewrite <-Z.mul_assoc.
  repeat destruct (decide (_ = 0)); subst; nia.
Qed.

Lemma np_zeros2_negative r c :
  r < 0 ∨ c < 0 → np_zeros2 r c = Raise ValueError.
Proof. intros H. unfold np_zeros2. by rewrite decide_True. Qed.

Lemma np_zeros2_error r c e : np_zeros2 r c = Raise e → e = ValueError.
Proof.
  unfold np_zeros2. repeat (destruct (decide _); [by intros [= <-]|]). done.
Qed.

Lemma constructed_facts self :
  constructed self →
  NoDup (self.(iden_to_tokens).*1)
  ∧ 0 ≤ self.(K)
  ∧ mjoin (self.(iden_to_tokens).*2) ≠ []
  ∧ self.(vocabulary) = remove_dups (mjoin (self.(iden_to_tokens).*2))
  ∧ self.(W) = Z.of_nat (length self.(vocabulary))
  ∧ self.(theta_matrix)
    = replicate (Z.to_nat self.(K))
        (replicate (length self.(iden_to_tokens)) 0%Q)
  ∧ self.(phi_matrix)
    = replicate (Z.to_nat self.(K))
        (replicate (length self.(vocabulary)) 0%Q).
Proof.
  intros [Hnd Hinit]. unfold __init__ in Hinit.
  apply bind_Ok in Hinit as (v & Hv & Hinit).
  apply bind_Ok in Hinit as (th & Hth & Hinit).
  apply bind_Ok in Hinit as (ph & Hph & Hinit).
  apply get_unique_words_Ok in Hv as [Hne ->].
  apply np_zeros2_Ok in Hth as (HK & _ & ->).
  apply np_zeros2_Ok in Hph as (_ & _ & ->).
  destruct self as [c k a b voc w th ph]. simpl in *.
  injection Hinit as Hvoc Hw Hth Hph. subst voc.
  rewrite !Nat2Z.id in *. by split_and!.
Qed.

Lemma constructed_vocabulary self doc words w :
  constructed self → (doc, words) ∈ self.(iden_to_tokens) → w ∈ words →
  w ∈ self.(vocabulary).
Proof.
  intros Hc Hin Hw. destruct (constructed_facts self Hc) as (_&_&_&->&_).
  apply elem_of_remove_dups. apply list_elem_of_join. exists words.
  split; [done|]. apply list_elem_of_fmap. by exists (doc, words).
Qed.


(** ** Dictionaries of counters *)

Lemma empty_counters_lookup keys key :
  empty_counters keys !! key = if decide (key ∈ keys) then Some ∅ else None.
Proof.
  unfold empty_counters. induction keys as [|k keys IH].
  - rewrite decide_False by apply not_elem_of_nil. apply lookup_empty.
  - rewrite fmap_cons. cbn [list_to_map foldr]. change (foldr _ _ ?l) with (list_to_map l : gmap string Counter).
    destruct (decide (k = key)) as [->|Hne].
    + rewrite decide_True by left. apply lookup_insert_eq.
    + rewrite lookup_insert_ne by done. rewrite IH.
      destruct (decide (key ∈ keys)).
      * rewrite decide_True; [done|by right].
      * rewrite decide_False; [done|]. rewrite elem_of_cons. by intros [?|?].
Qed.

(** The loop that updates the counter of each key of a duplicate-free
    list. *)
Section update_keys.
Context (g : string → Counter → Counter).

Let body (wtc : gmap string Counter) (u : string) : result (gmap string Counter) :=
  cnt ← dict_get wtc u; Ok (<[u := g u cnt]> wtc).

Lemma update_keys_Ok l m m' :
  NoDup l → for_each body m l = Ok m' →
  ∀ w, m' !! w = if decide (w ∈ l) then g w <$> m !! w else m !! w.
Proof.
  revert m. induction l as [|u l IH]; intros m Hnd Hrun w.
  - injection Hrun as <-. by rewrite decide_False by apply not_elem_of_nil.
  - apply NoDup_cons in Hnd as [Hu Hnd]. simpl in Hrun.
    apply bind_Ok in Hrun as (m1 & Hm1 & Hrun).
    unfold body, dict_get in Hm1. destruct (m !! u) as [cnt|] eqn:Hmu; [|done].
    simpl in Hm1. injection Hm1 as <-.
    rewrite (IH _ Hnd Hrun w). destruct (decide (w = u)) as [->|Hne].
    + rewrite decide_False by done. rewrite decide_True by left.
      by rewrite lookup_insert_eq, Hmu.
    + rewrite lookup_insert_ne by done. destruct (decide (w ∈ l)).
      * rewrite decide_True; [done|by right].
      * rewrite decide_False; [done|]. rewrite elem_of_cons. by intros [?|?].
Qed.

Lemma update_keys_total l m :
  (∀ u, u ∈ l → is_Some (m !! u)) → ∃ m', for_each body m l = Ok m'.
Proof.
  revert m. induction l as [|u l IH]; intros m Hin; [by eexists|].
  destruct (Hin u) as [cnt Hcnt]; [left|]. cbn [for_each].
  assert (body m u = Ok (<[u := g u cnt]> m)) as ->.
  { unfold body, dict_get. by rewrite Hcnt. }
  simpl. apply IH.
  intros u' Hu'. destruct (decide (u = u')) as [->|].
  - rewrite lookup_insert_eq. by eexists.
  - rewrite lookup_insert_ne by done. apply Hin. by right.
Qed.
End update_keys.

Lemma word_topics_not_elem words topics w :
  w ∉ words → word_topics words topics w = [].
Proof.
  revert topics. induction words as [|w0 words IH]; intros topics Hw.
  - apply word_topics_nil_l.
  - destruct topics as [|t topics]; [done|].
    rewrite word_topics_cons, IH by set_solver.
    rewrite decide_False; [done|]. set_solver.
Qed.

Lemma randint_Ok low high raws topics :
  randint low high raws = Ok topics → length topics = length raws.
Proof.
  unfold randint. destruct raws as [|r raws]; [by intros [= <-]|].
  destruct (decide _); [done|]. intros [= <-].
  apply (length_fmap _ (r :: raws)).
Qed.

Lemma randint_total low high raws :
  low < high → ∃ topics, randint low high raws = Ok topics.
Proof.
  intros Hlt. unfold randint. destruct raws; [by eexists|].
  rewrite decide_False by lia. by eexists.
Qed.

Lemma current_topics_singletons topics :
  current_topics ((λ topic, [topic]) <$> topics) = topics.
Proof.
  unfold current_topics. rewrite <-list_fmap_compose.
  induction topics as [|t topics IH]; [done|]. rewrite fmap_cons. simpl.
  by rewrite IH.
Qed.

Lemma assignment_insert_eq MC doc chains :
  assignment (<[doc := chains]> MC) doc = current_topics chains.
Proof. unfold assignment. by rewrite lookup_insert_eq. Qed.

Lemma assignment_insert_ne MC doc d chains :
  doc ≠ d → assignment (<[doc := chains]> MC) d = assignment MC d.
Proof. intros. unfold assignment. by rewrite lookup_insert_ne. Qed.

(** ** [_initialize_topics] establishes consistency *)

Lemma sumZ_snoc {A} (f : A → Z) l x : sumZ f (l ++ [x]) = sumZ f l + f x.
Proof. rewrite sumZ_app. unfold sumZ. simpl. lia. Qed.

Lemma NoDup_keys_app_l {A} (pre suf : list (string * A)) doc a d b :
  NoDup ((pre ++ (doc, a) :: suf).*1) → (d, b) ∈ pre → d ≠ doc.
Proof.
  rewrite fmap_app, fmap_cons. intros Hnd Hin ->.
  apply NoDup_app in Hnd as (_ & Hdis & _). apply (Hdis doc).
  - apply list_elem_of_fmap. by exists (doc, b).
  - left.
Qed.

Lemma NoDup_keys_app_r {A} (pre suf : list (string * A)) doc a d :
  NoDup ((pre ++ (doc, a) :: suf).*1) → d ∈ suf.*1 → d ≠ doc.
Proof.
  rewrite fmap_app, fmap_cons. intros Hnd Hin ->.
  apply NoDup_app in Hnd as (_ & _ & Hnd). apply NoDup_cons in Hnd as [Hd _].
  done.
Qed.

Section initialize.
Context (np_random : nat → N) (self : LatentDirichletAllocation).
Context (vocabulary : list string).

Lemma initialize_document_consistent pre doc words suf st drawn st' drawn' :
  NoDup ((pre ++ (doc, words) :: suf).*1) →
  consistent pre vocabulary st →
  (∀ d, d ∈ ((doc, words) :: suf).*1 →
     st.(document_topic_counts) !! d = Some ∅) →
  initialize_document np_random self (st, drawn) (doc, words)
  = Ok (st', drawn') →
  consistent (pre ++ [(doc, words)]) vocabulary st'
  ∧ (∀ d, d ∈ suf.*1 → st'.(document_topic_counts) !! d = Some ∅).
Proof.
  intros Hnd [Hch Hdoc Hword Hdom Htot] Hrest Hrun.
  unfold initialize_document in Hrun.
  apply bind_Ok in Hrun as (topics & Htopics & Hrun).
  apply bind_Ok in Hrun as (cnt & Hcnt & Hrun).
  apply bind_Ok in Hrun as (wtc & Hwtc & Hrun).
  injection Hrun as <- <-.
  apply randint_Ok in Htopics. rewrite length_fmap, length_seq in Htopics.
  unfold dict_get in Hcnt. rewrite (Hrest doc) in Hcnt by left.
  injection Hcnt as <-.
  pose proof (update_keys_Ok
                (λ u c, counter_update c (word_topics words topics u))
                _ _ _ (NoDup_remove_dups words) Hwtc) as Hw.
  assert (∀ d b, (d, b) ∈ pre →
            assignment (<[doc := (λ topic, [topic]) <$> topics]>
                          st.(document_word_topics_MC)) d
            = assignment st.(document_word_topics_MC) d) as Hasg.
  { intros d b Hin. apply assignment_insert_ne.
    intros ->. by eapply (NoDup_keys_app_l pre suf). }
  split; [split; simpl|simpl].
  - intros d ws [Hin|Hin%list_elem_of_singleton]%elem_of_app.
    + rewrite lookup_insert_ne; [by apply Hch|].
      intros ->. by eapply (NoDup_keys_app_l pre suf).
    + injection Hin as -> ->. rewrite lookup_insert_eq. eexists.
      split; [done|]. split; [by rewrite length_fmap|].
      apply Forall_fmap, Forall_forall. by intros.
  - intros d ws [Hin|Hin%list_elem_of_singleton]%elem_of_app.
    + rewrite lookup_insert_ne.
      2:{ intros ->. by eapply (NoDup_keys_app_l pre suf). }
      rewrite (Hasg d ws Hin). by apply (Hdoc d ws).
    + injection Hin as -> ->. rewrite lookup_insert_eq. eexists.
      split; [done|]. intros k.
      rewrite assignment_insert_eq, current_topics_singletons.
      rewrite counter_get_update, counter_get_empty. lia.
  - intros w Hin. destruct (Hword w Hin) as (c & Hc & Hk).
    exists (if decide (w ∈ remove_dups words)
            then counter_update c (word_topics words topics w) else c).
    split.
    + rewrite Hw, Hc. by destruct (decide _).
    + intros k. rewrite sumZ_snoc. simpl.
      rewrite assignment_insert_eq, current_topics_singletons.
      rewrite (sumZ_ext _ (λ item : string * list string,
                 tally (λ t, t = k)
                   (word_topics item.2
                      (assignment st.(document_word_topics_MC) item.1) w))).
      2:{ intros [d b] Hdb. simpl. by rewrite (Hasg d b Hdb). }
      rewrite <-Hk. destruct (decide _) as [|Hnin].
      * by rewrite counter_get_update.
      * rewrite word_topics_not_elem; [rewrite tally_nil; lia|].
        by rewrite elem_of_remove_dups in Hnin.
  - intros w Hsome. apply Hdom. rewrite Hw in Hsome.
    destruct (decide _); [|done]. by apply fmap_is_Some in Hsome.
  - intros k. rewrite sumZ_snoc. simpl.
    rewrite assignment_insert_eq, current_topics_singletons.
    rewrite counter_get_update, Htot. f_equal.
    apply sumZ_ext. intros [d b] Hdb. simpl. by rewrite (Hasg d b Hdb).
  - intros d Hd. rewrite lookup_insert_ne.
    + apply Hrest. by right.
    + intros ->. by eapply (NoDup_keys_app_r pre suf).
Qed.

Lemma initialize_document_total pre doc words suf st drawn :
  1 ≤ self.(K) →
  consistent pre vocabulary st →
  (∀ w, w ∈ words → w ∈ vocabulary) →
  (∀ d, d ∈ ((doc, words) :: suf).*1 →
     st.(document_topic_counts) !! d = Some ∅) →
  ∃ s', initialize_document np_random self (st, drawn) (doc, words) = Ok s'.
Proof.
  intros HK Hcons Hvoc Hrest. unfold initialize_document.
  destruct (randint_total 1 (self.(K) + 1)
              (np_random <$> seq drawn (length words))) as [topics ->]; [lia|].
  rewrite bind_Ok_l.
  assert (dict_get st.(document_topic_counts) doc = Ok ∅) as ->.
  { unfold dict_get. by rewrite (Hrest doc) by left. }
  rewrite bind_Ok_l.
  destruct (update_keys_total
              (λ u c, counter_update c (word_topics words topics u))
              (remove_dups words) st.(word_topic_counts)) as [wtc Hwtc].
  { intros u Hu. apply (proj1 (elem_of_remove_dups _ _)) in Hu.
    destruct (cs_word _ _ _ Hcons u (Hvoc u Hu)) as (c & Hc & _). by exists c. }
  rewrite Hwtc, bind_Ok_l. by eexists.
Qed.
End initialize.

Section initialize_topics.
Context (np_random : nat → N) (self : LatentDirichletAllocation).

Let st0 : tables :=
  {| document_word_topics_MC := ∅;
     document_topic_counts := empty_counters (self.(iden_to_tokens).*1);
     word_topic_counts := empty_counters self.(vocabulary);
     total_topic_counts := ∅ |}.

Let Inv (pre : list (string * list string)) (s : tables * nat) : Prop :=
  consistent pre self.(vocabulary) s.1
  ∧ ∀ suf, self.(iden_to_tokens) = pre ++ suf →
      ∀ d, d ∈ suf.*1 → s.1.(document_topic_counts) !! d = Some ∅.

Lemma initialize_topics_start : Inv [] (st0, 0%nat).
Proof.
  split; [split; simpl|simpl].
  - by intros ?? ?%elem_of_nil.
  - by intros ?? ?%elem_of_nil.
  - intros w Hw. exists ∅. rewrite empty_counters_lookup.
    by rewrite decide_True.
  - intros w Hw. rewrite empty_counters_lookup in Hw.
    destruct (decide _); [done|]. by destruct Hw.
  - done.
  - intros suf <- d Hd. rewrite empty_counters_lookup. by rewrite decide_True.
Qed.

Lemma initialize_topics_step pre x suf s s' :
  NoDup (self.(iden_to_tokens).*1) →
  self.(iden_to_tokens) = pre ++ x :: suf → Inv pre s →
  initialize_document np_random self s x = Ok s' → Inv (pre ++ [x]) s'.
Proof.
  intros Hnd Heq [Hcons Hrest] Hrun.
  destruct s as [st drawn], s' as [st' drawn'], x as [doc words].
  rewrite Heq in Hnd.
  destruct (initialize_document_consistent np_random self _
              pre doc words suf st drawn st' drawn' Hnd Hcons
              (Hrest _ Heq) Hrun) as [Hcons' Hrest'].
  split; [done|].
  intros suf' Heq'. rewrite Heq, <-app_assoc in Heq'.
  apply app_inv_head in Heq'. injection Heq' as <-. apply Hrest'.
Qed.

Lemma _initialize_topics_consistent st :
  NoDup (self.(iden_to_tokens).*1) →
  _initialize_topics np_random self = Ok st →
  consistent self.(iden_to_tokens) self.(vocabulary) st.
Proof.
  intros Hnd Hrun. unfold _initialize_topics in Hrun.
  apply bind_Ok in Hrun as (s & Hs & [= <-]).
  apply (for_each_partial _ Inv) in Hs as [Hcons _]; [done| |].
  - apply initialize_topics_start.
  - intros pre x suf s1 s2 Heq HI Hx.
    by apply (initialize_topics_step pre x suf s1 s2).
Qed.

Lemma _initialize_topics_total :
  NoDup (self.(iden_to_tokens).*1) → 1 ≤ self.(K) →
  (∀ doc words w, (doc, words) ∈ self.(iden_to_tokens) → w ∈ words →
     w ∈ self.(vocabulary)) →
  ∃ st, _initialize_topics np_random self = Ok st.
Proof.
  intros Hnd HK Hvoc. unfold _initialize_topics.
  destruct (for_each_total (initialize_document np_random self) Inv
              self.(iden_to_tokens) (st0, 0%nat)) as (s & Hs & _).
  - apply initialize_topics_start.
  - intros pre [doc words] suf [st drawn] Heq [Hcons Hrest].
    destruct (initialize_document_total np_random self self.(vocabulary)
                pre doc words suf st drawn HK Hcons) as [s' Hs'].
    + intros w Hw. apply (Hvoc doc words); [|done].
      rewrite Heq. apply elem_of_app. right. left.
    + by apply Hrest.
    + exists s'. split; [done|].
      by apply (initialize_topics_step pre (doc, words) suf (st, drawn) s').
  - fold st0. rewrite Hs. by eexists.
Qed.
End initialize_topics.

(** ** Moving one occurrence to another topic *)

Lemma current_topics_insert chains i chain n :
  current_topics (<[i := chain ++ [n]]> chains)
  = <[i := n]> (current_topics chains).
Proof.
  unfold current_topics. rewrite list_fmap_insert. by rewrite last_snoc.
Qed.

Lemma current_topics_lookup chains i chain c :
  chains !! i = Some chain → last chain = Some c →
  current_topics chains !! i = Some c.
Proof.
  intros Hi Hc. unfold current_topics. by rewrite list_lookup_fmap, Hi; simpl; rewrite Hc.
Qed.

Lemma shift_same c k : shift c c k = 0.
Proof. unfold shift. lia. Qed.

Section move.
Context (corpus : list (string * list string)) (vocabulary : list string).
Context (st st' : tables) (doc : string) (words : list string) (i : nat)
        (word : string) (chains : list (list Z)) (chain : list Z) (c n : Z).
Context (Hnd : NoDup (corpus.*1)).
Context (Hcons : consistent corpus vocabulary st).
Context (Hdoc : (doc, words) ∈ corpus) (Hword : words !! i = Some word).
Context (Hchains : st.(document_word_topics_MC) !! doc = Some chains)
        (Hchain : chains !! i = Some chain) (Hlast : last chain = Some c).
Context (HMC : st'.(document_word_topics_MC)
               = <[doc := <[i := chain ++ [n]]> chains]>
                   st.(document_word_topics_MC)).
Context (Hdtc : ∀ d cnt, st.(document_topic_counts) !! d = Some cnt →
           ∃ cnt', st'.(document_topic_counts) !! d = Some cnt'
             ∧ ∀ k, counter_get cnt' k
                    = counter_get cnt k
                      + (if decide (d = doc) then shift c n k else 0)).
Context (Hwtc : ∀ w cnt, st.(word_topic_counts) !! w = Some cnt →
           ∃ cnt', st'.(word_topic_counts) !! w = Some cnt'
             ∧ ∀ k, counter_get cnt' k
                    = counter_get cnt k
                      + (if decide (word = w) then shift c n k else 0)).
Context (Hwdom : ∀ w, is_Some (st'.(word_topic_counts) !! w) →
           is_Some (st.(word_topic_counts) !! w)).
Context (Httc : ∀ k, counter_get st'.(total_topic_counts) k
                     = counter_get st.(total_topic_counts) k + shift c n k).

Local Lemma move_assignment_doc :
  assignment st'.(document_word_topics_MC) doc
  = <[i := n]> (assignment st.(document_word_topics_MC) doc).
Proof.
  unfold assignment. rewrite HMC, lookup_insert_eq, Hchains. simpl.
  apply current_topics_insert.
Qed.

Local Lemma move_assignment_other d :
  d ≠ doc →
  assignment st'.(document_word_topics_MC) d
  = assignment st.(document_word_topics_MC) d.
Proof. intros Hne. rewrite HMC. by apply assignment_insert_ne. Qed.

Local Lemma move_assignment_lookup :
  assignment st.(document_word_topics_MC) doc !! i = Some c.
Proof.
  unfold assignment. rewrite Hchains. simpl.
  by eapply current_topics_lookup.
Qed.

Lemma consistent_move : consistent corpus vocabulary st'.
Proof.
  destruct Hcons as [Hch Hdc Hwd Hdom Htot]. split.
  - intros d ws Hin. destruct (Hch d ws Hin) as (chs & Hchs & Hlen & Hne).
    rewrite HMC. destruct (decide (d = doc)) as [->|Hd].
    + rewrite lookup_insert_eq. rewrite Hchains in Hchs. injection Hchs as <-.
      eexists. split; [done|]. split; [by rewrite length_insert|].
      apply Forall_insert; [done|]. by destruct chain.
    + rewrite lookup_insert_ne by done. by exists chs.
  - intros d ws Hin. destruct (Hdc d ws Hin) as (cnt & Hcnt & Hk).
    destruct (Hdtc d cnt Hcnt) as (cnt' & Hcnt' & Hk').
    exists cnt'. split; [done|]. intros k. rewrite Hk', Hk.
    destruct (decide (d = doc)) as [->|Hd].
    + rewrite move_assignment_doc.
      rewrite (tally_insert _ _ _ c) by apply move_assignment_lookup.
      unfold shift. lia.
    + rewrite move_assignment_other by done. lia.
  - intros w Hw. destruct (Hwd w Hw) as (cnt & Hcnt & Hk).
    destruct (Hwtc w cnt Hcnt) as (cnt' & Hcnt' & Hk').
    exists cnt'. split; [done|]. intros k. rewrite Hk', Hk.
    rewrite (sumZ_update_one
               (λ item : string * list string,
                  tally (λ t, t = k)
                    (word_topics item.2
                       (assignment st.(document_word_topics_MC) item.1) w))
               (λ item : string * list string,
                  tally (λ t, t = k)
                    (word_topics item.2
                       (assignment st'.(document_word_topics_MC) item.1) w))
               corpus doc words Hnd Hdoc).
    2:{ intros d b _ Hd. simpl. by rewrite move_assignment_other. }
    simpl. rewrite move_assignment_doc.
    rewrite (tally_word_topics_insert words _ i word c n w k Hword
               move_assignment_lookup).
    unfold shift. destruct (decide (word = w)); lia.
  - intros w Hw. by apply Hdom, Hwdom.
  - intros k. rewrite Httc, Htot.
    rewrite (sumZ_update_one
               (λ item : string * list string,
                  tally (λ t, t = k)
                    (assignment st.(document_word_topics_MC) item.1))
               (λ item : string * list string,
                  tally (λ t, t = k)
                    (assignment st'.(document_word_topics_MC) item.1))
               corpus doc words Hnd Hdoc).
    2:{ intros d b _ Hd. simpl. by rewrite move_assignment_other. }
    simpl. rewrite move_assignment_doc.
    rewrite (tally_insert _ _ _ c) by apply move_assignment_lookup.
    unfold shift. lia.
Qed.
End move.

(** ** One token step *)

Lemma dict_get_Ok {A} (d : gmap string A) k a :
  dict_get d k = Ok a ↔ d !! k = Some a.
Proof. unfold dict_get. destruct (d !! k); naive_solver. Qed.

Lemma list_get_Ok {A} (l : list A) i a : list_get l i = Ok a ↔ l !! i = Some a.
Proof. unfold list_get. destruct (l !! i); naive_solver. Qed.

Lemma list_last_Ok {A} (l : list A) a : list_last l = Ok a ↔ last l = Some a.
Proof. unfold list_last. destruct (last l); naive_solver. Qed.

Lemma current_topic_Ok st doc i c :
  current_topic st doc i = Ok c ↔
  ∃ chains chain, st.(document_word_topics_MC) !! doc = Some chains
                  ∧ chains !! i = Some chain ∧ last chain = Some c.
Proof.
  unfold current_topic. split.
  - intros (chains & Hc%dict_get_Ok & (chain & Hi%list_get_Ok & Hl%list_last_Ok)%bind_Ok)%bind_Ok.
    by exists chains, chain.
  - intros (chains & chain & Hc%dict_get_Ok & Hi%list_get_Ok & Hl%list_last_Ok).
    by rewrite Hc, bind_Ok_l, Hi, bind_Ok_l.
Qed.

Lemma append_topic_Ok st doc i n chains chain :
  st.(document_word_topics_MC) !! doc = Some chains → chains !! i = Some chain →
  append_topic st doc i n
  = Ok {| document_word_topics_MC :=
            <[doc := <[i := chain ++ [n]]> chains]>
              st.(document_word_topics_MC);
          document_topic_counts := st.(document_topic_counts);
          word_topic_counts := st.(word_topic_counts);
          total_topic_counts := st.(total_topic_counts) |}.
Proof.
  intros Hc%dict_get_Ok Hi%list_get_Ok. unfold append_topic.
  by rewrite Hc, bind_Ok_l, Hi, bind_Ok_l.
Qed.

Lemma update_counts_Ok st doc word c n cd cw :
  st.(document_topic_counts) !! doc = Some cd →
  st.(word_topic_counts) !! word = Some cw →
  update_counts st doc word c n
  = Ok {| document_word_topics_MC := st.(document_word_topics_MC);
          document_topic_counts :=
            <[doc := counter_add (counter_add cd c (-1)) n 1]>
              st.(document_topic_counts);
          word_topic_counts :=
            <[word := counter_add (counter_add cw c (-1)) n 1]>
              st.(word_topic_counts);
          total_topic_counts :=
            counter_add (counter_add st.(total_topic_counts) c (-1)) n 1 |}.
Proof.
  intros Hd Hw. unfold update_counts.
  rewrite (proj2 (dict_get_Ok _ _ _) Hd), bind_Ok_l.
  rewrite (proj2 (dict_get_Ok _ _ _) (lookup_insert_eq _ doc _)), bind_Ok_l.
  rewrite (proj2 (dict_get_Ok _ _ _) Hw), bind_Ok_l.
  rewrite (proj2 (dict_get_Ok _ _ _) (lookup_insert_eq _ word _)), bind_Ok_l.
  by rewrite !insert_insert_eq.
Qed.

Lemma update_counts_inv st doc word c n st' :
  update_counts st doc word c n = Ok st' →
  ∃ cd cw, st.(document_topic_counts) !! doc = Some cd
           ∧ st.(word_topic_counts) !! word = Some cw.
Proof.
  unfold update_counts.
  intros (cd & Hd%dict_get_Ok & H)%bind_Ok.
  apply bind_Ok in H as (? & _ & H).
  apply bind_Ok in H as (cw & Hw%dict_get_Ok & _).
  by exists cd, cw.
Qed.

(** What a completed step did. *)
Lemma resample_Ok py_random self alpha beta doc st drawn i word st' drawn' :
  resample py_random self alpha beta doc (st, drawn) (i, word)
  = Ok (st', drawn') →
  ∃ d0 c ds n chains chain,
    np_zeros1 self.(K) = Ok d0
    ∧ current_topic st doc i = Ok c
    ∧ compute_densities self alpha beta st doc word c d0 = Ok ds
    ∧ choices (topic_range self.(K)) ds (random (py_random drawn)) = Ok n
    ∧ st.(document_word_topics_MC) !! doc = Some chains
    ∧ chains !! i = Some chain ∧ last chain = Some c
    ∧ drawn' = S drawn
    ∧ let st1 :=
        {| document_word_topics_MC :=
             <[doc := <[i := chain ++ [n]]> chains]>
               st.(document_word_topics_MC);
           document_topic_counts := st.(document_topic_counts);
           word_topic_counts := st.(word_topic_counts);
           total_topic_counts := st.(total_topic_counts) |} in
      (n = c ∧ st' = st1)
      ∨ (n ≠ c ∧ update_counts st1 doc word c n = Ok st').
Proof.
  unfold resample. intros (d0 & Hd0 & H)%bind_Ok.
  apply bind_Ok in H as (c & Hc & H).
  apply bind_Ok in H as (ds & Hds & H).
  apply bind_Ok in H as (n & Hn & H).
  apply bind_Ok in H as (st1 & Hst1 & H).
  pose proof Hc as (chains & chain & Hchains & Hchain & Hlast)%current_topic_Ok.
  rewrite (append_topic_Ok _ _ _ _ _ _ Hchains Hchain) in Hst1.
  injection Hst1 as <-.
  exists d0, c, ds, n, chains, chain. split_and!; try done.
  - destruct (decide (n = c)); [by injection H|].
    apply bind_Ok in H as (? & _ & H). by injection H.
  - destruct (decide (n = c)) as [->|Hne].
    + left. by injection H as <- _.
    + right. split; [done|]. apply bind_Ok in H as (st2 & Hst2 & H).
      by injection H as <- _.
Qed.

Section preserve.
Context (py_random : nat → N) (self : LatentDirichletAllocation)
        (alpha beta : Q).
Context (corpus : list (string * list string)) (vocabulary : list string).
Context (Hnd : NoDup (corpus.*1)).

Lemma resample_consistent doc words i word st drawn st' drawn' :
  consistent corpus vocabulary st →
  (doc, words) ∈ corpus → words !! i = Some word →
  resample py_random self alpha beta doc (st, drawn) (i, word)
  = Ok (st', drawn') →
  consistent corpus vocabulary st'.
Proof.
  intros Hcons Hdoc Hword Hrun.
  apply resample_Ok in Hrun
    as (d0 & c & ds & n & chains & chain & _ & _ & _ & _ & Hchains & Hchain
        & Hlast & _ & [[-> ->]|[Hne Hupd]]).
  - apply (consistent_move corpus vocabulary st _ doc words i word chains
             chain c c); try done; simpl.
    + intros d cnt Hcnt. exists cnt. split; [done|]. intros k.
      rewrite shift_same. destruct (decide _); lia.
    + intros w cnt Hcnt. exists cnt. split; [done|]. intros k.
      rewrite shift_same. destruct (decide _); lia.
    + intros k. rewrite shift_same. lia.
  - destruct (update_counts_inv _ _ _ _ _ _ Hupd) as (cd & cw & Hcd & Hcw).
    rewrite (update_counts_Ok _ _ _ _ _ _ _ Hcd Hcw) in Hupd.
    injection Hupd as <-. simpl in Hcd, Hcw.
    apply (consistent_move corpus vocabulary st _ doc words i word chains
             chain c n); try done; simpl.
    + intros d cnt Hcnt. destruct (decide (d = doc)) as [->|Hd].
      * rewrite lookup_insert_eq. eexists. split; [done|]. intros k.
        rewrite Hcd in Hcnt. injection Hcnt as <-.
        rewrite !counter_get_add. unfold shift.
        destruct (decide (c = k)), (decide (n = k)); lia.
      * rewrite lookup_insert_ne by done. exists cnt. split; [done|].
        intros k. lia.
    + intros w cnt Hcnt. destruct (decide (word = w)) as [<-|Hw].
      * rewrite lookup_insert_eq. eexists. split; [done|]. intros k.
        rewrite Hcw in Hcnt. injection Hcnt as <-.
        rewrite !counter_get_add. unfold shift.
        destruct (decide (c = k)), (decide (n = k)); lia.
      * rewrite lookup_insert_ne by done. exists cnt. split; [done|].
        intros k. lia.
    + intros w. destruct (decide (word = w)) as [<-|Hw].
      * by rewrite Hcw.
      * by rewrite lookup_insert_ne.
    + intros k. rewrite !counter_get_add. unfold shift.
      destruct (decide (c = k)), (decide (n = k)); lia.
Qed.
End preserve.

(** ** The schedule of token steps *)

Lemma elem_of_enumerate {A} (l : list A) i x :
  (i, x) ∈ enumerate l ↔ l !! i = Some x.
Proof.
  rewrite list_elem_of_lookup. split.
  - intros [j Hj]. rewrite enumerate_lookup in Hj.
    destruct (l !! j) eqn:E; simplify_eq/=. done.
  - intros Hi. exists i. by rewrite enumerate_lookup, Hi.
Qed.

Lemma elem_of_occurrences corpus doc i word :
  (doc, (i, word)) ∈ occurrences corpus ↔
  ∃ words, (doc, words) ∈ corpus ∧ words !! i = Some word.
Proof.
  unfold occurrences. rewrite list_elem_of_bind. split.
  - intros ([d words] & Hin & Hitem). simpl in Hin.
    apply list_elem_of_fmap in Hin as ([j w] & [= -> -> ->] & Hjw).
    exists words. split; [done|]. by apply elem_of_enumerate.
  - intros (words & Hin & Hi). exists (doc, words). split; [|done].
    simpl. apply list_elem_of_fmap. exists (i, word). split; [done|].
    by apply elem_of_enumerate.
Qed.

Lemma elem_of_schedule self niter occ :
  occ ∈ schedule self niter → occ ∈ occurrences self.(iden_to_tokens).
Proof.
  unfold schedule. intros (l & Hocc & Hl)%list_elem_of_join.
  by apply elem_of_replicate in Hl as [-> _].
Qed.

Lemma for_each_fmap {A B S} (body : S → B → result S) (g : A → B) s l :
  for_each body s (g <$> l) = for_each (λ s x, body s (g x)) s l.
Proof.
  revert s. induction l as [|x l IH]; intros s; [done|].
  rewrite fmap_cons. cbn [for_each]. destruct (body s (g x)); [|done].
  rewrite !bind_Ok_l. apply IH.
Qed.

Lemma sweep_occurrences py_random self alpha beta s :
  sweep py_random self alpha beta s
  = for_each (resample_at py_random self alpha beta) s
             (occurrences self.(iden_to_tokens)).
Proof.
  unfold sweep, occurrences. revert s.
  induction self.(iden_to_tokens) as [|[doc words] corpus IH]; intros s; [done|].
  cbn [for_each mbind list_bind]. rewrite for_each_app, for_each_fmap.
  cbn [fst]. unfold resample_at at 1. cbn [fst snd].
  destruct (for_each _ s (enumerate words)); [|done].
  rewrite !bind_Ok_l. apply IH.
Qed.

Lemma gibbs_schedule py_random self alpha beta niter s :
  repeat_loop (Z.to_nat niter) (sweep py_random self alpha beta) s
  = for_each (resample_at py_random self alpha beta) s (schedule self niter).
Proof.
  unfold schedule. rewrite <-repeat_loop_for_each.
  generalize (Z.to_nat niter). intros n. revert s.
  induction n as [|n IH]; intros s; [done|].
  cbn [repeat_loop]. rewrite sweep_occurrences.
  destruct (for_each _ s _); [|done]. rewrite !bind_Ok_l. apply IH.
Qed.

(** ** The tables stay consistent along the run *)

Section run.
Context (np_random py_random : nat → N) (self : LatentDirichletAllocation)
        (alpha beta : Q).
Context (Hnd : NoDup (self.(iden_to_tokens).*1)).

Lemma run_consistent l s s' :
  (∀ occ, occ ∈ l → occ ∈ occurrences self.(iden_to_tokens)) →
  consistent self.(iden_to_tokens) self.(vocabulary) s.1 →
  for_each (resample_at py_random self alpha beta) s l = Ok s' →
  consistent self.(iden_to_tokens) self.(vocabulary) s'.1.
Proof.
  intros Hl Hs Hrun.
  apply (for_each_partial (resample_at py_random self alpha beta)
           (λ _ s, consistent self.(iden_to_tokens) self.(vocabulary) s.1)
           l s s'); [done| |done].
  intros pre [doc [i word]] suf [st drawn] [st' drawn'] -> Hcons Hstep.
  destruct (proj1 (elem_of_occurrences self.(iden_to_tokens) doc i word))
    as (words & Hin & Hi).
  { apply Hl. apply elem_of_app. right. left. }
  by apply (resample_consistent py_random self alpha beta _ _ Hnd
              doc words i word st drawn st' drawn').
Qed.

Lemma fit_prefix_consistent niter n st drawn :
  fit_prefix np_random py_random self alpha beta niter n = Ok (st, drawn) →
  consistent self.(iden_to_tokens) self.(vocabulary) st.
Proof.
  unfold fit_prefix. intros (st0 & Hst0 & Hrun)%bind_Ok.
  apply (run_consistent (take n (schedule self niter)) (st0, 0%nat)
           (st, drawn)); [| |done].
  - intros occ Hocc. apply (elem_of_schedule self niter).
    by apply (subseteq_take n).
  - by apply (_initialize_topics_consistent np_random).
Qed.
End run.

(** ** [bisect] and [choices] *)

Lemma midpoint_bounds lo hi :
  (lo < hi)%nat → (lo ≤ (lo + hi) / 2 < hi)%nat.
Proof.
  intros Hlt. pose proof (Nat.div_mod_eq (lo + hi) 2).
  pose proof (Nat.mod_upper_bound (lo + hi) 2). lia.
Qed.

Lemma bisect_loop_S fuel a x lo hi :
  bisect_loop (S fuel) a x lo hi
  = if decide (lo < hi)%nat then
      if Qle_bool (nth ((lo + hi) / 2) a 0%Q) x
      then bisect_loop fuel a x ((lo + hi) / 2 + 1)%nat hi
      else bisect_loop fuel a x lo ((lo + hi) / 2)%nat
    else lo.
Proof. done. Qed.

Lemma bisect_loop_bounds fuel a x lo hi :
  (lo ≤ hi)%nat → (lo ≤ bisect_loop fuel a x lo hi ≤ hi)%nat.
Proof.
  revert lo hi. induction fuel as [|fuel IH]; intros lo hi Hle.
  - simpl. lia.
  - rewrite bisect_loop_S.
    destruct (decide (lo < hi)%nat) as [Hlt|]; [|lia].
    pose proof (midpoint_bounds lo hi Hlt).
    destruct (Qle_bool _ _).
    + specialize (IH ((lo + hi) / 2 + 1)%nat hi). lia.
    + specialize (IH lo ((lo + hi) / 2)%nat). lia.
Qed.

(** The loop of [bisect] never runs out of fuel: more fuel than [hi - lo]
    changes nothing. *)
Lemma bisect_loop_fuel fuel a x lo hi :
  (hi - lo ≤ fuel)%nat →
  bisect_loop (S fuel) a x lo hi = bisect_loop fuel a x lo hi.
Proof.
  revert lo hi. induction fuel as [|fuel IH]; intros lo hi Hle.
  - rewrite bisect_loop_S. by rewrite decide_False by lia.
  - rewrite (bisect_loop_S (S fuel) a x lo hi), (bisect_loop_S fuel a x lo hi).
    destruct (decide (lo < hi)%nat) as [Hlt|]; [|done].
    pose proof (midpoint_bounds lo hi Hlt).
    destruct (Qle_bool _ _); apply IH; lia.
Qed.

Lemma bisect_bounds a x lo hi :
  (lo ≤ hi)%nat → (lo ≤ bisect a x lo hi ≤ hi)%nat.
Proof. apply bisect_loop_bounds. Qed.

Lemma length_accumulate_from acc l :
  length (accumulate_from acc l) = length l.
Proof. revert acc. induction l; intros acc; simpl; [done|]. by rewrite IHl. Qed.

Lemma length_accumulate l : length (accumulate l) = length l.
Proof. destruct l; simpl; [done|]. by rewrite length_accumulate_from. Qed.

Lemma last_accumulate_from_nonpos acc l :
  (acc <= 0)%Q → Forall (λ w, (w <= 0)%Q) l →
  ∃ total, last (acc :: accumulate_from acc l) = Some total ∧ (total <= 0)%Q.
Proof.
  revert acc. induction l as [|w l IH]; intros acc Hacc Hl.
  - by exists acc.
  - apply Forall_cons in Hl as [Hw Hl]. simpl.
    destruct (IH (acc + w)%Q) as (total & Ht & Hpos); [lra|done|].
    exists total. split; [|done]. rewrite <-Ht. done.
Qed.

Lemma last_accumulate_nonpos l :
  l ≠ [] → Forall (λ w, (w <= 0)%Q) l →
  ∃ total, last (accumulate l) = Some total ∧ (total <= 0)%Q.
Proof.
  destruct l as [|w l]; [done|]. intros _ [Hw Hl]%Forall_cons.
  by apply last_accumulate_from_nonpos.
Qed.

Lemma Qle_bool_true x y : (x <= y)%Q → Qle_bool x y = true.
Proof. intros Hle. by apply Qle_bool_iff. Qed.

(** A draw whose weights are all zero or negative is refused. *)
Lemma choices_nonpositive population weights u :
  population ≠ [] → length weights = length population →
  Forall (λ w, (w <= 0)%Q) weights →
  choices population weights u = Raise ValueError.
Proof.
  intros Hpop Hlen Hneg. unfold choices.
  rewrite decide_False by (rewrite length_accumulate; lia).
  destruct (last_accumulate_nonpos weights) as (total & Ht & Htot); [|done|].
  { intros ->. by destruct population. }
  rewrite (proj2 (list_last_Ok _ _) Ht), bind_Ok_l.
  by rewrite Qle_bool_true.
Qed.

(** ** The density loop *)

Lemma py_div_Ok x y : ¬ (y == 0)%Q → py_div x y = Ok (x / y)%Q.
Proof.
  intros Hy. unfold py_div. destruct (Qeq_bool y 0) eqn:E; [|done].
  by apply Qeq_bool_iff in E.
Qed.







(** ** [mode] *)

Lemma count_score_pos a x : x ∈ a → (1 ≤ count_score a x)%nat.
Proof.
  intros Hx. unfold count_score.
  assert (x ∈ filter (λ y, y = x) a) as Hf by (by apply list_elem_of_filter).
  destruct (filter _ a); [by apply elem_of_nil in Hf|simpl; lia].
Qed.

Lemma count_score_zero a x : x ∉ a → count_score a x = 0%nat.
Proof.
  intros Hx. unfold count_score.
  destruct (filter (λ y, y = x) a) as [|y l] eqn:E; [done|].
  assert (y ∈ filter (λ y, y = x) a) as [-> Hy]%list_elem_of_filter
    by (rewrite E; left).
  done.
Qed.

Lemma elem_of_np_unique a x : x ∈ np_unique a ↔ x ∈ a.
Proof.
  unfold np_unique. rewrite merge_sort_Permutation. apply elem_of_remove_dups.
Qed.

Lemma np_unique_sorted a : StronglySorted Z.le (np_unique a).
Proof. apply StronglySorted_merge_sort; apply _. Qed.

(** The scan over the sorted scores keeps the smallest score of largest
    count. *)
Lemma mode_scan a l :
  StronglySorted Z.le l → (∀ x, x ∈ l → (1 ≤ count_score a x)%nat) → l ≠ [] →
  let best := foldl (λ (old : Z * nat) score,
                       let counts := count_score a score in
                       if decide (old.2 < counts)%nat then (score, counts)
                       else old)
                    (0, 0%nat) l in
  best.1 ∈ l ∧ best.2 = count_score a best.1
  ∧ (∀ x, x ∈ l → (count_score a x ≤ best.2)%nat)
  ∧ (∀ x, x ∈ l → count_score a x = best.2 → best.1 ≤ x).
Proof.
  induction l as [|s l IH] using rev_ind; [done|].
  intros Hsorted Hpos _. rewrite foldl_app. cbn [foldl].
  apply StronglySorted_app in Hsorted as (Hle & Hl & _).
  destruct l as [|y l'] eqn:El.
  - rewrite app_nil_l in *. cbn [foldl snd].
    rewrite decide_True by (apply Hpos; left). cbn [fst snd].
    split_and!.
    + by apply list_elem_of_singleton.
    + done.
    + intros x Hx%list_elem_of_singleton. by subst.
    + intros x Hx%list_elem_of_singleton. by subst.
  - rewrite <-El in *.
    destruct IH as (Hin & Hcnt & Hmax & Hmin);
      [done|intros; apply Hpos; apply elem_of_app; by left|by subst|].
    set (best := foldl _ _ l) in *. cbn zeta.
    destruct (decide (best.2 < count_score a s)%nat) as [Hlt|Hge]; simpl.
    + split_and!; [apply elem_of_app; right; by apply list_elem_of_singleton|done|..].
      * intros x [Hx|Hx%list_elem_of_singleton]%elem_of_app; [|by subst].
        specialize (Hmax x Hx). lia.
      * intros x [Hx|Hx%list_elem_of_singleton]%elem_of_app; [|by subst].
        specialize (Hmax x Hx). lia.
    + split_and!; [apply elem_of_app; by left|done|..].
      * intros x [Hx|Hx%list_elem_of_singleton]%elem_of_app;
          [by apply Hmax|subst; lia].
      * intros x [Hx|Hx%list_elem_of_singleton]%elem_of_app; [by apply Hmin|].
        subst. intros _. apply Hle; [done|by apply list_elem_of_singleton].
Qed.

Lemma mode_lowest a :
  a ≠ [] → ∃ m cnt, mode a = ([m], [cnt]) ∧ lowest_mode a m.
Proof.
  intros Ha.
  assert (mode a
          = let best :=
              foldl (λ (old : Z * nat) score,
                       let counts := count_score a score in
                       if decide (old.2 < counts)%nat then (score, counts)
                       else old)
                    (0, 0%nat) (np_unique a) in
            ([best.1], [best.2])) as ->.
  { by destruct a. }
  destruct (mode_scan a (np_unique a)) as (Hin & Hcnt & Hmax & Hmin).
  - apply np_unique_sorted.
  - intros x Hx. apply count_score_pos. by apply elem_of_np_unique.
  - destruct a as [|x a]; [done|]. intros Hnil.
    assert (x ∈ np_unique (x :: a)) as Hx.
    { apply elem_of_np_unique. by apply list_elem_of_here. }
    rewrite Hnil in Hx. by apply elem_of_nil in Hx.
  - set (best := foldl _ _ _) in *. exists best.1, best.2.
    split; [done|]. split_and!.
    + by apply elem_of_np_unique.
    + intros x. destruct (decide (x ∈ a)) as [Hx|Hx].
      * rewrite <-Hcnt. by apply Hmax, elem_of_np_unique.
      * rewrite count_score_zero by done. lia.
    + intros x Hx. apply Hmin; [|by rewrite Hcnt].
      apply elem_of_np_unique. destruct (decide (x ∈ a)) as [|Hnx]; [done|].
      rewrite (count_score_zero a x) in Hx by done.
      pose proof (count_score_pos a best.1
                    (proj1 (elem_of_np_unique _ _) Hin)). lia.
Qed.

(** ** [_compute_MC_topic_approx] *)

Lemma mode00_Ok chain :
  chain ≠ [] → list_get (mode chain).1 0 = Ok (mode00 chain).
Proof.
  intros Hne. unfold mode00.
  by destruct (mode_lowest chain Hne) as (m & cnt & -> & _).
Qed.

Lemma mode00_lowest chain : chain ≠ [] → lowest_mode chain (mode00 chain).
Proof.
  intros Hne. unfold mode00.
  by destruct (mode_lowest chain Hne) as (m & cnt & -> & H).
Qed.

Lemma enumerate_snd {A} (l : list A) : (enumerate l).*2 = l.
Proof.
  apply list_eq. intros i. rewrite list_lookup_fmap, enumerate_lookup.
  by destruct (l !! i).
Qed.

Section approx.
Context (self : LatentDirichletAllocation)
        (MC : gmap string (list (list Z))).

Let inner (doc : string) (dwt : gmap string (list Z)) (it : nat * list Z)
    : result (gmap string (list Z)) :=
  let '(i, word) := it in
  chains ← dict_get MC doc;
  chain ← list_get chains i;
  most_frequent_topic ← list_get (mode chain).1 0;
  labels ← dict_get dwt doc;
  Ok (<[doc := labels ++ [most_frequent_topic]]> dwt).

Lemma approx_document doc words dwt labels :
  MC !! doc = Some words → Forall (λ chain, chain ≠ []) words →
  dwt !! doc = Some labels →
  for_each (inner doc) dwt (enumerate words)
  = Ok (<[doc := labels ++ (mode00 <$> words)]> dwt).
Proof.
  intros HMC Hne Hdwt.
  destruct (for_each_total (inner doc)
              (λ pre d, d = <[doc := labels ++ (mode00 <$> pre.*2)]> dwt)
              (enumerate words) dwt) as (d & Hd & ->).
  - simpl. rewrite app_nil_r. by rewrite insert_id.
  - intros pre [i chain] suf d Heq ->.
    apply enumerate_split in Heq as (-> & Hi & _).
    unfold inner. rewrite (proj2 (dict_get_Ok _ _ _) HMC), bind_Ok_l.
    rewrite (proj2 (list_get_Ok _ _ _) Hi), bind_Ok_l.
    rewrite mode00_Ok by (by eapply Forall_lookup_1 in Hne).
    rewrite bind_Ok_l.
    rewrite (proj2 (dict_get_Ok _ _ _) (lookup_insert_eq _ doc _)), bind_Ok_l.
    eexists. split; [done|]. rewrite insert_insert_eq.
    by rewrite !fmap_app, app_assoc.
  - by rewrite Hd, enumerate_snd.
Qed.

Lemma _compute_MC_topic_approx_Ok :
  (∀ doc chains, MC !! doc = Some chains →
     Forall (λ chain, chain ≠ []) chains) →
  _compute_MC_topic_approx self MC
  = Ok ((λ chains : list (list Z), mode00 <$> chains) <$> MC).
Proof.
  intros Hne. unfold _compute_MC_topic_approx.
  set (dwt0 := (λ _ : list (list Z), @nil Z) <$> MC).
  pose proof (NoDup_fst_map_to_list MC) as Hnd.
  assert (∀ doc words, (doc, words) ∈ map_to_list MC → MC !! doc = Some words)
    as Hel by (intros; by apply elem_of_map_to_list).
  assert (∀ doc, is_Some (MC !! doc) → doc ∈ (map_to_list MC).*1) as Hdom.
  { intros doc [words Hw]. apply list_elem_of_fmap. exists (doc, words).
    split; [done|]. by apply elem_of_map_to_list. }
  revert Hnd Hel Hdom. generalize (map_to_list MC). intros L Hnd Hel Hdom.
  destruct (for_each_total
              (λ dwt (item : string * list (list Z)),
                 let '(doc, words) := item in
                 for_each (inner doc) dwt (enumerate words))
              (λ pre dwt, ∀ doc,
                 dwt !! doc
                 = if decide (doc ∈ pre.*1)
                   then (λ chains : list (list Z), mode00 <$> chains) <$> MC !! doc
                   else (λ _, []) <$> MC !! doc)
              L dwt0) as (d & Hd & Hfin).
  - intros doc. rewrite decide_False by apply not_elem_of_nil.
    unfold dwt0. apply lookup_fmap.
  - intros pre [doc words] suf dwt -> Hinv.
    assert (MC !! doc = Some words) as HMC.
    { apply Hel. apply elem_of_app. right. by apply list_elem_of_here. }
    assert (doc ∉ pre.*1) as Hfresh.
    { rewrite fmap_app, fmap_cons in Hnd.
      apply NoDup_app in Hnd as (_ & Hdis & _). intros Hin.
      apply (Hdis doc Hin). by apply list_elem_of_here. }
    rewrite (approx_document doc words dwt []); [|done|by eapply Hne|].
    2:{ rewrite Hinv, decide_False by done. by rewrite HMC. }
    eexists. split; [done|]. intros d. rewrite fmap_app. simpl.
    destruct (decide (d = doc)) as [->|Hd].
    + rewrite lookup_insert_eq, decide_True, HMC; [done|].
      apply elem_of_app. right. by apply list_elem_of_singleton.
    + rewrite lookup_insert_ne by done. rewrite Hinv.
      destruct (decide (d ∈ pre.*1)) as [Hin|Hnin].
      * rewrite decide_True; [done|]. apply elem_of_app. by left.
      * rewrite decide_False; [done|].
        intros [?|?%list_elem_of_singleton]%elem_of_app; done.
  - trans (Ok (A:=gmap string (list Z)) d); [exact Hd|].
    f_equal. apply map_eq. intros doc.
    rewrite Hfin, lookup_fmap. destruct (decide _) as [|Hnin]; [done|].
    destruct (MC !! doc) eqn:E; [|done]. destruct Hnin. by apply Hdom.
Qed.
End approx.

(** ** The whole run *)

Lemma fit_prefix_full np_random py_random self alpha beta niter :
  fit_prefix np_random py_random self alpha beta niter
    (length (schedule self niter))
  = (st ← _initialize_topics np_random self;
     repeat_loop (Z.to_nat niter) (sweep py_random self alpha beta)
       (st, 0%nat)).
Proof.
  unfold fit_prefix. rewrite firstn_all.
  destruct (_initialize_topics np_random self); [|done].
  rewrite !bind_Ok_l. by rewrite gibbs_schedule.
Qed.


(** Chains never become empty: initialization creates singletons and a
    step only appends. *)
Lemma initialize_document_nonempty np_random self s item s' :
  initialize_document np_random self s item = Ok s' →
  chains_nonempty s.1.(document_word_topics_MC) →
  chains_nonempty s'.1.(document_word_topics_MC).
Proof.
  destruct s as [st drawn], item as [doc words]. unfold initialize_document.
  intros (topics & _ & H)%bind_Ok Hne.
  apply bind_Ok in H as (cnt & _ & H).
  apply bind_Ok in H as (wtc & _ & H).
  injection H as <-. simpl.
  apply map_Forall_insert_2; [|done].
  apply Forall_fmap, Forall_forall. by intros t _.
Qed.

Lemma _initialize_topics_nonempty np_random self st :
  _initialize_topics np_random self = Ok st →
  chains_nonempty st.(document_word_topics_MC).
Proof.
  unfold _initialize_topics. intros (s & Hs & [= <-])%bind_Ok.
  revert Hs.
  apply (for_each_partial (initialize_document np_random self)
           (λ _ s, chains_nonempty s.1.(document_word_topics_MC))).
  - simpl. apply map_Forall_empty.
  - intros pre x suf s0 s1 _ Hinv Hstep.
    by apply (initialize_document_nonempty np_random self s0 x).
Qed.

Lemma update_counts_MC st doc word c n st' :
  update_counts st doc word c n = Ok st' →
  st'.(document_word_topics_MC) = st.(document_word_topics_MC).
Proof.
  unfold update_counts. intros (cd & _ & H)%bind_Ok.
  apply bind_Ok in H as (? & _ & H).
  apply bind_Ok in H as (cw & _ & H).
  apply bind_Ok in H as (? & _ & H).
  by injection H as <-.
Qed.

Lemma resample_nonempty py_random self alpha beta doc s it s' :
  resample py_random self alpha beta doc s it = Ok s' →
  chains_nonempty s.1.(document_word_topics_MC) →
  chains_nonempty s'.1.(document_word_topics_MC).
Proof.
  destruct s as [st drawn], it as [i word], s' as [st' drawn'].
  intros (d0 & c & ds & n & chains & chain & _ & _ & _ & _ & Hchains & Hchain
          & _ & _ & Hst')%resample_Ok Hne. simpl in *.
  assert (st'.(document_word_topics_MC)
          = <[doc := <[i := chain ++ [n]]> chains]>
              st.(document_word_topics_MC)) as ->.
  { destruct Hst' as [[_ ->]|[_ Hup]]; [done|].
    by apply update_counts_MC in Hup. }
  apply map_Forall_insert_2; [|done].
  apply Forall_insert; [by apply (Hne doc)|]. by destruct chain.
Qed.

Lemma run_nonempty py_random self alpha beta l s s' :
  for_each (resample_at py_random self alpha beta) s l = Ok s' →
  chains_nonempty s.1.(document_word_topics_MC) →
  chains_nonempty s'.1.(document_word_topics_MC).
Proof.
  intros Hrun Hne. revert Hrun.
  apply (for_each_partial (resample_at py_random self alpha beta)
           (λ _ s, chains_nonempty s.1.(document_word_topics_MC))); [done|].
  intros pre [doc it] suf s0 s1 _ Hinv Hstep.
  by apply (resample_nonempty py_random self alpha beta doc s0 it).
Qed.

(** ** [_compute_phi_estimates] *)

Lemma mat_set_Ok m r c x nr nc :
  shape m nr nc → (r < nr)%nat → (c < nc)%nat →
  ∃ m', mat_set m r c x = Ok m' ∧ shape m' nr nc
        ∧ entry m' r c = Some x
        ∧ ∀ r' c', (r', c') ≠ (r, c) → entry m' r' c' = entry m r' c'.
Proof.
  intros [Hlen Hrows] Hr Hc.
  destruct (lookup_lt_is_Some_2 m r) as [row Hrow]; [lia|].
  assert (length row = nc) as Hrowlen
    by apply (Forall_lookup_1 _ _ _ _ Hrows Hrow).
  exists (<[r := <[c := x]> row]> m). split_and!.
  - unfold mat_set. rewrite (proj2 (list_get_Ok _ _ _) Hrow), bind_Ok_l.
    unfold vec_set. rewrite decide_True by lia. by rewrite bind_Ok_l.
  - split; [by rewrite length_insert|].
    apply Forall_insert; [done|]. by rewrite length_insert.
  - unfold entry. rewrite list_lookup_insert_eq by lia. simpl.
    apply list_lookup_insert_eq. lia.
  - intros r' c' Hne. unfold entry.
    destruct (decide (r' = r)) as [->|Hr'].
    + rewrite list_lookup_insert_eq by lia. rewrite Hrow. simpl.
      apply list_lookup_insert_ne. congruence.
    + by rewrite list_lookup_insert_ne.
Qed.

Lemma elem_of_topic_range K k : k ∈ topic_range K ↔ 1 ≤ k ≤ K.
Proof. unfold topic_range. rewrite elem_of_seqZ. lia. Qed.

Section phi.
Context (self : LatentDirichletAllocation)
        (word_topic_counts : gmap string Counter)
        (total_topic_counts : Counter).
Context (Hwords : ∀ word, word ∈ self.(vocabulary) →
           is_Some (word_topic_counts !! word)).
Context (Hden : ∀ k, 1 ≤ k ≤ self.(K) →
           ¬ (inject_Z (counter_get total_topic_counts k)
              + inject_Z self.(W) * self.(beta) == 0)%Q).

Let nr := Z.to_nat self.(K).
Let nc := length self.(vocabulary).

Let write (w : nat) (word : string) (self : LatentDirichletAllocation)
    (k : Z) : result LatentDirichletAllocation :=
  cnt ← dict_get word_topic_counts word;
  let N_wk := counter_get cnt k in
  let N_k := counter_get total_topic_counts k in
  x ← py_div (inject_Z N_wk + self.(beta))
             (inject_Z N_k + inject_Z self.(W) * self.(beta));
  phi ← mat_set self.(phi_matrix) (Z.to_nat (k - 1)) w x;
  Ok (set_phi_matrix self phi).

(** The inner loop fills column [w] and leaves the other columns. *)
Lemma phi_column w word cnt p :
  self.(vocabulary) !! w = Some word →
  word_topic_counts !! word = Some cnt →
  shape p nr nc →
  ∃ p', for_each (write w word) (set_phi_matrix self p)
          (topic_range self.(K))
        = Ok (set_phi_matrix self p')
        ∧ shape p' nr nc
        ∧ (∀ k, 1 ≤ k ≤ self.(K) →
             entry p' (Z.to_nat (k - 1)) w
             = Some (phi_estimate self cnt total_topic_counts k))
        ∧ ∀ r c, c ≠ w → entry p' r c = entry p r c.
Proof.
  intros Hw Hcnt Hshape.
  destruct (for_each_total (write w word)
    (λ pre s, ∃ p', s = set_phi_matrix self p' ∧ shape p' nr nc
       ∧ (∀ k, k ∈ pre →
            entry p' (Z.to_nat (k - 1)) w
            = Some (phi_estimate self cnt total_topic_counts k))
       ∧ ∀ r c, c ≠ w → entry p' r c = entry p r c)
    (topic_range self.(K)) (set_phi_matrix self p))
    as (s & Hs & p' & -> & Hshape' & Hcol & Hrest).
  - exists p. split_and!; [done|done| |done].
    by intros k ?%elem_of_nil.
  - intros pre k suf s Hsplit (p1 & -> & Hshape1 & Hcol1 & Hrest1).
    assert (∀ j, j ∈ pre ++ [k] → 1 ≤ j ≤ self.(K)) as Hrange.
    { intros j Hj. apply elem_of_topic_range. rewrite Hsplit.
      apply elem_of_app in Hj as [Hj|Hj%list_elem_of_singleton].
      - apply elem_of_app. by left.
      - subst. apply elem_of_app. right. apply list_elem_of_here. }
    assert (1 ≤ k ≤ self.(K)) as Hk.
    { apply Hrange, elem_of_app. right. by apply list_elem_of_singleton. }
    destruct (mat_set_Ok p1 (Z.to_nat (k - 1)) w
                (phi_estimate self cnt total_topic_counts k) nr nc)
      as (p2 & Hset & Hshape2 & Hnew & Hold); [done|subst nr; lia| |].
    { subst nc. by eapply lookup_lt_Some. }
    exists (set_phi_matrix self p2). split.
    + unfold write. rewrite (proj2 (dict_get_Ok _ _ _) Hcnt), bind_Ok_l.
      cbn [set_phi_matrix beta W phi_matrix].
      rewrite py_div_Ok by (by apply Hden). rewrite bind_Ok_l.
      unfold phi_estimate in Hset. unfold counter_get.
      by rewrite Hset, bind_Ok_l.
    + exists p2. split_and!; [done|done| |].
      * intros j Hj. destruct (decide (j = k)) as [->|Hjk]; [done|].
        pose proof (Hrange j Hj) as Hj1.
        rewrite Hold by (intros [= ?]; lia).
        apply Hcol1. apply elem_of_app in Hj as [Hj|Hj]; [done|].
        by apply list_elem_of_singleton in Hj.
      * intros r c Hc. rewrite Hold by congruence. by apply Hrest1.
  - exists p'. split_and!; [done|done| |done].
    intros k Hk. by apply Hcol, elem_of_topic_range.
Qed.

Lemma _compute_phi_estimates_Ok :
  shape self.(phi_matrix) nr nc →
  ∃ p, _compute_phi_estimates self word_topic_counts total_topic_counts
       = Ok (set_phi_matrix self p)
       ∧ shape p nr nc
       ∧ ∀ k w word cnt, 1 ≤ k ≤ self.(K) →
           self.(vocabulary) !! w = Some word →
           word_topic_counts !! word = Some cnt →
           entry p (Z.to_nat (k - 1)) w
           = Some (phi_estimate self cnt total_topic_counts k).
Proof.
  intros Hshape. unfold _compute_phi_estimates.
  destruct (for_each_total
    (λ (self : LatentDirichletAllocation) (it : nat * string),
       let '(w, word) := it in
       for_each (write w word) self (topic_range self.(K)))
    (λ pre s, ∃ p, s = set_phi_matrix self p ∧ shape p nr nc
       ∧ ∀ k w word cnt, 1 ≤ k ≤ self.(K) → (w, word) ∈ pre →
           word_topic_counts !! word = Some cnt →
           entry p (Z.to_nat (k - 1)) w
           = Some (phi_estimate self cnt total_topic_counts k))
    (enumerate self.(vocabulary)) self)
    as (s & Hs & p & -> & Hshape' & Hall).
  - exists self.(phi_matrix). split_and!; [by destruct self|done|].
    by intros k w word cnt _ ?%elem_of_nil.
  - intros pre [w word] suf s Hsplit (p1 & -> & Hshape1 & Hall1).
    pose proof Hsplit as (_ & Hw & _)%enumerate_split.
    destruct (Hwords word) as [cnt Hcnt]; [by eapply list_elem_of_lookup_2|].
    destruct (phi_column w word cnt p1 Hw Hcnt Hshape1)
      as (p2 & Hrun & Hshape2 & Hcol & Hrest).
    exists (set_phi_matrix self p2). split; [exact Hrun|].
    exists p2. split_and!; [done|done|].
    intros k w' word' cnt' Hk Hin Hcnt'.
    assert (self.(vocabulary) !! w' = Some word') as Hw'.
    { apply elem_of_enumerate. rewrite Hsplit.
      apply elem_of_app in Hin as [Hin|Hin%list_elem_of_singleton].
      - apply elem_of_app. by left.
      - rewrite Hin. apply elem_of_app. right. apply list_elem_of_here. }
    destruct (decide (w' = w)) as [->|Hne].
    + assert (word' = word) as -> by congruence.
      assert (cnt' = cnt) as -> by congruence. by apply Hcol.
    + rewrite Hrest by done.
      apply elem_of_app in Hin as [Hin|Hin%list_elem_of_singleton].
      * by apply (Hall1 k w' word' cnt').
      * congruence.
  - exists p. split_and!; [exact Hs|done|].
    intros k w word cnt Hk Hw Hcnt.
    apply (Hall k w word cnt Hk); [|done]. by apply elem_of_enumerate.
Qed.
End phi.

(** ** [get_top_n_words] *)

Lemma mapM_cons {A B} (f : A → result B) x l :
  mapM f (x :: l) = (y ← f x; k ← mapM f l; Ok (y :: k)).
Proof. done. Qed.

Lemma mapM_list_get {A} (v : list A) (idx : list nat) :
  Forall (λ i, (i < length v)%nat) idx →
  ∃ xs, mapM (list_get v) idx = Ok xs
        ∧ Forall2 (λ i x, v !! i = Some x) idx xs.
Proof.
  induction 1 as [|i idx Hi _ (xs & Hxs & Hall)].
  - exists []. by split.
  - destruct (lookup_lt_is_Some_2 v i Hi) as [x Hx].
    exists (x :: xs). split; [|by constructor].
    rewrite mapM_cons, (proj2 (list_get_Ok _ _ _) Hx), bind_Ok_l.
    by rewrite Hxs, bind_Ok_l.
Qed.

Lemma enumerate_fst {A} (l : list A) : (enumerate l).*1 = seq 0 (length l).
Proof.
  apply list_eq. intros i.
  rewrite list_lookup_fmap, enumerate_lookup.
  destruct (l !! i) as [x|] eqn:E; simpl.
  - symmetry. apply lookup_seq. split; [done|]. by eapply lookup_lt_Some.
  - symmetry. apply lookup_seq_ge. by apply lookup_ge_None.
Qed.

Lemma insert_by_value_perm x l : insert_by_value x l ≡ₚ x :: l.
Proof.
  induction l as [|y l IH]; simpl; [done|].
  destruct (Qle_bool _ _); [|done]. rewrite IH. apply Permutation_swap.
Qed.

Lemma insertion_sort_perm l acc :
  foldl (λ sorted x, insert_by_value x sorted) acc l ≡ₚ l ++ acc.
Proof.
  revert acc. induction l as [|x l IH]; intros acc; simpl; [done|].
  rewrite IH, insert_by_value_perm. by rewrite Permutation_middle.
Qed.

Lemma argsort_stable_perm row : argsort_stable row ≡ₚ seq 0 (length row).
Proof.
  unfold argsort_stable. rewrite insertion_sort_perm, app_nil_r.
  by rewrite enumerate_fst.
Qed.

Lemma length_slice_to {A} (l : list A) n :
  0 ≤ n → length (slice_to l n) = Nat.min (Z.to_nat n) (length l).
Proof. intros Hn. unfold slice_to. rewrite decide_True by done.
  apply length_take. Qed.

Lemma slice_to_subseteq {A} (l : list A) n : slice_to l n ⊆ l.
Proof. unfold slice_to. destruct (decide (0 ≤ n)); apply subseteq_take. Qed.

Lemma zip_const {A B} (l : list A) (l' : list B) (c : B) :
  length l' = length l → Forall (λ x, x = c) l' →
  zip l l' = (λ w, (w, c)) <$> l.
Proof.
  revert l'. induction l as [|a l IH]; intros [|b l'] Hlen Hall; try done.
  simpl in *. apply Forall_cons in Hall as [-> Hall].
  f_equal. apply IH; [lia|done].
Qed.

Section top_words.
Context (argsort : list Q → list nat).
Context (Hargsort : ∀ row, argsort row ≡ₚ seq 0 (length row)).
Context (self : LatentDirichletAllocation) (Hself : constructed self).
Context (n : Z) (return_probs : bool).

Let good (tw : top_words) : Prop :=
  ∃ words, tw = constant_top_words return_probs words (around4 0)
           ∧ words ⊆ self.(vocabulary)
           ∧ (0 ≤ n → length words
                      = Nat.min (Z.to_nat n) (length self.(vocabulary))).

Lemma top_words_row row :
  row = replicate (length self.(vocabulary)) 0%Q →
  ∃ words,
    mapM (list_get self.(vocabulary)) (slice_to (reverse (argsort row)) n)
    = Ok words
    ∧ mapM (list_get row) (slice_to (reverse (argsort row)) n)
      = Ok (replicate (length words) 0%Q)
    ∧ words ⊆ self.(vocabulary)
    ∧ (0 ≤ n → length words
               = Nat.min (Z.to_nat n) (length self.(vocabulary))).
Proof.
  intros Hrow. set (idx := slice_to (reverse (argsort row)) n).
  assert (length row = length self.(vocabulary)) as Hlen
    by (by rewrite Hrow, length_replicate).
  assert (Forall (λ i, (i < length self.(vocabulary))%nat) idx) as Hidx.
  { apply Forall_forall. intros i Hi.
    apply slice_to_subseteq in Hi.
    assert (i ∈ seq 0 (length row)) as Hseq.
    { rewrite <-(Hargsort row). by apply elem_of_reverse. }
    apply elem_of_seq in Hseq. lia. }
  destruct (mapM_list_get self.(vocabulary) idx Hidx) as (words & Hw & Hall).
  destruct (mapM_list_get row idx) as (probs & Hp & Hallp);
    [by rewrite Hlen|].
  exists words. split_and!; [exact Hw| | |].
  - fold idx. rewrite Hp. f_equal.
    rewrite <-(Forall2_length _ _ _ Hall), (Forall2_length _ _ _ Hallp).
    apply list_eq_same_length with (length probs);
      [by rewrite length_replicate|done|].
    intros i x y Hi Hx Hy. apply lookup_replicate in Hy as [-> _].
    destruct (Forall2_lookup_r _ _ _ _ _ Hallp Hx) as (j & _ & Hj).
    rewrite Hrow in Hj. by apply lookup_replicate in Hj as [-> _].
  - intros w Hin. apply list_elem_of_lookup in Hin as [i Hi].
    destruct (Forall2_lookup_r _ _ _ _ _ Hall Hi) as (j & _ & Hj).
    by eapply list_elem_of_lookup_2.
  - intros Hn. rewrite <-(Forall2_length _ _ _ Hall). subst idx.
    rewrite length_slice_to by done.
    rewrite length_reverse, (Hargsort row), length_seq. by rewrite Hlen.
Qed.

Lemma get_top_n_words_fresh :
  ∃ r, get_top_n_words argsort self n return_probs = Ok r
       ∧ ∀ k, if decide (1 ≤ k ≤ self.(K))
              then ∃ tw, r !! k = Some tw ∧ good tw
              else r !! k = None.
Proof.
  destruct (constructed_facts self Hself) as (_ & HK & _ & _ & _ & _ & Hphi).
  unfold get_top_n_words.
  destruct (for_each_total
    (λ (topic_top_words : gmap Z top_words) (k : nat),
       row ← list_get self.(phi_matrix) k;
       let top_n_idx := slice_to (reverse (argsort row)) n in
       top_n_words ← mapM (list_get self.(vocabulary)) top_n_idx;
       if return_probs then
         top_n_probs ← mapM (list_get row) top_n_idx;
         let top_n_probs := around4 <$> top_n_probs in
         Ok (<[Z.of_nat k + 1 := WordProbs (zip top_n_words top_n_probs)]>
               topic_top_words)
       else Ok (<[Z.of_nat k + 1 := Words top_n_words]> topic_top_words))
    (λ pre r, ∀ k, if decide (1 ≤ k ≤ Z.of_nat (length pre))
                   then ∃ tw, r !! k = Some tw ∧ good tw
                   else r !! k = None)
    (seq 0 (length self.(phi_matrix))) ∅) as (r & Hr & Hinv).
  - intros k. simpl. rewrite decide_False by lia. apply lookup_empty.
  - intros pre j suf r Hsplit Hinv.
    assert (j = length pre ∧ (j < length self.(phi_matrix))%nat) as [-> Hj].
    { assert (seq 0 (length self.(phi_matrix)) !! length pre = Some j) as Hl
        by (rewrite Hsplit; by apply list_lookup_middle).
      apply lookup_seq in Hl. lia. }
    destruct (lookup_lt_is_Some_2 _ _ Hj) as [row Hrow].
    assert (row = replicate (length self.(vocabulary)) 0%Q) as Hzero.
    { rewrite Hphi in Hrow. by apply lookup_replicate in Hrow as [-> _]. }
    destruct (top_words_row row Hzero) as (words & Hw & Hp & Hsub & Hlen).
    exists (<[Z.of_nat (length pre) + 1 :=
               constant_top_words return_probs words (around4 0)]> r).
    split.
    + rewrite (proj2 (list_get_Ok _ _ _) Hrow), bind_Ok_l.
      cbn zeta. rewrite Hw, bind_Ok_l.
      unfold constant_top_words. destruct return_probs; [|done].
      rewrite Hp, bind_Ok_l. do 3 f_equal.
      apply zip_const; [by rewrite length_fmap, length_replicate|].
      apply Forall_fmap, Forall_forall.
      by intros x [-> _]%elem_of_replicate.
    + intros k. rewrite length_app. simpl.
      destruct (decide (k = Z.of_nat (length pre) + 1)) as [->|Hne].
      * rewrite decide_True by lia. eexists. split.
        { apply lookup_insert_eq. }
        by exists words.
      * rewrite lookup_insert_ne by done. specialize (Hinv k).
        destruct (decide (1 ≤ k ≤ Z.of_nat (length pre))).
        { by rewrite decide_True by lia. }
        { by rewrite decide_False by lia. }
  - exists r. split; [done|]. intros k. specialize (Hinv k).
    rewrite length_seq, Hphi, length_replicate in Hinv.
    destruct (decide (1 ≤ k ≤ self.(K))).
    + by rewrite decide_True in Hinv by lia.
    + by rewrite decide_False in Hinv by lia.
Qed.
End top_words.

(** ** Helper lemmas for the properties *)

Lemma example_model_constructed : constructed example_model.
Proof. split; [compute_done|reflexivity]. Qed.

Lemma density_step_length self alpha beta st doc word c ds k ds' :
  density_step self alpha beta st doc word c ds k = Ok ds' →
  length ds' = length ds.
Proof.
  unfold density_step. intros (cd & _ & H)%bind_Ok.
  apply bind_Ok in H as (cw & _ & H).
  destruct (decide (c = k)); apply bind_Ok in H as (b & _ & H);
    unfold vec_set in H; destruct (decide _); try done;
    injection H as <-; by rewrite length_insert.
Qed.

Lemma compute_densities_length self alpha beta st doc word c d0 ds :
  compute_densities self alpha beta st doc word c d0 = Ok ds →
  length ds = length d0.
Proof.
  unfold compute_densities.
  apply (for_each_partial (density_step self alpha beta st doc word c)
           (λ _ ds, length ds = length d0)); [done|].
  intros pre k suf ds1 ds2 _ Hlen Hstep.
  apply density_step_length in Hstep. by rewrite Hstep.
Qed.

Lemma length_topic_range K : length (topic_range K) = Z.to_nat K.
Proof. apply length_seqZ. Qed.

Lemma resample_unfold py_random self alpha beta doc st drawn i word c ds :
  0 ≤ self.(K) →
  current_topic st doc i = Ok c →
  compute_densities self alpha beta st doc word c
    (replicate (Z.to_nat self.(K)) 0%Q) = Ok ds →
  resample py_random self alpha beta doc (st, drawn) (i, word)
  = (new_topic ← choices (topic_range self.(K)) ds
                         (random (py_random drawn));
     st1 ← append_topic st doc i new_topic;
     if decide (new_topic = c) then Ok (st1, S drawn)
     else st2 ← update_counts st1 doc word c new_topic; Ok (st2, S drawn)).
Proof.
  intros HK Hc Hds. unfold resample, np_zeros1.
  rewrite decide_False by lia. rewrite bind_Ok_l, Hc, bind_Ok_l.
  by rewrite Hds, bind_Ok_l.
Qed.

Lemma resample_nonpositive py_random self alpha beta doc st drawn i word c ds :
  1 ≤ self.(K) →
  current_topic st doc i = Ok c →
  compute_densities self alpha beta st doc word c
    (replicate (Z.to_nat self.(K)) 0%Q) = Ok ds →
  Forall (λ d, (d <= 0)%Q) ds →
  resample py_random self alpha beta doc (st, drawn) (i, word)
  = Raise ValueError.
Proof.
  intros HK Hc Hds Hneg.
  rewrite (resample_unfold _ _ _ _ _ _ _ _ _ c ds) by (done || lia).
  rewrite choices_nonpositive; [done| | |done].
  - intros Hnil. apply (f_equal length) in Hnil.
    rewrite length_topic_range in Hnil. simpl in Hnil. lia.
  - rewrite (compute_densities_length _ _ _ _ _ _ _ _ _ Hds).
    by rewrite length_replicate, length_topic_range.
Qed.

Lemma fit_abort np_random py_random self alpha beta niter n s occ e :
  fit_prefix np_random py_random self alpha beta niter n = Ok s →
  schedule self niter !! n = Some occ →
  resample_at py_random self alpha beta s occ = Raise e →
  (fit np_random py_random self alpha beta niter).2 = Raise e.
Proof.
  unfold fit_prefix, fit. cbn [snd].
  intros (st0 & -> & Hrun)%bind_Ok Hocc Hstep.
  rewrite bind_Ok_l, gibbs_schedule.
  rewrite <-(take_drop_middle _ _ _ Hocc).
  by rewrite (for_each_raise _ _ _ _ _ _ _ Hrun Hstep).
Qed.

(** ** The run in binary64 arithmetic *)









(** On the corpus d1 = a b a, d2 = b b with K = 2, alpha = beta = 0.1 and
    niter = 3 the loop completes, and the call raises [NameError]. *)
Lemma fit_f_example_raises :
  fit_f example_np example_py example_model tenth tenth 3
  = (example_model, Raise (NameError "_compute_phi_estimates")).
Proof. vm_compute. reflexivity. Qed.

(** * The properties *)

(** C1.  [fit] does not return the triple the specification describes.  On
    the corpus d1 = a b a, d2 = b b with K = 2, alpha = beta = 0.1 and
    niter = 3 the call raises [NameError] for [_compute_phi_estimates] at
    the estimation step and returns nothing; the instance is unchanged. *)
Theorem fit_example_raises :
  fit example_np example_py example_model (1 # 10) (1 # 10) 3
  = (example_model, Raise (NameError "_compute_phi_estimates")).
Proof. vm_compute. reflexivity. Qed.



(** C3.  The count invariants hold after [_initialize_topics] ([n = 0])
    and after each of the token steps of [fit] (every [n]), not only at
    the end of a sweep: each document's counts sum to its number of
    tokens, each word's counts sum to its number of occurrences in the
    corpus, the word counts of a topic sum to the topic's total, and the
    totals sum to the number of tokens of the corpus. *)
Theorem count_invariants_every_step np_random py_random self alpha beta
    niter n st drawn :
  constructed self →
  fit_prefix np_random py_random self alpha beta niter n = Ok (st, drawn) →
  count_invariants self st.
Proof.
  intros Hself Hrun. apply consistent_count_invariants.
  - apply Hself.
  - intros doc words w. by apply constructed_vocabulary.
  - apply (fit_prefix_consistent np_random py_random self alpha beta
             (proj1 Hself) niter n st drawn Hrun).
Qed.

Lemma count_invariants_every_step_example :
  fit_prefix example_np example_py example_model (1 # 10) (1 # 10) 2 3
  = Ok example_state
  ∧ count_invariants example_model example_state.1.
Proof.
  assert (fit_prefix example_np example_py example_model (1 # 10) (1 # 10)
            2 3 = Ok (example_state.1, example_state.2)) as Hrun
    by (vm_compute; reflexivity).
  split; [exact Hrun|].
  apply (count_invariants_every_step example_np example_py example_model
           (1 # 10) (1 # 10) 2 3 example_state.1 example_state.2).
  - split; [compute_done|reflexivity].
  - exact Hrun.
Defined.

(** C4.  A token step of [fit] whose draw is the current topic of the
    occurrence leaves [document_topic_counts], [word_topic_counts] and
    [total_topic_counts] as they were; it only appends the drawn topic to
    the history of the occurrence (and consumes one random number). *)
Theorem self_transition_keeps_counts py_random self alpha beta st drawn doc
    i word c ds :
  0 ≤ self.(K) →
  current_topic st doc i = Ok c →
  compute_densities self alpha beta st doc word c
    (replicate (Z.to_nat self.(K)) 0%Q) = Ok ds →
  choices (topic_range self.(K)) ds (random (py_random drawn)) = Ok c →
  ∃ chains chain,
    st.(document_word_topics_MC) !! doc = Some chains
    ∧ chains !! i = Some chain
    ∧ resample py_random self alpha beta doc (st, drawn) (i, word)
      = Ok ({| document_word_topics_MC :=
                 <[doc := <[i := chain ++ [c]]> chains]>
                   st.(document_word_topics_MC);
               document_topic_counts := st.(document_topic_counts);
               word_topic_counts := st.(word_topic_counts);
               total_topic_counts := st.(total_topic_counts) |},
            S drawn).
Proof.
  intros HK Hc Hds Hdraw.
  pose proof Hc as (chains & chain & Hchains & Hchain & _)%current_topic_Ok.
  exists chains, chain. split_and!; [done|done|].
  rewrite (resample_unfold _ _ _ _ _ _ _ _ _ c ds) by done.
  rewrite Hdraw, bind_Ok_l.
  rewrite (append_topic_Ok _ _ _ _ _ _ Hchains Hchain), bind_Ok_l.
  by rewrite decide_True.
Qed.

Lemma self_transition_keeps_counts_example :
  ∃ chains chain,
    example_tables.(document_word_topics_MC) !! "d1"%string = Some chains
    ∧ chains !! 0%nat = Some chain
    ∧ resample example_py example_model (1 # 10) (1 # 10) "d1"
        (example_tables, 0%nat) (0%nat, "a"%string)
      = Ok ({| document_word_topics_MC :=
                 <["d1"%string := <[0%nat := chain ++ [1]]> chains]>
                   example_tables.(document_word_topics_MC);
               document_topic_counts :=
                 example_tables.(document_topic_counts);
               word_topic_counts := example_tables.(word_topic_counts);
               total_topic_counts := example_tables.(total_topic_counts) |},
            1%nat).
Proof.
  apply (self_transition_keeps_counts example_py example_model (1 # 10)
           (1 # 10) example_tables 0%nat "d1" 0%nat "a" 1
           [1210 # 2200; 110 # 2200]%Q).
  - simpl. lia.
  - reflexivity.
  - vm_compute. reflexivity.
  - vm_compute. reflexivity.
Defined.

(** C5.  [_compute_MC_topic_approx] maps every document to one label per
    position, in order, and the label of a position is the mode of the
    whole chain it is given for that position (the initial draw and every
    sampled value, nothing discarded): a most frequent topic of the chain,
    and the lowest label among the most frequent ones. *)
Theorem topic_approx_lowest_mode self MC :
  chains_nonempty MC →
  ∃ r, _compute_MC_topic_approx self MC = Ok r
       ∧ (∀ doc, MC !! doc = None → r !! doc = None)
       ∧ ∀ doc chains, MC !! doc = Some chains →
           ∃ labels, r !! doc = Some labels
                     ∧ Forall2 lowest_mode chains labels.
Proof.
  intros Hne. eexists. split; [by apply _compute_MC_topic_approx_Ok|].
  split.
  - intros doc Hdoc. by rewrite lookup_fmap, Hdoc.
  - intros doc chains Hdoc. exists (mode00 <$> chains).
    split; [by rewrite lookup_fmap, Hdoc|].
    apply Forall2_fmap_r, Forall_Forall2_diag.
    eapply Forall_impl; [by apply (Hne doc)|].
    intros chain. apply mode00_lowest.
Qed.

Lemma topic_approx_lowest_mode_example :
  ∃ r, _compute_MC_topic_approx example_model
         {[ "d1"%string := [[1; 2; 2]; [2; 1]; [3; 1; 3; 1; 2]] ]} = Ok r
       ∧ (∀ doc, ({[ "d1"%string := [[1; 2; 2]; [2; 1]; [3; 1; 3; 1; 2]] ]}
                    : gmap string (list (list Z))) !! doc = None →
                 r !! doc = None)
       ∧ ∀ doc chains,
           ({[ "d1"%string := [[1; 2; 2]; [2; 1]; [3; 1; 3; 1; 2]] ]}
              : gmap string (list (list Z))) !! doc = Some chains →
           ∃ labels, r !! doc = Some labels
                     ∧ Forall2 lowest_mode chains labels.
Proof.
  apply (topic_approx_lowest_mode example_model).
  apply map_Forall_singleton. repeat constructor; discriminate.
Defined.

(** C6.  [_compute_phi_estimates] draws no random number (it has no
    generator to draw from) and changes nothing but [phi_matrix]: the
    instance after the call has the corpus, K, alpha, beta, the vocabulary,
    W and [theta_matrix] it had before.  Its [phi_matrix] has the shape it
    had and, for every topic [k] in [1, K] and every vocabulary index [w]
    of a word [word], the entry [phi_matrix[k - 1, w]] is
    [(word_topic_counts[word][k] + self.beta)
     / (total_topic_counts[k] + self.W * self.beta)],
    the counts being the stored values (0 for a topic a counter holds no
    value for). *)
Theorem phi_estimates_equation_2 self word_topic_counts total_topic_counts :
  shape self.(phi_matrix) (Z.to_nat self.(K)) (length self.(vocabulary)) →
  Forall (λ word, is_Some (word_topic_counts !! word)) self.(vocabulary) →
  Forall (λ k, ¬ (inject_Z (default 0%Z (total_topic_counts !! k))
                  + inject_Z self.(W) * self.(beta) == 0)%Q)
         (topic_range self.(K)) →
  ∃ self',
    _compute_phi_estimates self word_topic_counts total_topic_counts
    = Ok self'
    ∧ self'.(iden_to_tokens) = self.(iden_to_tokens)
    ∧ self'.(K) = self.(K)
    ∧ self'.(alpha) = self.(alpha)
    ∧ self'.(beta) = self.(beta)
    ∧ self'.(vocabulary) = self.(vocabulary)
    ∧ self'.(W) = self.(W)
    ∧ self'.(theta_matrix) = self.(theta_matrix)
    ∧ shape self'.(phi_matrix) (Z.to_nat self.(K))
        (length self.(vocabulary))
    ∧ ∀ k w word cnt, 1 ≤ k ≤ self.(K) →
        self.(vocabulary) !! w = Some word →
        word_topic_counts !! word = Some cnt →
        entry self'.(phi_matrix) (Z.to_nat (k - 1)) w
        = Some ((inject_Z (default 0%Z (cnt !! k)) + self.(beta))
                / (inject_Z (default 0%Z (total_topic_counts !! k))
                   + inject_Z self.(W) * self.(beta)))%Q.
Proof.
  intros Hshape Hwords Hden.
  destruct (_compute_phi_estimates_Ok self word_topic_counts
              total_topic_counts) as (phi & Hrun & Hshape' & Hentries);
    [| |done|].
  - intros word. apply (proj1 (Forall_forall _ _) Hwords).
  - intros k Hk. apply (proj1 (Forall_forall _ _) Hden).
    by apply elem_of_topic_range.
  - exists (set_phi_matrix self phi). by split_and!.
Qed.

Lemma phi_estimates_equation_2_example :
  ∃ self',
    _compute_phi_estimates example_model
      example_tables.(word_topic_counts) example_tables.(total_topic_counts)
    = Ok self'
    ∧ self'.(iden_to_tokens) = example_corpus
    ∧ self'.(K) = 2
    ∧ self'.(alpha) = (1 # 10)%Q
    ∧ self'.(beta) = (1 # 10)%Q
    ∧ self'.(vocabulary) = ["a"; "b"]%string
    ∧ self'.(W) = 2
    ∧ self'.(theta_matrix) = [[0; 0]; [0; 0]]%Q
    ∧ shape self'.(phi_matrix) 2 2
    ∧ ∀ k w word cnt, 1 ≤ k ≤ 2 →
        ["a"; "b"]%string !! w = Some word →
        example_tables.(word_topic_counts) !! word = Some cnt →
        entry self'.(phi_matrix) (Z.to_nat (k - 1)) w
        = Some ((inject_Z (default 0%Z (cnt !! k)) + (1 # 10))
                / (inject_Z
                     (default 0%Z
                        (example_tables.(total_topic_counts) !! k))
                   + inject_Z 2 * (1 # 10)))%Q.
Proof.
  apply (phi_estimates_equation_2 example_model
           example_tables.(word_topic_counts)
           example_tables.(total_topic_counts)).
  - split; [reflexivity|]. by repeat constructor.
  - repeat constructor; by eexists.
  - repeat constructor; vm_compute; discriminate.
Defined.

(** C7.  If at some token step of [fit] every one of the K densities
    (K >= 1) is zero or negative, the weighted draw raises [ValueError]
    and so does [fit]: the error of the step is the outcome of the run,
    nothing is retried and no other draw is substituted. *)
Theorem nonpositive_densities_abort np_random py_random self alpha beta
    niter n st drawn doc i word c ds :
  1 ≤ self.(K) →
  fit_prefix np_random py_random self alpha beta niter n = Ok (st, drawn) →
  schedule self niter !! n = Some (doc, (i, word)) →
  current_topic st doc i = Ok c →
  compute_densities self alpha beta st doc word c
    (replicate (Z.to_nat self.(K)) 0%Q) = Ok ds →
  Forall (λ d, (d <= 0)%Q) ds →
  choices (topic_range self.(K)) ds (random (py_random drawn))
  = Raise ValueError
  ∧ resample py_random self alpha beta doc (st, drawn) (i, word)
    = Raise ValueError
  ∧ (fit np_random py_random self alpha beta niter).2 = Raise ValueError.
Proof.
  intros HK Hrun Hocc Hc Hds Hneg.
  assert (resample py_random self alpha beta doc (st, drawn) (i, word)
          = Raise ValueError) as Hstep
    by (by apply (resample_nonpositive _ _ _ _ _ _ _ _ _ c ds)).
  split_and!; [|done|].
  - apply choices_nonpositive; [| |done].
    + intros Hnil. apply (f_equal length) in Hnil.
      rewrite length_topic_range in Hnil. simpl in Hnil. lia.
    + rewrite (compute_densities_length _ _ _ _ _ _ _ _ _ Hds).
      by rewrite length_replicate, length_topic_range.
  - by apply (fit_abort np_random py_random self alpha beta niter n
                (st, drawn) (doc, (i, word))).
Qed.

Lemma nonpositive_densities_abort_example :
  choices (topic_range 1) [0 # 1]%Q (random (example_py 0)) = Raise ValueError
  ∧ resample example_py single_model 0 1 "d1" (single_tables, 0%nat)
      (0%nat, "a"%string)
    = Raise ValueError
  ∧ (fit example_np example_py single_model 0 1 1).2 = Raise ValueError.
Proof.
  apply (nonpositive_densities_abort example_np example_py single_model 0 1
           1 0 single_tables 0%nat "d1" 0%nat "a" 1 [0 # 1]%Q).
  - simpl. lia.
  - vm_compute. reflexivity.
  - reflexivity.
  - reflexivity.
  - vm_compute. reflexivity.
  - repeat constructor. discriminate.
Defined.

(** C8, as stated, fails: the constructor accepts K = 0, alpha = -1 and
    beta = 0 on the corpus d1 = a b a, d2 = b b, and stores them. *)
Lemma init_accepts_invalid_hyperparameters :
  __init__ example_corpus 0 (-1) 0
  = Ok {| iden_to_tokens := example_corpus; K := 0; alpha := -1; beta := 0;
          vocabulary := ["a"; "b"]%string; W := 2;
          theta_matrix := []; phi_matrix := [] |}.
Proof. reflexivity. Qed.

(** C8, amended.  The constructor validates none of K, alpha and beta.
    - A corpus without any token fails with the error of the vocabulary
      indexer, whatever K, alpha and beta are.
    - For a corpus with tokens, K < 0 fails with the [ValueError] of
      [np.zeros].
    - K = 0 is accepted: the instance has two empty matrices.
    - alpha and beta are never inspected: they do not decide whether the
      construction succeeds or which error it raises, and they are stored
      as given, zero and negative values included.
    - Whenever the construction succeeds the corpus has a token, K is not
      negative, and the instance holds the arguments, the vocabulary, its
      size and two all-zero matrices of K rows. *)
Theorem init_validates_nothing corpus k a b :
  (mjoin (corpus.*2) = [] →
   __init__ corpus k a b = Raise InitializationError)
  ∧ (mjoin (corpus.*2) ≠ [] → k < 0 →
     __init__ corpus k a b = Raise ValueError)
  ∧ (mjoin (corpus.*2) ≠ [] → k = 0 →
     8 * Z.of_nat (length corpus) ≤ npy_intp_max →
     8 * Z.of_nat (length (remove_dups (mjoin (corpus.*2))))
     ≤ npy_intp_max →
     __init__ corpus k a b
     = Ok {| iden_to_tokens := corpus; K := 0; alpha := a; beta := b;
             vocabulary := remove_dups (mjoin (corpus.*2));
             W := Z.of_nat (length (remove_dups (mjoin (corpus.*2))));
             theta_matrix := []; phi_matrix := [] |})
  ∧ (∀ a' b',
       __init__ corpus k a' b'
       = match __init__ corpus k a b with
         | Ok self =>
           Ok {| iden_to_tokens := self.(iden_to_tokens); K := self.(K);
                 alpha := a'; beta := b';
                 vocabulary := self.(vocabulary); W := self.(W);
                 theta_matrix := self.(theta_matrix);
                 phi_matrix := self.(phi_matrix) |}
         | Raise e => Raise e
         end)
  ∧ (∀ self, __init__ corpus k a b = Ok self →
       mjoin (corpus.*2) ≠ [] ∧ 0 ≤ k
       ∧ self
         = {| iden_to_tokens := corpus; K := k; alpha := a; beta := b;
              vocabulary := remove_dups (mjoin (corpus.*2));
              W := Z.of_nat (length (remove_dups (mjoin (corpus.*2))));
              theta_matrix :=
                replicate (Z.to_nat k) (replicate (length corpus) 0%Q);
              phi_matrix :=
                replicate (Z.to_nat k)
                  (replicate (length (remove_dups (mjoin (corpus.*2))))
                     0%Q) |}).
Proof.
  split_and!.
  - intros Hnil. unfold __init__.
    by rewrite get_unique_words_empty by done.
  - intros Hne Hk. unfold __init__.
    rewrite get_unique_words_tokens by done. rewrite bind_Ok_l.
    by rewrite (np_zeros2_negative k (Z.of_nat (length corpus))) by lia.
  - intros Hne -> HD HW. unfold __init__.
    rewrite get_unique_words_tokens by done. rewrite bind_Ok_l.
    rewrite !np_zeros2_small by (unfold npy_intp_max in *; lia).
    by rewrite !bind_Ok_l.
  - intros a' b'. unfold __init__.
    destruct (get_unique_words _) as [v|]; [|done]. rewrite !bind_Ok_l.
    destruct (np_zeros2 k (Z.of_nat (length corpus))) as [th|]; [|done].
    rewrite !bind_Ok_l.
    destruct (np_zeros2 k (Z.of_nat (length v))) as [ph|]; [|done].
    by rewrite !bind_Ok_l.
  - intros self Hinit. unfold __init__ in Hinit.
    apply bind_Ok in Hinit as (v & Hv & Hinit).
    apply bind_Ok in Hinit as (th & Hth & Hinit).
    apply bind_Ok in Hinit as (ph & Hph & Hinit).
    apply get_unique_words_Ok in Hv as [Hne ->].
    apply np_zeros2_Ok in Hth as (Hk & _ & ->).
    apply np_zeros2_Ok in Hph as (_ & _ & ->).
    injection Hinit as <-. rewrite !Nat2Z.id. by split_and!.
Qed.

Lemma init_validates_nothing_example :
  __init__ [("d1", [])]%string 2 (1 # 10) (1 # 10)
  = Raise InitializationError
  ∧ __init__ example_corpus (-1) (1 # 10) (1 # 10) = Raise ValueError
  ∧ __init__ example_corpus 0 (-1) 0
    = Ok {| iden_to_tokens := example_corpus; K := 0; alpha := -1;
            beta := 0; vocabulary := ["a"; "b"]%string; W := 2;
            theta_matrix := []; phi_matrix := [] |}.
Proof.
  split_and!.
  - destruct (init_validates_nothing [("d1", [])]%string 2 (1 # 10)
                (1 # 10)) as (Hempty & _).
    apply Hempty. reflexivity.
  - destruct (init_validates_nothing example_corpus (-1) (1 # 10) (1 # 10))
      as (_ & Hnegative & _).
    apply Hnegative; [discriminate|lia].
  - destruct (init_validates_nothing example_corpus 0 (-1) 0)
      as (_ & _ & Hzero & _).
    apply Hzero; [discriminate|reflexivity| |]; vm_compute; discriminate.
Defined.

(** C9, as stated, fails: on a model that has just been constructed and
    never fitted, [get_top_n_words(1)] raises nothing and answers with a
    word for each topic. *)
Lemma top_words_before_fit :
  get_top_n_words argsort_stable example_model 1 false
  = Ok {[ 1 := Words ["b"%string]; 2 := Words ["b"%string] ]}.
Proof. vm_compute. reflexivity. Qed.

(** C9, amended.  Calling [get_top_n_words] on a model that has been
    constructed and not fitted raises no error, whatever order [argsort]
    gives equal entries: it reads the all-zero [phi_matrix] of the
    constructor and maps each topic 1..K to vocabulary words, the first
    [min(n, W)] of the ranking for [n >= 0], each paired with the
    probability 0 when probabilities are asked for. *)
Theorem top_words_before_fit_total argsort self n return_probs :
  (∀ row, argsort row ≡ₚ seq 0 (length row)) →
  constructed self →
  ∃ r, get_top_n_words argsort self n return_probs = Ok r
       ∧ (∀ k, 1 ≤ k ≤ self.(K) →
            ∃ words,
              r !! k = Some (constant_top_words return_probs words
                               (around4 0))
              ∧ words ⊆ self.(vocabulary)
              ∧ (0 ≤ n → length words
                         = Nat.min (Z.to_nat n) (length self.(vocabulary))))
       ∧ ∀ k, ¬ (1 ≤ k ≤ self.(K)) → r !! k = None.
Proof.
  intros Hargsort Hself.
  destruct (get_top_n_words_fresh argsort Hargsort self Hself n return_probs)
    as (r & Hr & Hall).
  exists r. split_and!; [done| |].
  - intros k Hk. specialize (Hall k). rewrite decide_True in Hall by done.
    destruct Hall as (tw & Htw & words & -> & Hsub & Hlen). by exists words.
  - intros k Hk. specialize (Hall k). by rewrite decide_False in Hall.
Qed.

Lemma top_words_before_fit_total_example :
  ∃ r, get_top_n_words argsort_stable example_model 1 true = Ok r
       ∧ (∀ k, 1 ≤ k ≤ 2 →
            ∃ words,
              r !! k = Some (constant_top_words true words (around4 0))
              ∧ words ⊆ ["a"; "b"]%string
              ∧ (0 ≤ 1 → length words = Nat.min (Z.to_nat 1) 2))
       ∧ ∀ k, ¬ (1 ≤ k ≤ 2) → r !! k = None.
Proof.
  apply (top_words_before_fit_total argsort_stable example_model 1 true).
  - apply argsort_stable_perm.
  - split; [compute_done|reflexivity].
Defined.




(** * Further properties of the code *)

(** ** The topics of the histories are valid *)

Lemma randint_range low high raws topics :
  randint low high raws = Ok topics →
  Forall (λ t, low ≤ t < high) topics.
Proof.
  unfold randint. destruct raws as [|r raws]; [by intros [= <-]|].
  destruct (decide _) as [|Hlt]; [done|]. intros [= <-].
  assert (∀ x : N, low ≤ low + Z.of_N x `mod` (high - low) < high) as Hx.
  { intros x. pose proof (Z.mod_pos_bound (Z.of_N x) (high - low)). lia. }
  apply Forall_cons. split; [apply Hx|].
  apply Forall_fmap, Forall_forall. intros x _. apply Hx.
Qed.

Lemma choices_elem population weights u n :
  choices population weights u = Ok n → n ∈ population.
Proof.
  unfold choices. destruct (decide _); [done|].
  intros (total & _ & H)%bind_Ok.
  destruct (Qle_bool total 0); [done|].
  apply list_get_Ok in H. by eapply list_elem_of_lookup_2.
Qed.

Lemma initialize_document_in_range np_random self s item s' :
  initialize_document np_random self s item = Ok s' →
  topics_in_range self.(K) s.1.(document_word_topics_MC) →
  topics_in_range self.(K) s'.1.(document_word_topics_MC).
Proof.
  destruct s as [st drawn], item as [doc words]. unfold initialize_document.
  intros (topics & Htopics%randint_range & H)%bind_Ok Hin.
  apply bind_Ok in H as (cnt & _ & H).
  apply bind_Ok in H as (wtc & _ & H).
  injection H as <-. simpl.
  apply map_Forall_insert_2; [|done].
  apply Forall_fmap. eapply Forall_impl; [exact Htopics|].
  intros t Ht. simpl in *. apply Forall_singleton. lia.
Qed.

Lemma _initialize_topics_in_range np_random self st :
  _initialize_topics np_random self = Ok st →
  topics_in_range self.(K) st.(document_word_topics_MC).
Proof.
  unfold _initialize_topics. intros (s & Hs & [= <-])%bind_Ok.
  revert Hs.
  apply (for_each_partial (initialize_document np_random self)
           (λ _ s, topics_in_range self.(K) s.1.(document_word_topics_MC))).
  - simpl. apply map_Forall_empty.
  - intros pre x suf s0 s1 _ Hinv Hstep.
    by apply (initialize_document_in_range np_random self s0 x).
Qed.

Lemma resample_MC py_random self alpha beta doc st drawn i word st' drawn' :
  resample py_random self alpha beta doc (st, drawn) (i, word)
  = Ok (st', drawn') →
  ∃ n chains chain,
    1 ≤ n ≤ self.(K)
    ∧ st.(document_word_topics_MC) !! doc = Some chains
    ∧ chains !! i = Some chain
    ∧ st'.(document_word_topics_MC)
      = <[doc := <[i := chain ++ [n]]> chains]> st.(document_word_topics_MC)
    ∧ drawn' = S drawn.
Proof.
  intros (d0 & c & ds & n & chains & chain & _ & _ & _ & Hn & Hchains & Hchain
          & _ & Hdrawn & Hst')%resample_Ok.
  exists n, chains, chain.
  apply choices_elem, elem_of_topic_range in Hn.
  split; [done|]. split_and!; [done|done| |done].
  simpl in Hst'. destruct Hst' as [[_ ->]|[_ Hup]]; [done|].
  apply update_counts_MC in Hup. by rewrite Hup.
Qed.

Lemma resample_in_range py_random self alpha beta doc s it s' :
  resample py_random self alpha beta doc s it = Ok s' →
  topics_in_range self.(K) s.1.(document_word_topics_MC) →
  topics_in_range self.(K) s'.1.(document_word_topics_MC).
Proof.
  destruct s as [st drawn], it as [i word], s' as [st' drawn'].
  intros (n & chains & chain & Hn & Hchains & Hchain & Heq & _)%resample_MC
         Hin.
  simpl in *. rewrite Heq. apply map_Forall_insert_2; [|done].
  pose proof (Hin doc chains Hchains) as Hdoc. simpl in Hdoc.
  apply Forall_insert; [done|].
  apply Forall_app. split; [by eapply Forall_lookup_1 in Hdoc|].
  by apply Forall_singleton.
Qed.

Lemma fit_prefix_in_range np_random py_random self alpha beta niter n s :
  fit_prefix np_random py_random self alpha beta niter n = Ok s →
  topics_in_range self.(K) s.1.(document_word_topics_MC).
Proof.
  unfold fit_prefix. intros (st0 & Hst0 & Hrun)%bind_Ok. revert Hrun.
  apply (for_each_partial (resample_at py_random self alpha beta)
           (λ _ s, topics_in_range self.(K) s.1.(document_word_topics_MC))).
  - by apply (_initialize_topics_in_range np_random).
  - intros pre [doc it] suf s0 s1 _ Hinv Hstep.
    by apply (resample_in_range py_random self alpha beta doc s0 it).
Qed.

(** ** Histories only grow, by one entry per visit *)

Lemma extends_refl MC : extends MC MC.
Proof.
  intros doc chains Hdoc. exists chains. split; [done|].
  apply Forall_Forall2_diag, Forall_forall. by intros chain _.
Qed.

Lemma extends_trans MC1 MC2 MC3 :
  extends MC1 MC2 → extends MC2 MC3 → extends MC1 MC3.
Proof.
  intros H12 H23 doc chains Hdoc.
  destruct (H12 doc chains Hdoc) as (chains2 & Hdoc2 & Hpre2).
  destruct (H23 doc chains2 Hdoc2) as (chains3 & Hdoc3 & Hpre3).
  exists chains3. split; [done|].
  by etrans.
Qed.

Lemma resample_extends py_random self alpha beta doc s it s' :
  resample py_random self alpha beta doc s it = Ok s' →
  extends s.1.(document_word_topics_MC) s'.1.(document_word_topics_MC).
Proof.
  destruct s as [st drawn], it as [i word], s' as [st' drawn'].
  intros (n & chains & chain & _ & Hchains & Hchain & Heq & _)%resample_MC.
  simpl. rewrite Heq. intros d chs Hd.
  destruct (decide (d = doc)) as [->|Hne].
  - rewrite lookup_insert_eq. eexists. split; [done|].
    assert (chs = chains) as -> by congruence.
    apply Forall2_same_length_lookup. split; [by rewrite length_insert|].
    intros j x y Hx Hy. destruct (decide (j = i)) as [->|Hj].
    + rewrite list_lookup_insert_eq in Hy by (by eapply lookup_lt_Some).
      assert (x = chain) as -> by congruence. injection Hy as <-.
      by apply prefix_app_r.
    + rewrite list_lookup_insert_ne in Hy by done. by simplify_eq.
  - rewrite lookup_insert_ne by done. exists chs. split; [done|].
    apply Forall_Forall2_diag, Forall_forall. by intros chain' _.
Qed.

Lemma run_extends py_random self alpha beta l s s' :
  for_each (resample_at py_random self alpha beta) s l = Ok s' →
  extends s.1.(document_word_topics_MC) s'.1.(document_word_topics_MC).
Proof.
  apply (for_each_partial (resample_at py_random self alpha beta)
           (λ _ s1, extends s.1.(document_word_topics_MC)
                            s1.1.(document_word_topics_MC))).
  - apply extends_refl.
  - intros pre [doc it] suf s0 s1 _ Hinv Hstep.
    eapply extends_trans; [exact Hinv|].
    by apply (resample_extends py_random self alpha beta doc s0 it).
Qed.

Lemma initialize_document_singletons np_random self s item s' :
  initialize_document np_random self s item = Ok s' →
  map_Forall (λ _ chains, Forall (λ chain : list Z, length chain = 1%nat)
                                 chains)
             s.1.(document_word_topics_MC) →
  map_Forall (λ _ chains, Forall (λ chain : list Z, length chain = 1%nat)
                                 chains)
             s'.1.(document_word_topics_MC).
Proof.
  destruct s as [st drawn], item as [doc words]. unfold initialize_document.
  intros (topics & _ & H)%bind_Ok Hin.
  apply bind_Ok in H as (cnt & _ & H).
  apply bind_Ok in H as (wtc & _ & H).
  injection H as <-. simpl.
  apply map_Forall_insert_2; [|done].
  apply Forall_fmap, Forall_forall. by intros t _.
Qed.

Lemma _initialize_topics_singletons np_random self st :
  _initialize_topics np_random self = Ok st →
  map_Forall (λ _ chains, Forall (λ chain : list Z, length chain = 1%nat)
                                 chains)
             st.(document_word_topics_MC).
Proof.
  unfold _initialize_topics. intros (s & Hs & [= <-])%bind_Ok.
  revert Hs.
  apply (for_each_partial (initialize_document np_random self)
           (λ _ s, map_Forall
                     (λ _ chains,
                        Forall (λ chain : list Z, length chain = 1%nat) chains)
                     s.1.(document_word_topics_MC))).
  - simpl. apply map_Forall_empty.
  - intros pre x suf s0 s1 _ Hinv Hstep.
    by apply (initialize_document_singletons np_random self s0 x).
Qed.

Lemma visits_snoc doc i l d j w :
  visits doc i (l ++ [(d, (j, w))])
  = visits doc i l + (if decide (d = doc ∧ j = i) then 1 else 0).
Proof.
  unfold visits. rewrite tally_app, tally_cons, tally_nil. simpl.
  destruct (decide (d = doc ∧ j = i)); lia.
Qed.

(** The length of a history counts the visits. *)
Lemma run_lengths py_random self alpha beta l s s' :
  for_each (resample_at py_random self alpha beta) s l = Ok s' →
  map_Forall (λ _ chains, Forall (λ chain : list Z, length chain = 1%nat)
                                 chains)
             s.1.(document_word_topics_MC) →
  ∀ doc chains i chain,
    s'.1.(document_word_topics_MC) !! doc = Some chains →
    chains !! i = Some chain →
    Z.of_nat (length chain) = 1 + visits doc i l.
Proof.
  intros Hrun Hone. revert Hrun.
  apply (for_each_partial (resample_at py_random self alpha beta)
           (λ pre s1, ∀ doc chains i chain,
              s1.1.(document_word_topics_MC) !! doc = Some chains →
              chains !! i = Some chain →
              Z.of_nat (length chain) = 1 + visits doc i pre)).
  - intros doc chains i chain Hdoc Hi.
    pose proof (Hone doc chains Hdoc) as Hall. simpl in Hall.
    apply (Forall_lookup_1 _ _ _ _ Hall) in Hi. rewrite Hi. done.
  - intros pre [d [j w]] suf [st drawn] [st' drawn'] _ Hinv Hstep.
    unfold resample_at in Hstep. simpl in Hstep.
    apply resample_MC in Hstep
      as (n & chains0 & chain0 & _ & Hchains0 & Hchain0 & Heq & _).
    simpl in *. intros doc chains i chain Hdoc Hi.
    rewrite visits_snoc. rewrite Heq in Hdoc.
    destruct (decide (d = doc)) as [->|Hne].
    + rewrite lookup_insert_eq in Hdoc. injection Hdoc as <-.
      destruct (decide (j = i)) as [->|Hj].
      * rewrite list_lookup_insert_eq in Hi by (by eapply lookup_lt_Some).
        injection Hi as <-. rewrite decide_True by done.
        rewrite length_app. simpl.
        pose proof (Hinv doc chains0 i chain0 Hchains0 Hchain0). lia.
      * rewrite list_lookup_insert_ne in Hi by done.
        rewrite decide_False by (by intros [_ ?]).
        pose proof (Hinv doc chains0 i chain Hchains0 Hi). lia.
    + rewrite lookup_insert_ne in Hdoc by done.
      rewrite decide_False by (by intros [? _]).
      pose proof (Hinv doc chains i chain Hdoc Hi). lia.
Qed.

Lemma enumerate_snoc {A} (l : list A) x :
  enumerate (l ++ [x]) = enumerate l ++ [(length l, x)].
Proof.
  unfold enumerate. rewrite imap_app. simpl. by rewrite Nat.add_0_r.
Qed.

Lemma visits_document doc i d (words : list string) :
  visits doc i ((λ it, (d, it)) <$> enumerate words)
  = if decide (d = doc ∧ (i < length words)%nat) then 1 else 0.
Proof.
  induction words as [|w words IH] using rev_ind.
  - simpl. rewrite decide_False; [done|]. simpl. lia.
  - rewrite enumerate_snoc, fmap_app. simpl. rewrite visits_snoc, IH.
    rewrite length_app. simpl.
    destruct (decide (d = doc)) as [->|Hne].
    + destruct (decide (i < length words)%nat).
      * rewrite decide_True by done. rewrite decide_False by lia.
        rewrite decide_True; [done|]. split; [done|lia].
      * rewrite (decide_False (P := doc = doc ∧ (i < length words)%nat))
          by (intros [_ ?]; lia).
        destruct (decide (length words = i)).
        -- rewrite decide_True by done. rewrite decide_True; [done|].
           split; [done|lia].
        -- rewrite decide_False by (intros [_ ?]; lia).
           rewrite decide_False; [done|]. intros [_ ?]; lia.
    + rewrite !decide_False; [done| | |]; by intros [? _].
Qed.

Lemma occurrences_cons d words corpus :
  occurrences ((d, words) :: corpus)
  = ((λ it, (d, it)) <$> enumerate words) ++ occurrences corpus.
Proof. done. Qed.

Lemma visits_absent corpus doc i :
  doc ∉ corpus.*1 → visits doc i (occurrences corpus) = 0.
Proof.
  induction corpus as [|[d words] corpus IH]; intros Hnin; [done|].
  rewrite occurrences_cons. unfold visits in *. rewrite tally_app.
  fold (visits doc i ((λ it, (d, it)) <$> enumerate words)).
  rewrite visits_document, IH.
  - rewrite decide_False; [done|]. intros [-> _]. apply Hnin. simpl. left.
  - intros Hin. apply Hnin. simpl. by right.
Qed.

Lemma visits_occurrences corpus doc words i :
  NoDup (corpus.*1) → (doc, words) ∈ corpus → (i < length words)%nat →
  visits doc i (occurrences corpus) = 1.
Proof.
  induction corpus as [|[d ws] corpus IH]; intros Hnd Hin Hi.
  { by apply elem_of_nil in Hin. }
  simpl in Hnd. apply NoDup_cons in Hnd as [Hd Hnd].
  rewrite occurrences_cons. unfold visits. rewrite tally_app.
  fold (visits doc i ((λ it, (d, it)) <$> enumerate ws)).
  fold (visits doc i (occurrences corpus)).
  rewrite visits_document.
  apply elem_of_cons in Hin as [[= <- <-]|Hin].
  - rewrite decide_True by done. by rewrite visits_absent.
  - rewrite decide_False.
    + by rewrite IH.
    + intros [-> _]. apply Hd. apply list_elem_of_fmap.
      by exists (doc, words).
Qed.

Lemma visits_schedule self niter doc i :
  visits doc i (schedule self niter)
  = Z.of_nat (Z.to_nat niter) * visits doc i (occurrences self.(iden_to_tokens)).
Proof.
  unfold schedule. induction (Z.to_nat niter) as [|n IH]; [done|].
  simpl. unfold visits in *. rewrite tally_app, IH. lia.
Qed.

Lemma length_occurrences corpus :
  Z.of_nat (length (occurrences corpus)) = token_count corpus.
Proof.
  unfold token_count. induction corpus as [|[d words] corpus IH]; [done|].
  rewrite occurrences_cons, length_app, length_fmap, length_enumerate.
  cbn [sumZ foldr]. fold (sumZ (λ item : string * list string,
                                   Z.of_nat (length item.2)) corpus).
  simpl. lia.
Qed.

Lemma length_schedule self niter :
  Z.of_nat (length (schedule self niter))
  = Z.of_nat (Z.to_nat niter) * token_count self.(iden_to_tokens).
Proof.
  unfold schedule. rewrite <-length_occurrences.
  induction (Z.to_nat niter) as [|n IH]; [done|].
  simpl. rewrite length_app. lia.
Qed.

Lemma run_drawn py_random self alpha beta l s s' :
  for_each (resample_at py_random self alpha beta) s l = Ok s' →
  s'.2 = (s.2 + length l)%nat.
Proof.
  apply (for_each_partial (resample_at py_random self alpha beta)
           (λ pre s1, s1.2 = (s.2 + length pre)%nat)).
  - simpl. lia.
  - intros pre [d [j w]] suf [st drawn] [st' drawn'] _ Hinv Hstep.
    unfold resample_at in Hstep. simpl in Hstep.
    apply resample_MC in Hstep as (_ & _ & _ & _ & _ & _ & _ & ->).
    rewrite length_app. simpl in *. lia.
Qed.

(** ** Bounds on the counts *)

Lemma sumZ_mono {A} (f g : A → Z) l :
  (∀ x, x ∈ l → f x ≤ g x) → sumZ f l ≤ sumZ g l.
Proof.
  unfold sumZ. induction l as [|x l IH]; intros H; simpl; [done|].
  specialize (H x (list_elem_of_here _ _)) as Hx.
  assert (foldr (λ x acc, f x + acc) 0 l ≤ foldr (λ x acc, g x + acc) 0 l);
    [|lia].
  apply IH. intros y Hy. apply H. by right.
Qed.

Lemma length_assignment corpus vocabulary st doc words :
  consistent corpus vocabulary st → (doc, words) ∈ corpus →
  length (assignment st.(document_word_topics_MC) doc) = length words.
Proof.
  intros Hcons Hdoc.
  destruct (cs_chains _ _ _ Hcons doc words Hdoc) as (chains & Hch & Hlen & _).
  unfold assignment. rewrite Hch. simpl. by rewrite length_current_topics.
Qed.

Lemma consistent_bounds corpus vocabulary st :
  consistent corpus vocabulary st →
  (∀ doc words, (doc, words) ∈ corpus →
     ∃ cnt, st.(document_topic_counts) !! doc = Some cnt
            ∧ ∀ k, 0 ≤ counter_get cnt k ≤ Z.of_nat (length words))
  ∧ (∀ word cnt k, st.(word_topic_counts) !! word = Some cnt →
       0 ≤ counter_get cnt k ≤ counter_get st.(total_topic_counts) k)
  ∧ (∀ k, 0 ≤ counter_get st.(total_topic_counts) k ≤ token_count corpus).
Proof.
  intros Hcons. split_and!.
  - intros doc words Hdoc.
    destruct (cs_document _ _ _ Hcons doc words Hdoc) as (cnt & Hcnt & Hk).
    exists cnt. split; [done|]. intros k. rewrite Hk.
    rewrite <-(length_assignment corpus vocabulary st doc words) by done.
    split; [apply tally_nonneg|apply tally_le_length].
  - intros word cnt k Hcnt.
    assert (word ∈ vocabulary) as Hvoc
      by (by apply (cs_word_dom _ _ _ Hcons)).
    destruct (cs_word _ _ _ Hcons word Hvoc) as (cnt' & Hcnt' & Hk).
    assert (cnt' = cnt) as -> by congruence.
    rewrite Hk, (cs_total _ _ _ Hcons). split.
    + apply sumZ_nonneg. intros; apply tally_nonneg.
    + apply sumZ_mono. intros [d ws] Hin. simpl.
      unfold tally. apply inj_le.
      destruct (cs_chains _ _ _ Hcons d ws Hin) as (chains & Hch & Hlen & _).
      clear Hk. unfold word_topics.
      set (topics := assignment st.(document_word_topics_MC) d).
      set (P := λ t : Z, t = k).
      assert (∀ (ts : list (nat * Z)),
                (length (filter P (omap (λ it : nat * Z,
                     if decide (ws !! it.1 = Some word) then Some it.2
                     else None) ts))
                 ≤ length (filter P (ts.*2)))%nat) as Hgen.
      { induction ts as [|[j t] ts IH]; [done|].
        rewrite fmap_cons. cbn [omap list_omap]. simpl.
        rewrite (filter_cons P t). destruct (decide (ws !! j = Some word)).
        - rewrite filter_cons. destruct (decide (P t)); simpl; lia.
        - destruct (decide (P t)); simpl; lia. }
      specialize (Hgen (enumerate topics)). by rewrite enumerate_snd in Hgen.
  - intros k. rewrite (cs_total _ _ _ Hcons). split.
    + apply sumZ_nonneg. intros; apply tally_nonneg.
    + unfold token_count. apply sumZ_mono. intros [d ws] Hin. simpl.
      rewrite <-(length_assignment corpus vocabulary st d ws) by done.
      apply tally_le_length.
Qed.

(** ** A model with no topic *)

Lemma first_document_with_tokens (corpus : list (string * list string)) :
  mjoin (corpus.*2) ≠ [] →
  ∃ pre doc words suf,
    corpus = pre ++ (doc, words) :: suf
    ∧ Forall (λ item, item.2 = []) pre ∧ words ≠ [].
Proof.
  induction corpus as [|[d ws] corpus IH]; intros Hne; [done|].
  destruct ws as [|w ws].
  - destruct IH as (pre & doc & words & suf & -> & Hpre & Hwords); [done|].
    exists ((d, []) :: pre), doc, words, suf.
    split_and!; [done|by constructor|done].
  - exists [], d, (w :: ws), corpus. by split_and!.
Qed.

Lemma initialize_document_empty np_random self st drawn doc :
  is_Some (st.(document_topic_counts) !! doc) →
  ∃ st', initialize_document np_random self (st, drawn) (doc, []) = Ok (st', drawn)
         ∧ ∀ d, is_Some (st.(document_topic_counts) !! d) →
                is_Some (st'.(document_topic_counts) !! d).
Proof.
  intros [cnt Hcnt]. unfold initialize_document. simpl.
  rewrite (proj2 (dict_get_Ok _ _ _) Hcnt). simpl.
  rewrite Nat.add_0_r. eexists. split; [done|]. simpl.
  intros d Hd. destruct (decide (d = doc)) as [->|Hne].
  - rewrite lookup_insert_eq. by eexists.
  - by rewrite lookup_insert_ne.
Qed.

Lemma initialize_document_no_topic np_random self st drawn doc words :
  self.(K) ≤ 0 → words ≠ [] →
  initialize_document np_random self (st, drawn) (doc, words)
  = Raise ValueError.
Proof.
  intros HK Hwords. unfold initialize_document, randint.
  destruct words as [|w words]; [done|]. simpl.
  by rewrite decide_True by lia.
Qed.

Lemma _initialize_topics_no_topic np_random self :
  mjoin (self.(iden_to_tokens).*2) ≠ [] → self.(K) ≤ 0 →
  _initialize_topics np_random self = Raise ValueError.
Proof.
  intros Htok HK. unfold _initialize_topics.
  destruct (first_document_with_tokens _ Htok)
    as (pre & doc & words & suf & Hsplit & Hpre & Hwords).
  rewrite Hsplit.
  set (st0 := {| document_word_topics_MC := ∅;
                 document_topic_counts :=
                   empty_counters ((pre ++ (doc, words) :: suf).*1);
                 word_topic_counts := empty_counters self.(vocabulary);
                 total_topic_counts := ∅ |}).
  destruct (for_each_total (initialize_document np_random self)
              (λ _ s, ∀ d, d ∈ (pre ++ (doc, words) :: suf).*1 →
                           is_Some (s.1.(document_topic_counts) !! d))
              pre (st0, 0%nat)) as (s1 & Hs1 & _).
  - intros d Hd. simpl. rewrite empty_counters_lookup.
    rewrite decide_True by done. by eexists.
  - intros pre1 [d ws] suf1 [st drawn] Hpre1 Hinv.
    assert (ws = []) as ->.
    { apply (proj1 (Forall_forall _ _) Hpre (d, ws)). rewrite Hpre1.
      apply elem_of_app. right. apply list_elem_of_here. }
    destruct (initialize_document_empty np_random self st drawn d)
      as (st' & Hst' & Hkeep).
    { apply Hinv. rewrite Hpre1, !fmap_app, fmap_cons.
      apply elem_of_app. left. apply elem_of_app. right.
      apply list_elem_of_here. }
    exists (st', drawn). split; [done|]. intros d' Hd'. by apply Hkeep, Hinv.
  - destruct s1 as [st1 drawn1].
    rewrite (for_each_raise _ _ _ _ _ _ ValueError Hs1); [done|].
    by apply initialize_document_no_topic.
Qed.

(** ** The matrix of [_compute_phi_estimates] *)

Lemma matrix_eq (p q : matrix) nr nc :
  shape p nr nc → shape q nr nc →
  (∀ r c, (r < nr)%nat → (c < nc)%nat → entry p r c = entry q r c) →
  p = q.
Proof.
  intros [Hp Hprows] [Hq Hqrows] Hentries.
  apply list_eq_same_length with nr; [done|done|].
  intros r row row' Hr Hrow Hrow'.
  apply list_eq_same_length with nc.
  - by apply (Forall_lookup_1 _ _ _ _ Hqrows Hrow').
  - by apply (Forall_lookup_1 _ _ _ _ Hprows Hrow).
  - intros c x y Hc Hx Hy. specialize (Hentries r c Hr Hc).
    unfold entry in Hentries. rewrite Hrow, Hrow' in Hentries. simpl in *.
    congruence.
Qed.

Lemma shape_phi_estimates self wtc ttc :
  0 ≤ self.(K) →
  shape (phi_estimates self wtc ttc) (Z.to_nat self.(K))
        (length self.(vocabulary)).
Proof.
  intros HK. unfold phi_estimates. split.
  - by rewrite length_fmap, length_topic_range.
  - apply Forall_fmap, Forall_forall. intros k _. simpl.
    by rewrite length_fmap.
Qed.

Lemma entry_phi_estimates self wtc ttc k w word :
  1 ≤ k ≤ self.(K) → self.(vocabulary) !! w = Some word →
  entry (phi_estimates self wtc ttc) (Z.to_nat (k - 1)) w
  = Some (phi_estimate self (default ∅ (wtc !! word)) ttc k).
Proof.
  intros Hk Hw. unfold entry, phi_estimates, topic_range.
  rewrite list_lookup_fmap, lookup_seqZ_lt by lia. simpl.
  rewrite list_lookup_fmap, Hw. simpl. do 3 f_equal. lia.
Qed.

(** The matrix written does not depend on what [phi_matrix] held. *)
Lemma _compute_phi_estimates_closed self wtc ttc :
  shape self.(phi_matrix) (Z.to_nat self.(K)) (length self.(vocabulary)) →
  (∀ word, word ∈ self.(vocabulary) → is_Some (wtc !! word)) →
  (∀ k, 1 ≤ k ≤ self.(K) →
     ¬ (inject_Z (counter_get ttc k) + inject_Z self.(W) * self.(beta)
        == 0)%Q) →
  _compute_phi_estimates self wtc ttc
  = Ok (set_phi_matrix self (phi_estimates self wtc ttc)).
Proof.
  intros Hshape Hwords Hden.
  destruct (_compute_phi_estimates_Ok self wtc ttc Hwords Hden Hshape)
    as (p & -> & Hshape' & Hentries).
  do 2 f_equal.
  destruct (decide (0 ≤ self.(K))) as [HK|HK].
  - apply (matrix_eq _ _ _ _ Hshape' (shape_phi_estimates self wtc ttc HK)).
    intros r c Hr Hc.
    destruct (lookup_lt_is_Some_2 self.(vocabulary) c Hc) as [word Hword].
    destruct (Hwords word) as [cnt Hcnt]; [by eapply list_elem_of_lookup_2|].
    assert (r = Z.to_nat (Z.of_nat r + 1 - 1)) as -> by lia.
    rewrite (Hentries _ c word cnt) by (done || lia).
    rewrite (entry_phi_estimates _ _ _ _ c word) by (done || lia).
    by rewrite Hcnt.
  - destruct Hshape' as [Hlen _]. unfold phi_estimates, topic_range.
    rewrite seqZ_nil by lia. destruct p; [done|]. simpl in Hlen. lia.
Qed.

(** ** Rows of the matrix on the tables of a run *)



Lemma Qsum_positive (row : list Q) :
  Forall (λ x, (0 < x)%Q) row → (0 <= Qsum row)%Q.
Proof.
  unfold Qsum. induction 1 as [|x row Hx _ IH]; simpl; [done|]. lra.
Qed.

(** ** Division by zero in [_compute_phi_estimates] *)

(** A loop in which every step either keeps the invariant or raises [e],
    and some element makes the step raise [e], raises [e]. *)
Lemma for_each_must_raise {A S} (body : S → A → result S) (P : S → Prop)
    (e : exn) l x s :
  (∀ s y, y ∈ l → P s →
     (∃ s', body s y = Ok s' ∧ P s') ∨ body s y = Raise e) →
  x ∈ l → (∀ s, P s → body s x = Raise e) → P s →
  for_each body s l = Raise e.
Proof.
  intros Hstep Hx Hraise. revert s.
  induction l as [|y l IH]; intros s Hs; [by apply elem_of_nil in Hx|].
  cbn [for_each].
  apply elem_of_cons in Hx as [->|Hx].
  - by rewrite (Hraise s Hs).
  - destruct (Hstep s y (list_elem_of_here _ _) Hs) as [(s' & -> & Hs')| ->];
      [|done].
    rewrite bind_Ok_l. apply IH; [|done|done].
    intros s1 z Hz. apply Hstep. by right.
Qed.

Lemma py_div_zero x y : (y == 0)%Q → py_div x y = Raise ZeroDivisionError.
Proof.
  intros Hy. unfold py_div.
  by rewrite (proj2 (Qeq_bool_iff y 0) Hy).
Qed.

Lemma _compute_phi_estimates_zero self wtc ttc word cnt k0 rest :
  shape self.(phi_matrix) (Z.to_nat self.(K)) (length self.(vocabulary)) →
  self.(vocabulary) = word :: rest →
  wtc !! word = Some cnt →
  1 ≤ k0 ≤ self.(K) →
  (inject_Z (counter_get ttc k0) + inject_Z self.(W) * self.(beta) == 0)%Q →
  _compute_phi_estimates self wtc ttc = Raise ZeroDivisionError.
Proof.
  intros Hshape Hvoc Hcnt Hk0 Hzero. unfold _compute_phi_estimates.
  rewrite Hvoc, enumerate_cons. cbn [for_each].
  rewrite (for_each_must_raise _
             (λ s, ∃ p, s = set_phi_matrix self p
                        ∧ shape p (Z.to_nat self.(K))
                                (length self.(vocabulary)))
             ZeroDivisionError (topic_range self.(K)) k0 self); [done| | | |].
  - intros s k Hk (p & -> & Hp). apply elem_of_topic_range in Hk.
    rewrite (proj2 (dict_get_Ok _ _ _) Hcnt), bind_Ok_l.
    cbn [set_phi_matrix beta W phi_matrix].
    destruct (Qeq_bool (inject_Z (counter_get ttc k)
                        + inject_Z self.(W) * self.(beta)) 0) eqn:E.
    + right. apply Qeq_bool_iff in E. by rewrite py_div_zero.
    + left. apply Qeq_bool_neq in E. rewrite py_div_Ok by done.
      rewrite bind_Ok_l.
      destruct (mat_set_Ok p (Z.to_nat (k - 1)) 0
                  ((inject_Z (counter_get cnt k) + self.(beta))
                   / (inject_Z (counter_get ttc k)
                      + inject_Z self.(W) * self.(beta)))%Q
                  (Z.to_nat self.(K)) (length self.(vocabulary)))
        as (p' & -> & Hp' & _); [done|lia|rewrite Hvoc; simpl; lia|].
      rewrite bind_Ok_l. eexists. split; [done|]. by exists p'.
  - by apply elem_of_topic_range.
  - intros s (p & -> & Hp).
    rewrite (proj2 (dict_get_Ok _ _ _) Hcnt), bind_Ok_l.
    cbn [set_phi_matrix beta W phi_matrix]. by rewrite py_div_zero.
  - exists self.(phi_matrix). split; [by destruct self|done].
Qed.

(** ** [get_top_n_words] on any matrix of the right shape *)

Lemma mapM_list_get_nth {A} (v : list A) (d : A) (idx : list nat) :
  Forall (λ i, (i < length v)%nat) idx →
  mapM (list_get v) idx = Ok ((λ i, nth i v d) <$> idx).
Proof.
  induction 1 as [|i idx Hi _ IH]; [done|].
  destruct (lookup_lt_is_Some_2 v i Hi) as [x Hx].
  rewrite mapM_cons, (proj2 (list_get_Ok _ _ _) Hx), bind_Ok_l.
  rewrite IH, bind_Ok_l, fmap_cons. do 2 f_equal.
  by rewrite nth_lookup, Hx.
Qed.

Lemma zip_fmap {A B C} (f : A → B) (g : A → C) (l : list A) :
  zip (f <$> l) (g <$> l) = (λ x, (f x, g x)) <$> l.
Proof. induction l as [|x l IH]; [done|]. rewrite !fmap_cons. simpl. by f_equal. Qed.

Lemma top_n_idx_bound argsort row n :
  argsort row ≡ₚ seq 0 (length row) →
  Forall (λ i, (i < length row)%nat) (top_n_idx argsort row n).
Proof.
  intros Hperm. apply Forall_forall. intros i Hi.
  apply slice_to_subseteq in Hi.
  assert (i ∈ seq 0 (length row)) as Hseq.
  { rewrite <-Hperm. by apply elem_of_reverse. }
  apply elem_of_seq in Hseq. lia.
Qed.

Lemma top_n_idx_NoDup argsort row n :
  argsort row ≡ₚ seq 0 (length row) → NoDup (top_n_idx argsort row n).
Proof.
  intros Hperm. unfold top_n_idx, slice_to.
  assert (NoDup (reverse (argsort row))) as Hnd.
  { rewrite reverse_Permutation, Hperm. apply NoDup_seq. }
  destruct (decide (0 ≤ n));
    (eapply sublist_NoDup; [exact Hnd|apply sublist_take]).
Qed.

Lemma length_top_n_idx argsort row n :
  argsort row ≡ₚ seq 0 (length row) →
  length (top_n_idx argsort row n)
  = if decide (0 ≤ n) then Nat.min (Z.to_nat n) (length row)
    else Z.to_nat (Z.of_nat (length row) + n).
Proof.
  intros Hperm. unfold top_n_idx, slice_to.
  assert (length (reverse (argsort row)) = length row) as Hlen.
  { by rewrite length_reverse, Hperm, length_seq. }
  destruct (decide (0 ≤ n)); rewrite length_take, Hlen; lia.
Qed.

Lemma top_n_idx_all argsort row n :
  argsort row ≡ₚ seq 0 (length row) → Z.of_nat (length row) ≤ n →
  top_n_idx argsort row n ≡ₚ seq 0 (length row).
Proof.
  intros Hperm Hn. unfold top_n_idx, slice_to.
  rewrite decide_True by lia.
  rewrite take_ge by (rewrite length_reverse, Hperm, length_seq; lia).
  by rewrite reverse_Permutation.
Qed.

Lemma top_n_idx_ranked argsort row n a b i j :
  sorts argsort → (a ≤ b)%nat →
  top_n_idx argsort row n !! a = Some i →
  top_n_idx argsort row n !! b = Some j →
  (nth j row 0 <= nth i row 0)%Q.
Proof.
  intros Hsorts Hab Ha Hb. destruct (Hsorts row) as [_ Hasc].
  unfold top_n_idx, slice_to in Ha, Hb.
  assert (reverse (argsort row) !! a = Some i
          ∧ reverse (argsort row) !! b = Some j) as [Ha' Hb'].
  { destruct (decide (0 ≤ n));
      apply lookup_take_Some in Ha as [Ha _];
      apply lookup_take_Some in Hb as [Hb _]; done. }
  apply reverse_lookup_Some in Ha' as [Ha' Hla].
  apply reverse_lookup_Some in Hb' as [Hb' Hlb].
  apply (Hasc (length (argsort row) - S b)%nat
              (length (argsort row) - S a)%nat); [lia|done|done].
Qed.

Lemma nth_seq_fmap {A} (v : list A) (d : A) :
  (λ i, nth i v d) <$> seq 0 (length v) = v.
Proof.
  apply list_eq. intros i. rewrite list_lookup_fmap.
  destruct (v !! i) as [x|] eqn:E.
  - rewrite lookup_seq_lt by (by eapply lookup_lt_Some). simpl.
    by rewrite nth_lookup, E.
  - rewrite lookup_seq_ge by (by apply lookup_ge_None). done.
Qed.

Section top_words_any.
Context (argsort : list Q → list nat).
Context (Hargsort : ∀ row, argsort row ≡ₚ seq 0 (length row)).
Context (self : LatentDirichletAllocation) (n : Z) (return_probs : bool).
Context (nr : nat).
Context (Hshape : shape self.(phi_matrix) nr (length self.(vocabulary))).

Lemma get_top_n_words_row (r : gmap Z top_words) (k : nat) (row : list Q) :
self.(phi_matrix) !! k = Some row →
(row ← list_get self.(phi_matrix) k;
 let top_n_idx := slice_to (reverse (argsort row)) n in
 top_n_words ← mapM (list_get self.(vocabulary)) top_n_idx;
 if return_probs then
   top_n_probs ← mapM (list_get row) top_n_idx;
   let top_n_probs := around4 <$> top_n_probs in
   Ok (<[Z.of_nat k + 1 := WordProbs (zip top_n_words top_n_probs)]> r)
 else Ok (<[Z.of_nat k + 1 := Words top_n_words]> r))
= Ok (<[Z.of_nat k + 1 := topic_entry argsort self n return_probs row]> r).
Proof.
intros Hrow.
assert (length row = length self.(vocabulary)) as Hlen.
{ destruct Hshape as [_ Hrows]. by apply (Forall_lookup_1 _ _ _ _ Hrows Hrow). }
pose proof (top_n_idx_bound argsort row n (Hargsort row)) as Hidx.
rewrite (proj2 (list_get_Ok _ _ _) Hrow), bind_Ok_l. cbn zeta.
fold (top_n_idx argsort row n).
rewrite (mapM_list_get_nth self.(vocabulary) EmptyString)
  by (by rewrite <-Hlen).
rewrite bind_Ok_l. unfold topic_entry. destruct return_probs; [|done].
rewrite (mapM_list_get_nth row 0%Q) by done.
rewrite bind_Ok_l. do 3 f_equal.
rewrite <-list_fmap_compose. apply zip_fmap.
Qed.

Lemma get_top_n_words_any :
∃ r, get_top_n_words argsort self n return_probs = Ok r
     ∧ (∀ k row, self.(phi_matrix) !! k = Some row →
          r !! (Z.of_nat k + 1)
          = Some (topic_entry argsort self n return_probs row))
     ∧ ∀ k, ¬ (1 ≤ k ≤ Z.of_nat nr) → r !! k = None.
Proof.
unfold get_top_n_words.
destruct (for_each_total
  (λ (topic_top_words : gmap Z top_words) (k : nat),
     row ← list_get self.(phi_matrix) k;
     let top_n_idx := slice_to (reverse (argsort row)) n in
     top_n_words ← mapM (list_get self.(vocabulary)) top_n_idx;
     if return_probs then
       top_n_probs ← mapM (list_get row) top_n_idx;
       let top_n_probs := around4 <$> top_n_probs in
       Ok (<[Z.of_nat k + 1 := WordProbs (zip top_n_words top_n_probs)]>
             topic_top_words)
     else Ok (<[Z.of_nat k + 1 := Words top_n_words]> topic_top_words))
  (λ pre r,
     (∀ k row, (k < length pre)%nat → self.(phi_matrix) !! k = Some row →
        r !! (Z.of_nat k + 1)
        = Some (topic_entry argsort self n return_probs row))
     ∧ ∀ k, ¬ (1 ≤ k ≤ Z.of_nat (length pre)) → r !! k = None)
  (seq 0 (length self.(phi_matrix))) ∅) as (r & Hr & Hin & Hout).
- split; [simpl; intros; lia|]. intros k _. apply lookup_empty.
- intros pre j suf r Hsplit [Hin Hout].
  assert (j = length pre ∧ (j < length self.(phi_matrix))%nat) as [-> Hj].
  { assert (seq 0 (length self.(phi_matrix)) !! length pre = Some j) as Hl
      by (rewrite Hsplit; by apply list_lookup_middle).
    apply lookup_seq in Hl. lia. }
  destruct (lookup_lt_is_Some_2 _ _ Hj) as [row Hrow].
  eexists. split; [by apply get_top_n_words_row|].
  rewrite length_app. simpl. split.
  + intros k row' Hk Hrow'.
    destruct (decide (k = length pre)) as [->|Hne].
    * rewrite lookup_insert_eq. congruence.
    * rewrite lookup_insert_ne by lia. apply Hin; [lia|done].
  + intros k Hk. rewrite lookup_insert_ne by lia. apply Hout. lia.
- exists r. rewrite length_seq in Hin, Hout.
  destruct Hshape as [Hnr _]. split_and!; [done| |].
  + intros k row Hrow. apply Hin; [|done]. by eapply lookup_lt_Some.
  + intros k Hk. apply Hout. lia.
Qed.
End top_words_any.

(** ** The stable [argsort] sorts *)

Lemma StronglySorted_lookup {A} (R : relation A) `{!Reflexive R} l a b x y :
  StronglySorted R l → (a ≤ b)%nat →
  l !! a = Some x → l !! b = Some y → R x y.
Proof.
  intros Hsorted. revert a b.
  induction Hsorted as [|z l Hl IH Hall]; intros a b Hab Ha Hb; [done|].
  destruct a as [|a], b as [|b]; simpl in *; try lia.
  - by simplify_eq.
  - injection Ha as ->. apply (proj1 (Forall_forall _ _) Hall).
    by eapply list_elem_of_lookup_2.
  - apply (IH a b); [lia|done|done].
Qed.

Lemma insert_by_value_sorted x l :
  StronglySorted (λ a b : nat * Q, (a.2 <= b.2)%Q) l →
  StronglySorted (λ a b : nat * Q, (a.2 <= b.2)%Q) (insert_by_value x l).
Proof.
  induction 1 as [|y l Hl IH Hall]; simpl; [by repeat constructor|].
  destruct (Qle_bool y.2 x.2) eqn:E.
  - apply Qle_bool_iff in E. constructor; [done|].
    rewrite insert_by_value_perm. by constructor.
  - assert (x.2 <= y.2)%Q as Hxy.
    { destruct (Qlt_le_dec y.2 x.2) as [Hlt|Hle]; [|done].
      apply Qlt_le_weak, Qle_bool_iff in Hlt. congruence. }
    constructor; [by constructor|]. constructor; [done|].
    eapply Forall_impl; [exact Hall|]. intros z Hz. simpl in *.
    by eapply Qle_trans.
Qed.

Lemma insertion_sort_sorted l acc :
  StronglySorted (λ a b : nat * Q, (a.2 <= b.2)%Q) acc →
  StronglySorted (λ a b : nat * Q, (a.2 <= b.2)%Q)
    (foldl (λ sorted x, insert_by_value x sorted) acc l).
Proof.
  revert acc. induction l as [|x l IH]; intros acc Hacc; simpl; [done|].
  by apply IH, insert_by_value_sorted.
Qed.

Lemma argsort_stable_sorts : sorts argsort_stable.
Proof.
  intros row. split; [apply argsort_stable_perm|].
  unfold argsort_stable. intros a b i j Hab Ha Hb.
  set (R := λ a b : nat * Q, (a.2 <= b.2)%Q) in *.
  set (l := foldl (λ sorted x, insert_by_value x sorted) [] (enumerate row))
    in *.
  assert (Reflexive R) as Hrefl.
  { intros [? x]. unfold R. simpl. apply Qle_refl. }
  assert (StronglySorted R l) as Hsorted.
  { apply insertion_sort_sorted. constructor. }
  assert (l ≡ₚ enumerate row) as Hperm.
  { unfold l. by rewrite insertion_sort_perm, app_nil_r. }
  rewrite list_lookup_fmap in Ha, Hb.
  destruct (l !! a) as [[i' x]|] eqn:Hla; [|done].
  destruct (l !! b) as [[j' y]|] eqn:Hlb; [|done].
  simpl in Ha, Hb. injection Ha as ->. injection Hb as ->.
  pose proof (StronglySorted_lookup R l a b (i, x) (j, y) Hsorted Hab Hla Hlb)
    as Hxy.
  unfold R in Hxy. simpl in Hxy.
  assert (∀ k z, (k, z) ∈ l → nth k row 0%Q = z) as Hnth.
  { intros k z Hk. rewrite Hperm in Hk. apply elem_of_enumerate in Hk.
    by rewrite nth_lookup, Hk. }
  rewrite (Hnth i x), (Hnth j y); [done| |];
    by eapply list_elem_of_lookup_2.
Qed.

(** ** The labels at the end of a run *)

Lemma fit_prefix_nonempty np_random py_random self alpha beta niter n s :
  fit_prefix np_random py_random self alpha beta niter n = Ok s →
  chains_nonempty s.1.(document_word_topics_MC).
Proof.
  unfold fit_prefix. intros (st0 & Hst0 & Hrun)%bind_Ok.
  apply (run_nonempty py_random self alpha beta _ _ _ Hrun). simpl.
  by apply (_initialize_topics_nonempty np_random self).
Qed.

Lemma fit_prefix_lengths np_random py_random self alpha beta niter n s :
  fit_prefix np_random py_random self alpha beta niter n = Ok s →
  ∀ doc chains i chain,
    s.1.(document_word_topics_MC) !! doc = Some chains →
    chains !! i = Some chain →
    Z.of_nat (length chain) = 1 + visits doc i (take n (schedule self niter)).
Proof.
  unfold fit_prefix. intros (st0 & Hst0 & Hrun)%bind_Ok.
  apply (run_lengths py_random self alpha beta _ _ _ Hrun). simpl.
  by apply (_initialize_topics_singletons np_random self).
Qed.

Lemma fit_prefix_extends np_random py_random self alpha beta niter n m s s' :
  (n ≤ m)%nat →
  fit_prefix np_random py_random self alpha beta niter n = Ok s →
  fit_prefix np_random py_random self alpha beta niter m = Ok s' →
  extends s.1.(document_word_topics_MC) s'.1.(document_word_topics_MC).
Proof.
  unfold fit_prefix. intros Hnm (st0 & Hst0 & Hrun)%bind_Ok.
  rewrite Hst0, bind_Ok_l.
  rewrite <-(take_drop n (take m (schedule self niter))).
  rewrite take_take, Nat.min_l by done.
  rewrite for_each_app, Hrun, bind_Ok_l.
  apply run_extends.
Qed.

Lemma lowest_mode_elem chain m : lowest_mode chain m → m ∈ chain.
Proof. by intros [? _]. Qed.

(** ** An empty history *)

Lemma for_each_ok_or_raise {A S} (body : S → A → result S) (P : S → Prop)
    (e : exn) l s :
  (∀ s y, y ∈ l → P s →
     (∃ s', body s y = Ok s' ∧ P s') ∨ body s y = Raise e) →
  P s →
  (∃ s', for_each body s l = Ok s' ∧ P s') ∨ for_each body s l = Raise e.
Proof.
  revert s. induction l as [|y l IH]; intros s Hstep Hs; [left; by exists s|].
  cbn [for_each].
  destruct (Hstep s y (list_elem_of_here _ _) Hs) as [(s' & -> & Hs')| ->];
    [|by right].
  rewrite bind_Ok_l. apply IH; [|done].
  intros s1 z Hz. apply Hstep. by right.
Qed.

Section approx_empty.
Context (self : LatentDirichletAllocation)
      (MC : gmap string (list (list Z))).

Let keeps (dwt : gmap string (list Z)) : Prop :=
∀ d, is_Some (MC !! d) → is_Some (dwt !! d).

Let inner (doc : string) (dwt : gmap string (list Z)) (it : nat * list Z)
  : result (gmap string (list Z)) :=
let '(i, word) := it in
chains ← dict_get MC doc;
chain ← list_get chains i;
most_frequent_topic ← list_get (mode chain).1 0;
labels ← dict_get dwt doc;
Ok (<[doc := labels ++ [most_frequent_topic]]> dwt).

Lemma approx_step doc words dwt i chain :
MC !! doc = Some words → words !! i = Some chain → keeps dwt →
(∃ dwt', inner doc dwt (i, chain) = Ok dwt' ∧ keeps dwt')
∨ inner doc dwt (i, chain) = Raise IndexError.
Proof.
intros HMC Hi Hkeeps. unfold inner.
rewrite (proj2 (dict_get_Ok _ _ _) HMC), bind_Ok_l.
rewrite (proj2 (list_get_Ok _ _ _) Hi), bind_Ok_l.
destruct chain as [|t chain]; [by right|]. left.
rewrite mode00_Ok by done. rewrite bind_Ok_l.
destruct (Hkeeps doc) as [labels Hlabels]; [by eexists|].
rewrite (proj2 (dict_get_Ok _ _ _) Hlabels), bind_Ok_l.
eexists. split; [done|]. intros d Hd.
destruct (decide (d = doc)) as [->|Hne].
- rewrite lookup_insert_eq. by eexists.
- rewrite lookup_insert_ne by done. by apply Hkeeps.
Qed.

Lemma approx_step_empty doc words dwt i :
MC !! doc = Some words → words !! i = Some [] →
inner doc dwt (i, []) = Raise IndexError.
Proof.
intros HMC Hi. unfold inner.
rewrite (proj2 (dict_get_Ok _ _ _) HMC), bind_Ok_l.
by rewrite (proj2 (list_get_Ok _ _ _) Hi), bind_Ok_l.
Qed.

Lemma _compute_MC_topic_approx_empty doc chains :
MC !! doc = Some chains → [] ∈ chains →
_compute_MC_topic_approx self MC = Raise IndexError.
Proof.
intros Hdoc Hempty. unfold _compute_MC_topic_approx.
apply (for_each_must_raise
         (λ dwt (item : string * list (list Z)),
            let '(doc, words) := item in
            for_each (inner doc) dwt (enumerate words))
         keeps IndexError (map_to_list MC) (doc, chains)).
- intros dwt [d words] Hin Hkeeps.
  apply elem_of_map_to_list in Hin.
  apply (for_each_ok_or_raise (inner d) keeps); [|done].
  intros dwt1 [i chain] Hi Hkeeps1. apply elem_of_enumerate in Hi.
  by apply (approx_step d words).
- by apply elem_of_map_to_list.
- intros dwt Hkeeps.
  apply list_elem_of_lookup in Hempty as [i Hi].
  apply (for_each_must_raise (inner doc) keeps IndexError
           (enumerate chains) (i, [])).
  + intros dwt1 [j chain] Hj Hkeeps1. apply elem_of_enumerate in Hj.
    by apply (approx_step doc chains).
  + by apply elem_of_enumerate.
  + intros dwt1 _. by apply (approx_step_empty doc chains).
  + done.
- intros d [words Hd]. rewrite lookup_fmap, Hd. by eexists.
Qed.
End approx_empty.

(** ** The sampler loop of [fit] *)

(** X1.  Every topic that [_initialize_topics] and the token steps of
    [fit] record in the histories is one of 1..K. *)
Theorem topics_stay_in_range np_random py_random self alpha beta niter n st
    drawn :
  fit_prefix np_random py_random self alpha beta niter n = Ok (st, drawn) →
  topics_in_range self.(K) st.(document_word_topics_MC).
Proof.
  intros Hrun.
  apply (fit_prefix_in_range np_random py_random self alpha beta niter n
           (st, drawn) Hrun).
Qed.

Lemma topics_stay_in_range_example :
  topics_in_range 2 example_state.1.(document_word_topics_MC).
Proof.
  apply (topics_stay_in_range example_np example_py example_model (1 # 10)
           (1 # 10) 2 3 example_state.1 example_state.2).
  vm_compute. reflexivity.
Defined.

(** X2.  When the [niter] sweeps of [fit] have run, the history of every
    occurrence of the corpus holds exactly [1 + niter] topics (the initial
    draw and one per sweep), and [random()] has been called [niter] times
    the number of tokens. *)
Theorem history_length_after_sweeps np_random py_random self alpha beta
    niter st drawn doc words i word :
  constructed self →
  fit_prefix np_random py_random self alpha beta niter
    (length (schedule self niter)) = Ok (st, drawn) →
  (doc, words) ∈ self.(iden_to_tokens) → words !! i = Some word →
  (∃ chains chain,
     st.(document_word_topics_MC) !! doc = Some chains
     ∧ chains !! i = Some chain
     ∧ length chain = S (Z.to_nat niter))
  ∧ Z.of_nat drawn
    = Z.of_nat (Z.to_nat niter) * token_count self.(iden_to_tokens).
Proof.
  intros Hself Hrun Hdoc Hword. split.
  - pose proof (fit_prefix_consistent np_random py_random self alpha beta
                  (proj1 Hself) niter _ st drawn Hrun) as Hcons.
    destruct (cs_chains _ _ _ Hcons doc words Hdoc) as (chains & Hch & Hlen & _).
    destruct (lookup_lt_is_Some_2 chains i) as [chain Hchain].
    { rewrite Hlen. by eapply lookup_lt_Some. }
    exists chains, chain. split_and!; [done|done|].
    pose proof (fit_prefix_lengths np_random py_random self alpha beta niter
                  _ (st, drawn) Hrun doc chains i chain Hch Hchain) as Hl.
    rewrite firstn_all, visits_schedule in Hl.
    rewrite (visits_occurrences _ doc words i) in Hl;
      [lia|apply Hself|done|by eapply lookup_lt_Some].
  - unfold fit_prefix in Hrun.
    apply bind_Ok in Hrun as (st0 & _ & Hrun).
    apply run_drawn in Hrun. simpl in Hrun. rewrite Hrun.
    by rewrite firstn_all, length_schedule.
Qed.

Lemma history_length_after_sweeps_example :
  (∃ chains chain,
     example_sweep.1.(document_word_topics_MC) !! "d2"%string = Some chains
     ∧ chains !! 1%nat = Some chain
     ∧ length chain = S (Z.to_nat 1))
  ∧ Z.of_nat example_sweep.2
    = Z.of_nat (Z.to_nat 1) * token_count example_corpus.
Proof.
  apply (history_length_after_sweeps example_np example_py example_model
           (1 # 10) (1 # 10) 1 example_sweep.1 example_sweep.2
           "d2" ["b"; "b"]%string 1%nat "b").
  - split; [compute_done|reflexivity].
  - vm_compute. reflexivity.
  - compute_done.
  - reflexivity.
Defined.

(** X3.  The token steps never rewrite a history: the history an
    occurrence has after [n] steps is a prefix of the one it has after any
    [m >= n] steps, so the initial draw stays its first entry. *)
Theorem histories_append_only np_random py_random self alpha beta niter
    n m s s' :
  (n ≤ m)%nat →
  fit_prefix np_random py_random self alpha beta niter n = Ok s →
  fit_prefix np_random py_random self alpha beta niter m = Ok s' →
  extends s.1.(document_word_topics_MC) s'.1.(document_word_topics_MC).
Proof. apply fit_prefix_extends. Qed.

Lemma histories_append_only_example :
  extends example_tables.(document_word_topics_MC)
          example_state.1.(document_word_topics_MC).
Proof.
  apply (histories_append_only example_np example_py example_model (1 # 10)
           (1 # 10) 2 0 3 (example_tables, 0%nat) example_state).
  - lia.
  - vm_compute. reflexivity.
  - vm_compute. reflexivity.
Defined.

(** X4.  A token step of [fit] whose draw [n] differs from the current
    topic [c] moves exactly one unit from [c] to [n] in the counter of the
    document, in the counter of the word and in the totals; the counters of
    the other documents and of the other words are untouched. *)
Theorem reassignment_moves_one_count py_random self alpha beta st drawn doc
    i word c n ds cd cw :
  0 ≤ self.(K) →
  current_topic st doc i = Ok c →
  compute_densities self alpha beta st doc word c
    (replicate (Z.to_nat self.(K)) 0%Q) = Ok ds →
  choices (topic_range self.(K)) ds (random (py_random drawn)) = Ok n →
  n ≠ c →
  st.(document_topic_counts) !! doc = Some cd →
  st.(word_topic_counts) !! word = Some cw →
  ∃ st' cd' cw',
    resample py_random self alpha beta doc (st, drawn) (i, word)
    = Ok (st', S drawn)
    ∧ st'.(document_topic_counts) !! doc = Some cd'
    ∧ st'.(word_topic_counts) !! word = Some cw'
    ∧ (∀ k, counter_get cd' k = counter_get cd k + shift c n k)
    ∧ (∀ k, counter_get cw' k = counter_get cw k + shift c n k)
    ∧ (∀ k, counter_get st'.(total_topic_counts) k
            = counter_get st.(total_topic_counts) k + shift c n k)
    ∧ (∀ d, d ≠ doc →
         st'.(document_topic_counts) !! d = st.(document_topic_counts) !! d)
    ∧ (∀ w, w ≠ word →
         st'.(word_topic_counts) !! w = st.(word_topic_counts) !! w).
Proof.
  intros HK Hc Hds Hdraw Hne Hcd Hcw.
  pose proof Hc as (chains & chain & Hchains & Hchain & _)%current_topic_Ok.
  assert (∀ cnt k, counter_get (counter_add (counter_add cnt c (-1)) n 1) k
                   = counter_get cnt k + shift c n k) as Hshift.
  { intros cnt k. rewrite !counter_get_add. unfold shift.
    destruct (decide (n = k)), (decide (c = k)); lia. }
  eexists _, _, _. split_and!.
  - rewrite (resample_unfold _ _ _ _ _ _ _ _ _ c ds) by done.
    rewrite Hdraw, bind_Ok_l.
    rewrite (append_topic_Ok _ _ _ _ _ _ Hchains Hchain), bind_Ok_l.
    rewrite decide_False by done.
    rewrite (update_counts_Ok _ _ _ _ _ cd cw) by done.
    by rewrite bind_Ok_l.
  - simpl. apply lookup_insert_eq.
  - simpl. apply lookup_insert_eq.
  - apply Hshift.
  - apply Hshift.
  - simpl. apply Hshift.
  - intros d Hd. simpl. by rewrite lookup_insert_ne.
  - intros w Hw. simpl. by rewrite lookup_insert_ne.
Qed.

Lemma reassignment_moves_one_count_example :
  ∃ st' cd' cw',
    resample example_py example_model (1 # 10) (1 # 10) "d1"
      (example_state_1.1, 1%nat) (1%nat, "b"%string)
    = Ok (st', 2%nat)
    ∧ st'.(document_topic_counts) !! "d1"%string = Some cd'
    ∧ st'.(word_topic_counts) !! "b"%string = Some cw'
    ∧ (∀ k, counter_get cd' k
            = counter_get {[ 1 := 2; 2 := 1 ]} k + shift 2 1 k)
    ∧ (∀ k, counter_get cw' k
            = counter_get {[ 1 := 1; 2 := 2 ]} k + shift 2 1 k)
    ∧ (∀ k, counter_get st'.(total_topic_counts) k
            = counter_get example_state_1.1.(total_topic_counts) k
              + shift 2 1 k)
    ∧ (∀ d, d ≠ "d1"%string →
         st'.(document_topic_counts) !! d
         = example_state_1.1.(document_topic_counts) !! d)
    ∧ (∀ w, w ≠ "b"%string →
         st'.(word_topic_counts) !! w
         = example_state_1.1.(word_topic_counts) !! w).
Proof.
  eapply (reassignment_moves_one_count example_py example_model (1 # 10)
            (1 # 10) example_state_1.1 1%nat "d1" 1%nat "b" 2 1).
  - simpl. lia.
  - reflexivity.
  - vm_compute. reflexivity.
  - vm_compute. reflexivity.
  - lia.
  - reflexivity.
  - reflexivity.
Defined.

(** X5.  At every point of the run the counts are within bounds: a
    document's count of a topic lies between 0 and the document's number of
    tokens, a word's count of a topic between 0 and the topic's total, and
    a topic's total between 0 and the number of tokens of the corpus. *)
Theorem counts_within_bounds np_random py_random self alpha beta niter n st
    drawn :
  constructed self →
  fit_prefix np_random py_random self alpha beta niter n = Ok (st, drawn) →
  (∀ doc words, (doc, words) ∈ self.(iden_to_tokens) →
     ∃ cnt, st.(document_topic_counts) !! doc = Some cnt
            ∧ ∀ k, 0 ≤ counter_get cnt k ≤ Z.of_nat (length words))
  ∧ (∀ word cnt k, st.(word_topic_counts) !! word = Some cnt →
       0 ≤ counter_get cnt k ≤ counter_get st.(total_topic_counts) k)
  ∧ (∀ k, 0 ≤ counter_get st.(total_topic_counts) k
          ≤ token_count self.(iden_to_tokens)).
Proof.
  intros Hself Hrun. apply (consistent_bounds _ self.(vocabulary)).
  apply (fit_prefix_consistent np_random py_random self alpha beta
           (proj1 Hself) niter n st drawn Hrun).
Qed.

Lemma counts_within_bounds_example :
  (∀ doc words, (doc, words) ∈ example_corpus →
     ∃ cnt, example_state.1.(document_topic_counts) !! doc = Some cnt
            ∧ ∀ k, 0 ≤ counter_get cnt k ≤ Z.of_nat (length words))
  ∧ (∀ word cnt k, example_state.1.(word_topic_counts) !! word = Some cnt →
       0 ≤ counter_get cnt k
       ≤ counter_get example_state.1.(total_topic_counts) k)
  ∧ (∀ k, 0 ≤ counter_get example_state.1.(total_topic_counts) k
          ≤ token_count example_corpus).
Proof.
  apply (counts_within_bounds example_np example_py example_model (1 # 10)
           (1 # 10) 2 3 example_state.1 example_state.2).
  - split; [compute_done|reflexivity].
  - vm_compute. reflexivity.
Defined.

(** X7.  A model with K <= 0 (the constructor accepts K = 0) cannot be
    fitted: on a corpus with at least one token [_initialize_topics] raises
    the [ValueError] of [np.random.randint] for the first document that has
    a token, and [fit] raises it before any sweep. *)
Theorem fit_without_topics_raises np_random py_random self alpha beta niter :
  mjoin (self.(iden_to_tokens).*2) ≠ [] → self.(K) ≤ 0 →
  _initialize_topics np_random self = Raise ValueError
  ∧ (fit np_random py_random self alpha beta niter).2 = Raise ValueError.
Proof.
  intros Htok HK.
  pose proof (_initialize_topics_no_topic np_random self Htok HK) as Hinit.
  split; [done|]. unfold fit. cbn [snd]. by rewrite Hinit.
Qed.

Lemma fit_without_topics_raises_example :
  _initialize_topics example_np no_topic_model = Raise ValueError
  ∧ (fit example_np example_py no_topic_model (1 # 10) (1 # 10) 3).2
    = Raise ValueError.
Proof.
  apply (fit_without_topics_raises example_np example_py no_topic_model
           (1 # 10) (1 # 10) 3).
  - simpl. discriminate.
  - simpl. lia.
Defined.

(** ** [_compute_phi_estimates] *)

Lemma shape_phi_estimates_any self wtc ttc :
  shape (phi_estimates self wtc ttc) (Z.to_nat self.(K))
        (length self.(vocabulary)).
Proof.
  unfold phi_estimates. split.
  - by rewrite length_fmap, length_topic_range.
  - apply Forall_fmap, Forall_forall. intros k _. simpl.
    by rewrite length_fmap.
Qed.





(** X9.  What [_compute_phi_estimates] writes does not depend on what
    [phi_matrix] held before: started on any K x W content it leaves the
    same matrix, so calling it again with the same counts changes
    nothing. *)
Theorem phi_estimates_ignore_previous self word_topic_counts
    total_topic_counts previous :
  shape previous (Z.to_nat self.(K)) (length self.(vocabulary)) →
  Forall (λ word, is_Some (word_topic_counts !! word)) self.(vocabulary) →
  Forall (λ k, ¬ (inject_Z (counter_get total_topic_counts k)
                  + inject_Z self.(W) * self.(beta) == 0)%Q)
         (topic_range self.(K)) →
  let written :=
    set_phi_matrix self
      (phi_estimates self word_topic_counts total_topic_counts) in
  _compute_phi_estimates (set_phi_matrix self previous) word_topic_counts
    total_topic_counts = Ok written
  ∧ _compute_phi_estimates written word_topic_counts total_topic_counts
    = Ok written.
Proof.
  intros Hshape Hwords Hden written.
  assert (∀ p, shape p (Z.to_nat self.(K)) (length self.(vocabulary)) →
            _compute_phi_estimates (set_phi_matrix self p) word_topic_counts
              total_topic_counts = Ok written) as Hany.
  { intros p Hp.
    rewrite (_compute_phi_estimates_closed (set_phi_matrix self p)); [done|..].
    - exact Hp.
    - intros word. apply (proj1 (Forall_forall _ _) Hwords).
    - intros k Hk. apply (proj1 (Forall_forall _ _) Hden).
      by apply elem_of_topic_range. }
  split; [by apply Hany|].
  apply (Hany (phi_estimates self word_topic_counts total_topic_counts)).
  apply shape_phi_estimates_any.
Qed.

Lemma phi_estimates_ignore_previous_example :
  let written :=
    set_phi_matrix example_model
      (phi_estimates example_model example_tables.(word_topic_counts)
         example_tables.(total_topic_counts)) in
  _compute_phi_estimates
    (set_phi_matrix example_model [[1; 2]; [3; 4]]%Q)
    example_tables.(word_topic_counts) example_tables.(total_topic_counts)
  = Ok written
  ∧ _compute_phi_estimates written example_tables.(word_topic_counts)
      example_tables.(total_topic_counts)
    = Ok written.
Proof.
  apply (phi_estimates_ignore_previous example_model
           example_tables.(word_topic_counts)
           example_tables.(total_topic_counts) [[1; 2]; [3; 4]]%Q).
  - split; [reflexivity|]. by repeat constructor.
  - repeat constructor; by eexists.
  - repeat constructor; vm_compute; discriminate.
Defined.

(** X10.  If [N_k + self.W * self.beta] is zero for some topic [k] in
    1..K (for instance [self.beta = 0] and a topic that no token carries),
    [_compute_phi_estimates] raises [ZeroDivisionError]. *)
Theorem phi_estimates_zero_division self word_topic_counts total_topic_counts
    word rest cnt k :
  shape self.(phi_matrix) (Z.to_nat self.(K)) (length self.(vocabulary)) →
  self.(vocabulary) = word :: rest →
  word_topic_counts !! word = Some cnt →
  1 ≤ k ≤ self.(K) →
  (inject_Z (counter_get total_topic_counts k)
   + inject_Z self.(W) * self.(beta) == 0)%Q →
  _compute_phi_estimates self word_topic_counts total_topic_counts
  = Raise ZeroDivisionError.
Proof. apply _compute_phi_estimates_zero. Qed.

Lemma phi_estimates_zero_division_example :
  _compute_phi_estimates zero_beta_model example_tables.(word_topic_counts)
    example_tables.(total_topic_counts)
  = Raise ZeroDivisionError.
Proof.
  apply (phi_estimates_zero_division zero_beta_model
           example_tables.(word_topic_counts)
           example_tables.(total_topic_counts) "a" ["b"%string]
           {[ 1 := 2 ]} 3).
  - split; [reflexivity|]. by repeat constructor.
  - reflexivity.
  - reflexivity.
  - simpl. lia.
  - vm_compute. reflexivity.
Defined.

(** ** [get_top_n_words] *)

(** X11.  On any model whose [phi_matrix] has one column per vocabulary
    word, [get_top_n_words] raises nothing, for every [n] and with or
    without probabilities.  Its answer has exactly the keys 1..(number of
    rows); the entry of a row lists the vocabulary words at the indices
    [argsort(row)[::-1][:n]], which are distinct, in range, and
    [min(n, W)] in number for [n >= 0] and [max(W + n, 0)] for
    [n < 0]. *)
Theorem top_words_on_any_matrix argsort self n return_probs nr :
  (∀ row, argsort row ≡ₚ seq 0 (length row)) →
  shape self.(phi_matrix) nr (length self.(vocabulary)) →
  ∃ r, get_top_n_words argsort self n return_probs = Ok r
       ∧ (∀ k row, self.(phi_matrix) !! k = Some row →
            r !! (Z.of_nat k + 1)
            = Some (topic_entry argsort self n return_probs row)
            ∧ NoDup (top_n_idx argsort row n)
            ∧ Forall (λ i, (i < length self.(vocabulary))%nat)
                     (top_n_idx argsort row n)
            ∧ length (top_n_idx argsort row n)
              = if decide (0 ≤ n)
                then Nat.min (Z.to_nat n) (length self.(vocabulary))
                else Z.to_nat (Z.of_nat (length self.(vocabulary)) + n))
       ∧ ∀ k, ¬ (1 ≤ k ≤ Z.of_nat nr) → r !! k = None.
Proof.
  intros Hargsort Hshape.
  destruct (get_top_n_words_any argsort Hargsort self n return_probs nr Hshape)
    as (r & Hr & Hin & Hout).
  exists r. split_and!; [done| |done].
  intros k row Hrow.
  assert (length row = length self.(vocabulary)) as Hlen.
  { destruct Hshape as [_ Hrows].
    by apply (Forall_lookup_1 _ _ _ _ Hrows Hrow). }
  split_and!.
  - by apply Hin.
  - by apply top_n_idx_NoDup.
  - rewrite <-Hlen. by apply top_n_idx_bound.
  - rewrite <-Hlen. by apply length_top_n_idx.
Qed.

Lemma top_words_on_any_matrix_example :
  ∃ r, get_top_n_words argsort_stable fitted_model 1 true = Ok r
       ∧ (∀ k row, fitted_model.(phi_matrix) !! k = Some row →
            r !! (Z.of_nat k + 1)
            = Some (topic_entry argsort_stable fitted_model 1 true row)
            ∧ NoDup (top_n_idx argsort_stable row 1)
            ∧ Forall (λ i, (i < length ["a"; "b"]%string)%nat)
                     (top_n_idx argsort_stable row 1)
            ∧ length (top_n_idx argsort_stable row 1)
              = if decide (0 ≤ 1)
                then Nat.min (Z.to_nat 1) (length ["a"; "b"]%string)
                else Z.to_nat (Z.of_nat (length ["a"; "b"]%string) + 1))
       ∧ ∀ k, ¬ (1 ≤ k ≤ Z.of_nat 2) → r !! k = None.
Proof.
  apply (top_words_on_any_matrix argsort_stable fitted_model 1 true 2).
  - apply argsort_stable_perm.
  - split; [reflexivity|]. by repeat constructor.
Defined.

(** X12.  With an [argsort] that sorts, the words [get_top_n_words] lists
    for a topic are ranked: a word listed earlier has an entry of
    [phi_matrix] at least as large as a word listed later. *)
Theorem top_words_are_ranked argsort self n return_probs nr r k row a b i j :
  sorts argsort →
  shape self.(phi_matrix) nr (length self.(vocabulary)) →
  get_top_n_words argsort self n return_probs = Ok r →
  self.(phi_matrix) !! k = Some row →
  (a ≤ b)%nat →
  top_n_idx argsort row n !! a = Some i →
  top_n_idx argsort row n !! b = Some j →
  r !! (Z.of_nat k + 1) = Some (topic_entry argsort self n return_probs row)
  ∧ (nth j row 0 <= nth i row 0)%Q.
Proof.
  intros Hsorts Hshape Hr Hrow Hab Ha Hb. split.
  - destruct (get_top_n_words_any argsort (λ row, proj1 (Hsorts row)) self n
                return_probs nr Hshape) as (r' & Hr' & Hin & _).
    assert (r' = r) as -> by congruence. by apply Hin.
  - by apply (top_n_idx_ranked argsort row n a b).
Qed.

Lemma top_words_are_ranked_example :
  ({[ 1 := Words ["a"; "b"]%string; 2 := Words ["b"; "a"]%string ]}
     : gmap Z top_words) !! (Z.of_nat 1 + 1)
  = Some (topic_entry argsort_stable fitted_model 2 false [1 # 22; 21 # 22]%Q)
  ∧ (nth 0 [1 # 22; 21 # 22] 0 <= nth 1 [1 # 22; 21 # 22] 0)%Q.
Proof.
  apply (top_words_are_ranked argsort_stable fitted_model 2 false 2
           {[ 1 := Words ["a"; "b"]%string; 2 := Words ["b"; "a"]%string ]}
           1%nat [1 # 22; 21 # 22]%Q 0%nat 1%nat 1%nat 0%nat).
  - apply argsort_stable_sorts.
  - split; [reflexivity|]. by repeat constructor.
  - vm_compute. reflexivity.
  - reflexivity.
  - lia.
  - reflexivity.
  - reflexivity.
Defined.

(** X13.  Asked for at least W words, [get_top_n_words] lists for every
    topic the whole vocabulary, each word once. *)
Theorem top_words_whole_vocabulary argsort self n nr :
  (∀ row, argsort row ≡ₚ seq 0 (length row)) →
  shape self.(phi_matrix) nr (length self.(vocabulary)) →
  Z.of_nat (length self.(vocabulary)) ≤ n →
  ∃ r, get_top_n_words argsort self n false = Ok r
       ∧ ∀ k row, self.(phi_matrix) !! k = Some row →
           ∃ words, r !! (Z.of_nat k + 1) = Some (Words words)
                    ∧ words ≡ₚ self.(vocabulary).
Proof.
  intros Hargsort Hshape Hn.
  destruct (get_top_n_words_any argsort Hargsort self n false nr Hshape)
    as (r & Hr & Hin & _).
  exists r. split; [done|]. intros k row Hrow.
  assert (length row = length self.(vocabulary)) as Hlen.
  { destruct Hshape as [_ Hrows].
    by apply (Forall_lookup_1 _ _ _ _ Hrows Hrow). }
  eexists. split; [by apply Hin|].
  rewrite (top_n_idx_all argsort row n) by (done || lia).
  by rewrite Hlen, nth_seq_fmap.
Qed.

Lemma top_words_whole_vocabulary_example :
  ∃ r, get_top_n_words argsort_stable fitted_model 5 false = Ok r
       ∧ ∀ k row, fitted_model.(phi_matrix) !! k = Some row →
           ∃ words, r !! (Z.of_nat k + 1) = Some (Words words)
                    ∧ words ≡ₚ ["a"; "b"]%string.
Proof.
  apply (top_words_whole_vocabulary argsort_stable fitted_model 5 2).
  - apply argsort_stable_perm.
  - split; [reflexivity|]. by repeat constructor.
  - simpl. lia.
Defined.

(** ** [_compute_MC_topic_approx] *)

(** X14.  On the histories of a run, at any point of it,
    [_compute_MC_topic_approx] raises nothing and gives every document of
    the corpus one label per token, each label a topic in 1..K. *)
Theorem labels_are_valid_topics np_random py_random self alpha beta niter n
    st drawn :
  constructed self →
  fit_prefix np_random py_random self alpha beta niter n = Ok (st, drawn) →
  ∃ r, _compute_MC_topic_approx self st.(document_word_topics_MC) = Ok r
       ∧ ∀ doc words, (doc, words) ∈ self.(iden_to_tokens) →
           ∃ labels, r !! doc = Some labels
                     ∧ length labels = length words
                     ∧ Forall (λ t, 1 ≤ t ≤ self.(K)) labels.
Proof.
  intros Hself Hrun.
  pose proof (fit_prefix_consistent np_random py_random self alpha beta
                (proj1 Hself) niter n st drawn Hrun) as Hcons.
  pose proof (fit_prefix_nonempty _ _ _ _ _ _ _ _ Hrun) as Hne.
  pose proof (fit_prefix_in_range _ _ _ _ _ _ _ _ Hrun) as Hrange.
  simpl in Hne, Hrange.
  eexists. split; [by apply _compute_MC_topic_approx_Ok|].
  intros doc words Hdoc.
  destruct (cs_chains _ _ _ Hcons doc words Hdoc) as (chains & Hch & Hlen & _).
  exists (mode00 <$> chains). split_and!.
  - by rewrite lookup_fmap, Hch.
  - by rewrite length_fmap.
  - apply Forall_fmap, Forall_forall. intros chain Hchain. simpl.
    pose proof (proj1 (Forall_forall _ _) (Hne doc chains Hch) chain Hchain)
      as Hnonempty.
    pose proof (proj1 (Forall_forall _ _) (Hrange doc chains Hch) chain Hchain)
      as Hin.
    apply (proj1 (Forall_forall _ _) Hin).
    by apply lowest_mode_elem, mode00_lowest.
Qed.

Lemma labels_are_valid_topics_example :
  ∃ r, _compute_MC_topic_approx example_model
         example_state.1.(document_word_topics_MC) = Ok r
       ∧ ∀ doc words, (doc, words) ∈ example_corpus →
           ∃ labels, r !! doc = Some labels
                     ∧ length labels = length words
                     ∧ Forall (λ t, 1 ≤ t ≤ 2) labels.
Proof.
  apply (labels_are_valid_topics example_np example_py example_model
           (1 # 10) (1 # 10) 2 3 example_state.1 example_state.2).
  - split; [compute_done|reflexivity].
  - vm_compute. reflexivity.
Defined.

(** X15.  If some history is empty, [_compute_MC_topic_approx] raises
    [IndexError]: [mode] of an empty history has no first entry. *)
Theorem topic_approx_empty_history self MC doc chains :
  MC !! doc = Some chains → [] ∈ chains →
  _compute_MC_topic_approx self MC = Raise IndexError.
Proof. apply _compute_MC_topic_approx_empty. Qed.

Lemma topic_approx_empty_history_example :
  _compute_MC_topic_approx example_model {[ "d1"%string := [[1]; []] ]}
  = Raise IndexError.
Proof.
  apply (topic_approx_empty_history example_model
           {[ "d1"%string := [[1]; []] ]} "d1" [[1]; []]).
  - reflexivity.
  - compute_done.
Defined.
